(** * MRR recording reader and playback scheduler

    A shallow embedding of [plugin/mrr-reader.js] (the binary container
    reader: header, footer, frame records, the [MrrReader] cursor) and of
    the [MrrPlayer] class of [plugin/index.js] (the timer-driven playback
    scheduler), together with the properties of these two components.

    Conventions of the embedding.

    - A Node.js [Buffer] is a [list byte].
    - A JavaScript Number that holds an integer is a [Z].  The length of a
      buffer is far below 2^53, and up to there Number arithmetic on
      integers is exact.  Where the source can leave that range it is
      written out: [Number(BigInt)] on a 64-bit field ([Number_of_BigInt])
      and the subtraction of two timestamps ([Number_sub]).  An offset of
      2^53 or more lies past the end of every buffer: a read there throws
      and a slice there is empty, however a sum with it is rounded.
    - A function that can throw returns a [result]; the thrown value keeps
      the class of the JavaScript exception and, for the errors the source
      raises itself, which of its messages it carries.
    - Mutable objects ([MrrReader], [MrrPlayer], the host application) are
      records threaded through the operations. *)

From Stdlib Require Import ZArith Lia Strings.Byte.
From stdpp Require Import base tactics option list strings gmap.

Local Open Scope Z_scope.

(** ** Exceptions *)

(** The messages of the [throw new Error(...)] statements of
    [mrr-reader.js]. *)
Inductive ErrorMessage : Type :=
  | BufferTooSmallForHeader (len : Z)   (* `Buffer too small for header: ${len} < 256` *)
  | BadMagicBytes                       (* 'Invalid MRR file: bad magic bytes' *)
  | UnsupportedMrrVersion (version : Z) (* `Unsupported MRR version: ${version}` *)
  | BufferTooSmallForFooter (len : Z)   (* `Buffer too small for footer: ${len} < 32` *)
  | BadFooterMagicBytes.                (* 'Invalid MRR footer: bad magic bytes' *)

(** What a call can throw: an [Error] of the reader itself, the
    [RangeError] of a [Buffer] read outside the buffer (and of an exhausted
    call stack), the [SyntaxError] of [JSON.parse], the [TypeError] of a
    property read on [undefined], and the [Error] with the code
    'ERR_STRING_TOO_LONG' that [buf.toString] throws for a buffer that is
    too long to be a string. *)
Inductive JsError : Type :=
  | Error (msg : ErrorMessage)
  | RangeError
  | SyntaxError
  | TypeError
  | ErrStringTooLong.

Inductive result (A : Type) : Type :=
  | Ok (a : A)
  | Throw (e : JsError).
Arguments Ok {A} a.
Arguments Throw {A} e.

#[global] Instance result_ret : MRet result := @Ok.
#[global] Instance result_bind : MBind result :=
  λ A B f m, match m with Ok a => f a | Throw e => Throw e end.
#[global] Instance result_fmap : FMap result :=
  λ A B f m, match m with Ok a => Ok (f a) | Throw e => Throw e end.

(** The error classes of the format description, and the class an
    exception of the reader falls in.  The source has no error classes of
    its own: it throws plain [Error] objects told apart by their message,
    and lets the exceptions of [Buffer] and [JSON.parse] through.  No
    exception of the reader stands for an offset out of range, none of the
    classes is that of a text too long to be decoded, and decompression
    comes before the part embedded here. *)
Inductive ErrorKind : Type :=
  | MalformedContainer
  | UnsupportedVersion
  | TruncatedFrame
  | OffsetOutOfRange
  | InvalidPayload
  | DecompressionFailed.

Definition error_kind (e : JsError) : option ErrorKind :=
  match e with
  | Error (BufferTooSmallForHeader _) => Some MalformedContainer
  | Error BadMagicBytes => Some MalformedContainer
  | Error (UnsupportedMrrVersion _) => Some UnsupportedVersion
  | Error (BufferTooSmallForFooter _) => Some MalformedContainer
  | Error BadFooterMagicBytes => Some MalformedContainer
  | RangeError => Some TruncatedFrame
  | SyntaxError => Some InvalidPayload
  | TypeError => None
  | ErrStringTooLong => None
  end.

(** ** Numbers *)

(** The double nearest to a non-negative integer (ties to even): integers
    below 2^53 are doubles; above, the 53 leading bits are kept. *)
Definition round_double (n : Z) : Z :=
  if n <? 2 ^ 53 then n
  else
    let e := Z.log2 n - 52 in
    let q := n / 2 ^ e in
    let r := n mod 2 ^ e in
    let half := 2 ^ (e - 1) in
    if r <? half then q * 2 ^ e
    else if half <? r then (q + 1) * 2 ^ e
    else if Z.even q then q * 2 ^ e
    else (q + 1) * 2 ^ e.

(** [Number(x)] for a non-negative BigInt [x]. *)
Definition Number_of_BigInt (n : Z) : Z := round_double n.

(** [a - b] on two Numbers that hold integers: the exact difference,
    rounded to a double. *)
Definition Number_sub (a b : Z) : Z :=
  Z.sgn (a - b) * round_double (Z.abs (a - b)).

(** ** Buffers *)

Definition Buffer : Type := list byte.

Definition byte_val (b : byte) : Z := Z.of_N (Byte.to_N b).

#[global] Instance byte_eq_dec : EqDecision byte := Byte.byte_eq_dec.

Module Buf.

(** [buf.length] *)
Definition length (buf : Buffer) : Z := Z.of_nat (List.length buf).

(** The [n] bytes from index [i] on; fewer when the buffer ends first. *)
Definition window (buf : Buffer) (i : Z) (n : Z) : Buffer :=
  take (Z.to_nat n) (drop (Z.to_nat i) buf).

(** Value of a byte string read least significant byte first. *)
Fixpoint le_value (bs : list byte) : Z :=
  match bs with
  | [] => 0
  | b :: bs' => byte_val b + 256 * le_value bs'
  end.

(** [buf.readUInt8], [readUInt16LE], [readUInt32LE], [readBigUInt64LE]:
    a [size]-byte little-endian read, which throws a RangeError unless
    [0 <= offset <= buf.length - size]. *)
Definition readUIntLE (size : Z) (buf : Buffer) (offset : Z) : result Z :=
  if (0 <=? offset) && (offset + size <=? length buf)
  then Ok (le_value (window buf offset size))
  else Throw RangeError.

Definition readUInt8 := readUIntLE 1.
Definition readUInt16LE := readUIntLE 2.
Definition readUInt32LE := readUIntLE 4.
Definition readBigUInt64LE := readUIntLE 8.

(** An index argument of [subarray], made relative to the buffer: a
    negative index counts from the end, and the result is clamped to
    [0 .. buf.length]. *)
Definition relative (len i : Z) : Z :=
  if i <? 0 then Z.max (len + i) 0 else Z.min i len.

(** [buf.subarray(start, end)]; [end] is [None] when the argument is
    left out.  It never throws: both ends are clamped to the buffer. *)
Definition subarray (buf : Buffer) (start : Z) (end_ : option Z) : Buffer :=
  let len := length buf in
  let from := relative len start in
  let to := match end_ with Some e => relative len e | None => len end in
  window buf from (Z.max (to - from) 0).

(** [a.equals(b)] *)
Definition equals (a b : Buffer) : bool := bool_decide (a = b).

(** [buffer.constants.MAX_STRING_LENGTH], the longest string the engine
    makes: 2^29 - 24 on the 64-bit builds of Node.js. *)
Definition MAX_STRING_LENGTH : Z := 0x1fffffe8.

(** [buf.toString('utf8')].  The text is kept as the bytes it is decoded
    from.  A buffer of more than [MAX_STRING_LENGTH] bytes is refused
    before it is decoded, with the [Error] of code 'ERR_STRING_TOO_LONG';
    a shorter one always decodes, a byte sequence that is not UTF-8 into
    U+FFFD. *)
Definition toString (buf : Buffer) : result Buffer :=
  if MAX_STRING_LENGTH <? length buf then Throw ErrStringTooLong
  else Ok buf.

End Buf.

(** ** Constants of [mrr-reader.js] *)

Definition MRR_MAGIC : Buffer := [x4d; x52; x52; x31]%byte.        (* 'MRR1' *)
Definition MRR_FOOTER_MAGIC : Buffer := [x4d; x52; x52; x46]%byte. (* 'MRRF' *)
Definition MRR_VERSION : Z := 1.
Definition HEADER_SIZE : Z := 256.
Definition FOOTER_SIZE : Z := 32.
Definition INDEX_ENTRY_SIZE : Z := 16.
Definition FRAME_FLAG_HAS_STATE : Z := 1.

Definition readU16 (buf : Buffer) (offset : Z) : result Z :=
  Buf.readUInt16LE buf offset.

Definition readU32 (buf : Buffer) (offset : Z) : result Z :=
  Buf.readUInt32LE buf offset.

Definition readU64 (buf : Buffer) (offset : Z) : result Z :=
  Number_of_BigInt <$> Buf.readBigUInt64LE buf offset.

(** ** Header *)

Module MrrHeader.

Record t : Type := mk {
  version : Z;
  flags : Z;
  radarBrand : Z;
  spokesPerRev : Z;
  maxSpokeLen : Z;
  pixelValues : Z;
  startTimeMs : Z;
  capabilitiesOffset : Z;
  capabilitiesLen : Z;
  initialStateOffset : Z;
  initialStateLen : Z;
  framesOffset : Z
}.

Definition fromBuffer (buf : Buffer) : result t :=
  if Buf.length buf <? HEADER_SIZE
  then Throw (Error (BufferTooSmallForHeader (Buf.length buf)))
  else if negb (Buf.equals (Buf.subarray buf 0 (Some 4)) MRR_MAGIC)
  then Throw (Error BadMagicBytes)
  else
    version ← readU16 buf 4;
    if MRR_VERSION <? version
    then Throw (Error (UnsupportedMrrVersion version))
    else
      flags ← readU16 buf 6;
      radarBrand ← readU32 buf 8;
      spokesPerRev ← readU32 buf 12;
      maxSpokeLen ← readU32 buf 16;
      pixelValues ← readU32 buf 20;
      startTimeMs ← readU64 buf 24;
      capabilitiesOffset ← readU64 buf 32;
      capabilitiesLen ← readU32 buf 40;
      initialStateOffset ← readU64 buf 44;
      initialStateLen ← readU32 buf 52;
      framesOffset ← readU64 buf 56;
      mret (mk version flags radarBrand spokesPerRev maxSpokeLen
               pixelValues startTimeMs capabilitiesOffset capabilitiesLen
               initialStateOffset initialStateLen framesOffset).

End MrrHeader.

(** ** Footer *)

Module MrrFooter.

Record t : Type := mk {
  indexOffset : Z;
  indexCount : Z;
  frameCount : Z;
  durationMs : Z
}.

Definition fromBuffer (buf : Buffer) : result t :=
  if Buf.length buf <? FOOTER_SIZE
  then Throw (Error (BufferTooSmallForFooter (Buf.length buf)))
  else if negb (Buf.equals (Buf.subarray buf 0 (Some 4)) MRR_FOOTER_MAGIC)
  then Throw (Error BadFooterMagicBytes)
  else
    indexOffset ← readU64 buf 4;
    indexCount ← readU32 buf 12;
    frameCount ← readU32 buf 16;
    durationMs ← readU64 buf 20;
    mret (mk indexOffset indexCount frameCount durationMs).

End MrrFooter.

(** ** Frame records *)

Module MrrFrame.

Record t : Type := mk {
  timestampMs : Z;
  flags : Z;
  data : Buffer;
  stateDelta : option Buffer   (* [None] is the source's [null] *)
}.

(** The source returns [{ frame, bytesRead }], where [bytesRead] is the
    offset just past the record. *)
Definition fromBuffer (buf : Buffer) (offset : Z) : result (t * Z) :=
  timestampMs ← readU64 buf offset;
  let offset := offset + 8 in
  flags ← Buf.readUInt8 buf offset;
  let offset := offset + 1 in
  dataLen ← readU32 buf offset;
  let offset := offset + 4 in
  let data := Buf.subarray buf offset (Some (offset + dataLen)) in
  let offset := offset + dataLen in
  if negb (Z.land flags FRAME_FLAG_HAS_STATE =? 0)
  then
    stateLen ← readU32 buf offset;
    let offset := offset + 4 in
    let stateDelta := Buf.subarray buf offset (Some (offset + stateLen)) in
    let offset := offset + stateLen in
    mret (mk timestampMs flags data (Some stateDelta), offset)
  else
    mret (mk timestampMs flags data None, offset).

End MrrFrame.

(** ** [JSON.parse] of a text decoded from a buffer

    [JSON.parse(text)], for a text that [buf.toString('utf8')] has
    returned ([Buf.toString]: the text is its bytes), throws a SyntaxError
    exactly when the text is not a JSON text.  The JSON grammar can be
    checked on the bytes: outside a string only ASCII characters are
    allowed, and inside a string every byte from 0x80 on belongs to a
    character above U+007F (or is replaced by U+FFFD), which a JSON string
    admits.  The recogniser below reads the bytes once, left to right,
    with the stack of the containers that are open.  The parser of the
    engine keeps the open containers on a stack of its own, not on the
    call stack, so that nesting has no limit but memory; running out of
    memory ends the process and is no exception. *)

Module JSON.

Inductive container : Type := InObject | InArray.

Inductive string_state : Type :=
  | Chars                 (* between two characters *)
  | Escape                (* after a backslash *)
  | Hex (remaining : nat) (* in \uXXXX, [S remaining] digits to come *).

Inductive number_state : Type :=
  | Minus | Zero | Int | Dot | Frac | Exp | ExpSign | ExpDigits.

Inductive mode : Type :=
  | Value              (* a value has to start *)
  | ValueOrClose       (* after '[' *)
  | KeyOrClose         (* after '{' *)
  | Key                (* after ',' in an object *)
  | Colon              (* after a key *)
  | After              (* after a complete value *)
  | InString (key : bool) (s : string_state)
  | InNumber (s : number_state)
  | InLiteral (rest : list Z)
  | Reject.

Definition state : Type := mode * list container.

Definition is_ws (c : Z) : bool :=
  (c =? 32) || (c =? 9) || (c =? 10) || (c =? 13).
Definition is_digit (c : Z) : bool := (48 <=? c) && (c <=? 57).
Definition is_digit19 (c : Z) : bool := (49 <=? c) && (c <=? 57).
Definition is_hex (c : Z) : bool :=
  is_digit c || ((65 <=? c) && (c <=? 70)) || ((97 <=? c) && (c <=? 102)).
Definition is_e (c : Z) : bool := (c =? 101) || (c =? 69).
Definition is_escape (c : Z) : bool :=
  (c =? 34) || (c =? 92) || (c =? 47) || (c =? 98) || (c =? 102)
  || (c =? 110) || (c =? 114) || (c =? 116).

Definition start_value (stack : list container) (c : Z) : state :=
  if c =? 123 then (KeyOrClose, InObject :: stack)          (* { *)
  else if c =? 91 then (ValueOrClose, InArray :: stack)     (* [ *)
  else if c =? 34 then (InString false Chars, stack)        (* double quote *)
  else if c =? 45 then (InNumber Minus, stack)              (* - *)
  else if c =? 48 then (InNumber Zero, stack)
  else if is_digit19 c then (InNumber Int, stack)
  else if c =? 116 then (InLiteral [114; 117; 101], stack)      (* t rue *)
  else if c =? 102 then (InLiteral [97; 108; 115; 101], stack)  (* f alse *)
  else if c =? 110 then (InLiteral [117; 108; 108], stack)      (* n ull *)
  else (Reject, stack).

Definition after_value (stack : list container) (c : Z) : state :=
  if is_ws c then (After, stack)
  else
    match stack with
    | InObject :: stack' =>
        if c =? 44 then (Key, stack)                        (* , *)
        else if c =? 125 then (After, stack')               (* } *)
        else (Reject, stack)
    | InArray :: stack' =>
        if c =? 44 then (Value, stack)
        else if c =? 93 then (After, stack')                (* ] *)
        else (Reject, stack)
    | [] => (Reject, stack)
    end.

Definition in_string (key : bool) (s : string_state)
    (stack : list container) (c : Z) : state :=
  match s with
  | Chars =>
      if c =? 34 then (if key then Colon else After, stack)
      else if c =? 92 then (InString key Escape, stack)
      else if c <? 32 then (Reject, stack)
      else (InString key Chars, stack)
  | Escape =>
      if is_escape c then (InString key Chars, stack)
      else if c =? 117 then (InString key (Hex 3), stack)   (* u *)
      else (Reject, stack)
  | Hex n =>
      if is_hex c
      then (InString key (match n with O => Chars | S n' => Hex n' end), stack)
      else (Reject, stack)
  end.

Definition in_number (s : number_state)
    (stack : list container) (c : Z) : state :=
  match s with
  | Minus =>
      if c =? 48 then (InNumber Zero, stack)
      else if is_digit19 c then (InNumber Int, stack)
      else (Reject, stack)
  | Zero =>
      if c =? 46 then (InNumber Dot, stack)
      else if is_e c then (InNumber Exp, stack)
      else after_value stack c
  | Int =>
      if is_digit c then (InNumber Int, stack)
      else if c =? 46 then (InNumber Dot, stack)
      else if is_e c then (InNumber Exp, stack)
      else after_value stack c
  | Dot =>
      if is_digit c then (InNumber Frac, stack) else (Reject, stack)
  | Frac =>
      if is_digit c then (InNumber Frac, stack)
      else if is_e c then (InNumber Exp, stack)
      else after_value stack c
  | Exp =>
      if (c =? 43) || (c =? 45) then (InNumber ExpSign, stack)
      else if is_digit c then (InNumber ExpDigits, stack)
      else (Reject, stack)
  | ExpSign =>
      if is_digit c then (InNumber ExpDigits, stack) else (Reject, stack)
  | ExpDigits =>
      if is_digit c then (InNumber ExpDigits, stack)
      else after_value stack c
  end.

Definition step (st : state) (c : Z) : state :=
  let '(m, stack) := st in
  match m with
  | Value => if is_ws c then st else start_value stack c
  | ValueOrClose =>
      if is_ws c then st
      else if c =? 93 then (After, tail stack)
      else start_value stack c
  | KeyOrClose =>
      if is_ws c then st
      else if c =? 125 then (After, tail stack)
      else if c =? 34 then (InString true Chars, stack)
      else (Reject, stack)
  | Key =>
      if is_ws c then st
      else if c =? 34 then (InString true Chars, stack)
      else (Reject, stack)
  | Colon =>
      if is_ws c then st
      else if c =? 58 then (Value, stack)
      else (Reject, stack)
  | After => after_value stack c
  | InString key s => in_string key s stack c
  | InNumber s => in_number s stack c
  | InLiteral [] => (Reject, stack)
  | InLiteral (x :: rest) =>
      if c =? x
      then (match rest with [] => After | _ => InLiteral rest end, stack)
      else (Reject, stack)
  | Reject => st
  end.

Definition accepting (st : state) : bool :=
  match st with
  | (After, []) => true
  | (InNumber (Zero | Int | Frac | ExpDigits), []) => true
  | _ => false
  end.

Definition valid (text : Buffer) : bool :=
  accepting (foldl step (Value, []) (byte_val <$> text)).

(** A parsed document is kept as the text it was parsed from. *)
Definition value : Type := Buffer.

Definition parse (text : Buffer) : result value :=
  if valid text then Ok text else Throw SyntaxError.

End JSON.

(** ** The reader *)

Module MrrReader.

(** A reader after [load]; before, the source holds [null] in every
    field. *)
Record t : Type := mk {
  buffer : Buffer;
  header : MrrHeader.t;
  footer : MrrFooter.t;
  capabilities : JSON.value;
  initialState : JSON.value;
  currentOffset : Z;
  currentFrame : Z
}.

Definition set_cursor (r : t) (offset frame : Z) : t :=
  mk (buffer r) (header r) (footer r) (capabilities r) (initialState r)
     offset frame.

(** [load], from [this.buffer = data] on: [data] holds the bytes of the
    file, as [readFileSync] has returned them, or [gunzipSync] for a [.gz]
    file.  Reading the file and decompressing it, and the exceptions of
    these two calls, come before and are not embedded. *)
Definition load (data : Buffer) : result t :=
  let buffer := data in
  header ← MrrHeader.fromBuffer buffer;
  let footerBuf := Buf.subarray buffer (Buf.length buffer - FOOTER_SIZE) None in
  footer ← MrrFooter.fromBuffer footerBuf;
  let capBuf :=
    Buf.subarray buffer
      (MrrHeader.capabilitiesOffset header)
      (Some (MrrHeader.capabilitiesOffset header + MrrHeader.capabilitiesLen header)) in
  capabilities ← Buf.toString capBuf ≫= JSON.parse;
  let stateBuf :=
    Buf.subarray buffer
      (MrrHeader.initialStateOffset header)
      (Some (MrrHeader.initialStateOffset header + MrrHeader.initialStateLen header)) in
  initialState ← Buf.toString stateBuf ≫= JSON.parse;
  mret (mk buffer header footer capabilities initialState
           (MrrHeader.framesOffset header) 0).

Record Metadata : Type := mkMetadata {
  meta_version : Z;
  meta_radarBrand : Z;
  meta_spokesPerRev : Z;
  meta_maxSpokeLen : Z;
  meta_pixelValues : Z;
  meta_startTimeMs : Z;
  meta_frameCount : Z;
  meta_durationMs : Z;
  meta_capabilities : JSON.value;
  meta_initialState : JSON.value
}.

Definition getMetadata (r : t) : Metadata :=
  mkMetadata
    (MrrHeader.version (header r))
    (MrrHeader.radarBrand (header r))
    (MrrHeader.spokesPerRev (header r))
    (MrrHeader.maxSpokeLen (header r))
    (MrrHeader.pixelValues (header r))
    (MrrHeader.startTimeMs (header r))
    (MrrFooter.frameCount (footer r))
    (MrrFooter.durationMs (footer r))
    (capabilities r)
    (initialState r).

(** [readFrame]: [None] is the source's [null]. *)
Definition readFrame (r : t) : result (option MrrFrame.t * t) :=
  if MrrFooter.frameCount (footer r) <=? currentFrame r
  then Ok (None, r)
  else
    '(frame, bytesRead) ← MrrFrame.fromBuffer (buffer r) (currentOffset r);
    mret (Some frame, set_cursor r bytesRead (currentFrame r + 1)).

Definition rewind (r : t) : t :=
  set_cursor r (MrrHeader.framesOffset (header r)) 0.

(** The [while ((frame = this.readFrame()) !== null) yield frame] loop of
    the generator, run to its end as [for (... of reader.frames())] does;
    [None] when [fuel] iterations did not reach the end. *)
Fixpoint frames_loop (fuel : nat) (r : t)
    : option (result (list MrrFrame.t * t)) :=
  match fuel with
  | O => None
  | S fuel' =>
      match readFrame r with
      | Throw e => Some (Throw e)
      | Ok (None, r') => Some (Ok ([], r'))
      | Ok (Some frame, r') =>
          match frames_loop fuel' r' with
          | None => None
          | Some (Throw e) => Some (Throw e)
          | Some (Ok (rest, r'')) => Some (Ok (frame :: rest, r''))
          end
      end
  end.

(** [frames()]: the frames the generator yields and the reader it leaves.
    The loop ends within [frameCount + 1] calls of [readFrame]
    ([frames_loop_enough]), so the last branch is never taken. *)
Definition frames (r : t) : result (list MrrFrame.t * t) :=
  let r0 := rewind r in
  match frames_loop (S (Z.to_nat (MrrFooter.frameCount (footer r0)))) r0 with
  | Some res => res
  | None => Throw RangeError
  end.

(** [getPosition] *)
Record Position : Type := mkPosition {
  position_frame : Z;   (* frame *)
  totalFrames : Z
}.

Definition getPosition (r : t) : Position :=
  mkPosition (currentFrame r) (MrrFooter.frameCount (footer r)).

End MrrReader.

(** The frames a reader has still to read. *)
Definition remaining (r : MrrReader.t) : nat :=
  Z.to_nat (MrrFooter.frameCount (MrrReader.footer r) - MrrReader.currentFrame r).

(** ** The host application, as the player uses it *)

(** The two closures the player hands to [setTimeout]. *)
Inductive Callback : Type :=
  | NextFrame      (* () => this.scheduleNextFrame() *)
  | LoopRestart.   (* () => { this.currentFrame = 0; this.positionMs = 0;
                              this.scheduleNextFrame() } *)

(** A pending timeout: the delay [setTimeout] was called with, in
    milliseconds, and its callback. *)
Record Timeout : Type := mkTimeout {
  delay : Z;
  callback : Callback
}.

Module App.

Record t : Type := mk {
  (** the timeouts of the event loop that are armed and have neither
      fired nor been cleared, by handle *)
  timers : gmap nat Timeout;
  (** handles are never reused: the next one [setTimeout] returns *)
  nextHandle : nat;
  (** [app.binaryStreamManager], when the host has one: the
      [emitData(streamId, data)] calls it has received.  A call that
      throws is caught by the player, which only logs it; the call is
      recorded whichever way it ends. *)
  binaryStreamManager : option (list (string * Buffer));
  (** the last [app.setPluginStatus(...)] *)
  pluginStatus : string
}.

Definition setTimeout (cb : Callback) (ms : Z) (app : t) : nat * t :=
  (nextHandle app,
   mk (<[nextHandle app := mkTimeout ms cb]> (timers app))
      (S (nextHandle app)) (binaryStreamManager app) (pluginStatus app)).

Definition clearTimeout (handle : nat) (app : t) : t :=
  mk (delete handle (timers app))
     (nextHandle app) (binaryStreamManager app) (pluginStatus app).

Definition emitData (streamId : string) (data : Buffer) (app : t) : t :=
  match binaryStreamManager app with
  | Some calls =>
      mk (timers app) (nextHandle app)
         (Some (calls ++ [(streamId, data)])) (pluginStatus app)
  | None => app
  end.

Definition setPluginStatus (status : string) (app : t) : t :=
  mk (timers app) (nextHandle app) (binaryStreamManager app) status.

(** The frames handed to the sink so far. *)
Definition emitted (app : t) : list (string * Buffer) :=
  default [] (binaryStreamManager app).

(** What one more [emitData] call adds to them. *)
Definition delivery (streamId : string) (data : Buffer) (app : t)
    : list (string * Buffer) :=
  match binaryStreamManager app with
  | Some _ => [(streamId, data)]
  | None => []
  end.

End App.

(** How a call ends. *)
Inductive completion : Type :=
  | Returned
  | Thrown (e : JsError).

(** ** The player *)

Definition ends_with (suffix s : string) : bool :=
  (String.length suffix <=? String.length s)%nat
  && String.eqb
       (String.substring (String.length s - String.length suffix)
          (String.length suffix) s)
       suffix.

(** [filename.replace(/\.mrr(\.gz)?$/, '')] *)
Definition baseName (filename : string) : string :=
  if ends_with ".mrr.gz" filename
  then String.substring 0 (String.length filename - 7) filename
  else if ends_with ".mrr" filename
  then String.substring 0 (String.length filename - 4) filename
  else filename.

Module MrrPlayer.

(** The fields of the class, but for the four that only feed the radar
    provider ([spokesPerRev], [maxSpokeLen], [pixelValues], [range]).
    [filename] is [path.basename(filePath)]; [reader] is [None] until
    [load] has run. *)
Record t : Type := mk {
  filename : string;
  reader : option MrrReader.t;
  radarId : option string;
  durationMs : Z;
  frameCount : Z;
  playing : bool;
  loop : bool;
  currentFrame : nat;
  positionMs : Z;
  playbackTimer : option nat;
  frames : list MrrFrame.t
}.

(** [new MrrPlayer(app, filePath)] *)
Definition new (filename : string) : t :=
  {| filename := filename;
     reader := None;
     radarId := None;
     durationMs := 0;
     frameCount := 0;
     playing := false;
     loop := true;
     currentFrame := 0;
     positionMs := 0;
     playbackTimer := None;
     frames := [] |}.

Definition set_playing (p : t) (b : bool) : t :=
  mk (filename p) (reader p) (radarId p) (durationMs p) (frameCount p)
     b (loop p) (currentFrame p) (positionMs p) (playbackTimer p) (frames p).

Definition set_loop (p : t) (b : bool) : t :=
  mk (filename p) (reader p) (radarId p) (durationMs p) (frameCount p)
     (playing p) b (currentFrame p) (positionMs p) (playbackTimer p) (frames p).

Definition set_position (p : t) (frame : nat) (ms : Z) : t :=
  mk (filename p) (reader p) (radarId p) (durationMs p) (frameCount p)
     (playing p) (loop p) frame ms (playbackTimer p) (frames p).

Definition set_playbackTimer (p : t) (h : option nat) : t :=
  mk (filename p) (reader p) (radarId p) (durationMs p) (frameCount p)
     (playing p) (loop p) (currentFrame p) (positionMs p) h (frames p).

(** [load], from the bytes of the file; the player after a load that
    returns. *)
Definition load (p : t) (data : Buffer) : result t :=
  r ← MrrReader.load data;
  let meta := MrrReader.getMetadata r in
  '(frames, r) ← MrrReader.frames r;
  mret {| filename := filename p;
          reader := Some r;
          radarId := Some ("playback-" +:+ baseName (filename p));
          durationMs := MrrReader.meta_durationMs meta;
          frameCount := MrrReader.meta_frameCount meta;
          playing := playing p;
          loop := loop p;
          currentFrame := currentFrame p;
          positionMs := positionMs p;
          playbackTimer := playbackTimer p;
          frames := frames |}.

Record Status : Type := mkStatus {
  state : string;
  status_radarId : option string;
  status_filename : string;
  status_positionMs : Z;
  status_durationMs : Z;
  frame : nat;
  status_frameCount : Z;
  loopPlayback : bool
}.

Definition getStatus (p : t) : Status :=
  {| state := if playing p then "playing"
              else if (0 <? currentFrame p)%nat then "paused" else "loaded";
     status_radarId := radarId p;
     status_filename := filename p;
     status_positionMs := positionMs p;
     status_durationMs := durationMs p;
     frame := currentFrame p;
     status_frameCount := frameCount p;
     loopPlayback := loop p |}.

(** `radars/${this.radarId}` *)
Definition streamId (p : t) : string :=
  "radars/" +:+ default "null" (radarId p).

(** [scheduleNextFrame], [depth] calls deep at most; the engine throws a
    RangeError when its call stack is used up. *)
Fixpoint scheduleNextFrame_rec (depth : nat) (p : t) (app : App.t)
    : t * App.t * completion :=
  match depth with
  | O => (p, app, Thrown RangeError)
  | S depth' =>
      if negb (playing p) then (p, app, Returned)
      else if (length (frames p) <=? currentFrame p)%nat
      then
        if loop p
        then scheduleNextFrame_rec depth' (set_position p 0 0) app
        else (set_playing p false,
              App.setPluginStatus ("Finished: " +:+ filename p) app,
              Returned)
      else
        match frames p !! currentFrame p with
        | None => (p, app, Thrown TypeError)
        | Some frame =>
            let app := App.emitData (streamId p) (MrrFrame.data frame) app in
            let p := set_position p (S (currentFrame p))
                       (MrrFrame.timestampMs frame) in
            if (currentFrame p <? length (frames p))%nat
            then
              match frames p !! currentFrame p with
              | None => (p, app, Thrown TypeError)
              | Some nextFrame =>
                  let deltaMs :=
                    Number_sub (MrrFrame.timestampMs nextFrame)
                               (MrrFrame.timestampMs frame) in
                  let '(h, app) :=
                    App.setTimeout NextFrame (Z.max 1 deltaMs) app in
                  (set_playbackTimer p (Some h), app, Returned)
              end
            else if loop p
            then
              let '(h, app) := App.setTimeout LoopRestart 100 app in
              (set_playbackTimer p (Some h), app, Returned)
            else (set_playing p false,
                  App.setPluginStatus ("Finished: " +:+ filename p) app,
                  Returned)
        end
  end.

(** The function calls itself only to restart a finished recording, and
    then delivers a frame at once, so two nested calls are all it ever
    uses; with no frame to deliver and looping on, it calls itself
    without end, whatever the stack holds
    ([scheduleNextFrame_rec_depth]). *)
Definition scheduleNextFrame (p : t) (app : App.t) : t * App.t * completion :=
  scheduleNextFrame_rec 2 p app.

Definition play (p : t) (app : App.t) : t * App.t * completion :=
  if playing p then (p, app, Returned)
  else scheduleNextFrame (set_playing p true) app.

Definition pause (p : t) (app : App.t) : t * App.t :=
  let p := set_playing p false in
  match playbackTimer p with
  | Some h => (set_playbackTimer p None, App.clearTimeout h app)
  | None => (p, app)
  end.

Definition stop (p : t) (app : App.t) : t * App.t :=
  let '(p, app) := pause p app in
  (set_position p 0 0, app).

(** The event loop runs the callback of a timeout that has come due. *)
Definition run (cb : Callback) (p : t) (app : App.t)
    : t * App.t * completion :=
  match cb with
  | NextFrame => scheduleNextFrame p app
  | LoopRestart => scheduleNextFrame (set_position p 0 0) app
  end.

End MrrPlayer.

(** ** A playback session: what can happen to a loaded player *)

Inductive Event : Type :=
  | Play                 (* player.play() *)
  | Pause                (* player.pause() *)
  | Stop                 (* player.stop() *)
  | SetLoop (b : bool)   (* player.loop = b *)
  | Fire (h : nat).      (* the timeout with handle [h] comes due *)

Definition Session : Type := MrrPlayer.t * App.t.

(** One event.  A timeout fires only while it is pending, and is no longer
    pending when its callback runs.  An exception ends the call; what the
    call had changed before stays changed. *)
Definition step (s : Session) (ev : Event) : Session :=
  let '(p, app) := s in
  match ev with
  | Play => (MrrPlayer.play p app).1
  | Pause => MrrPlayer.pause p app
  | Stop => MrrPlayer.stop p app
  | SetLoop b => (MrrPlayer.set_loop p b, app)
  | Fire h =>
      match App.timers app !! h with
      | Some timeout =>
          (MrrPlayer.run (callback timeout) p (App.clearTimeout h app)).1
      | None => s
      end
  end.

Definition run_events (s : Session) (evs : list Event) : Session :=
  foldl step s evs.

(** The sessions a recording can get into: a player is constructed and
    loaded while no timeout of its own is pending, and events follow. *)
Inductive reachable : Session → Prop :=
  | reachable_loaded filename data p app :
      MrrPlayer.load (MrrPlayer.new filename) data = Ok p →
      App.timers app = ∅ →
      reachable (p, app)
  | reachable_step s ev :
      reachable s → reachable (step s ev).

(** At most one timeout is pending, the one the player holds the handle
    of, and none while the player is not playing. *)
Definition one_pending (s : Session) : Prop :=
  ∀ h, is_Some (App.timers s.2 !! h) →
       MrrPlayer.playing s.1 = true ∧ MrrPlayer.playbackTimer s.1 = Some h.

(** The answer of the [GET /playback/status] route. *)
Inductive StatusResponse : Type :=
  | NoPlayer (state : string) (loopPlayback : bool)
  | PlayerStatus (status : MrrPlayer.Status).

Definition status_route (player : option MrrPlayer.t) : StatusResponse :=
  match player with
  | None => NoPlayer "idle" true
  | Some p => PlayerStatus (MrrPlayer.getStatus p)
  end.

(** ** The layout of a frame record

    What the format says of the record that starts at [offset]: an 8-byte
    timestamp, the flags byte, the 4-byte length of the data, the data,
    and, when bit 0 of the flags is set, the 4-byte length of the state
    delta and the state delta. *)

Module FrameRecord.

Definition timestamp (buf : Buffer) (offset : Z) : Z :=
  Buf.le_value (Buf.window buf offset 8).

Definition flags (buf : Buffer) (offset : Z) : Z :=
  Buf.le_value (Buf.window buf (offset + 8) 1).

Definition dataLen (buf : Buffer) (offset : Z) : Z :=
  Buf.le_value (Buf.window buf (offset + 9) 4).

Definition hasState (buf : Buffer) (offset : Z) : bool :=
  Z.testbit (flags buf offset) 0.

Definition stateLen (buf : Buffer) (offset : Z) : Z :=
  Buf.le_value (Buf.window buf (offset + 13 + dataLen buf offset) 4).

Definition size (buf : Buffer) (offset : Z) : Z :=
  13 + dataLen buf offset
  + (if hasState buf offset then 4 + stateLen buf offset else 0).

(** The frame the record holds. *)
Definition frame (buf : Buffer) (offset : Z) : MrrFrame.t :=
  MrrFrame.mk
    (Number_of_BigInt (timestamp buf offset))
    (flags buf offset)
    (Buf.window buf (offset + 13) (dataLen buf offset))
    (if hasState buf offset
     then Some (Buf.window buf (offset + 13 + dataLen buf offset + 4)
                  (stateLen buf offset))
     else None).

(** The whole record lies in the buffer. *)
Definition complete (buf : Buffer) (offset : Z) : Prop :=
  0 <= offset ∧ offset + 13 <= Buf.length buf
  ∧ offset + size buf offset <= Buf.length buf.

(** [n] complete records, back to back from [offset] on. *)
Fixpoint chain (buf : Buffer) (n : nat) (offset : Z) : Prop :=
  match n with
  | O => True
  | S n' => complete buf offset ∧ chain buf n' (offset + size buf offset)
  end.

(** The frames of [n] records back to back from [offset] on. *)
Fixpoint frames (buf : Buffer) (n : nat) (offset : Z) : list MrrFrame.t :=
  match n with
  | O => []
  | S n' => frame buf offset :: frames buf n' (offset + size buf offset)
  end.

End FrameRecord.

(** A file is well formed when [load] accepts it and the frames its footer
    counts lie in it, complete and back to back, from the frame offset of
    its header on. *)
Definition well_formed (data : Buffer) : Prop :=
  ∃ r, MrrReader.load data = Ok r
       ∧ FrameRecord.chain data
           (Z.to_nat (MrrFooter.frameCount (MrrReader.footer r)))
           (MrrHeader.framesOffset (MrrReader.header r)).

(** ** Recordings for the examples *)

Module Sample.

Definition byte_of (v : Z) : byte :=
  default x00%byte (Byte.of_N (Z.to_N (v mod 256))).

Fixpoint le_bytes (n : nat) (v : Z) : Buffer :=
  match n with
  | O => []
  | S n' => byte_of v :: le_bytes n' (v / 256)
  end.

Definition text (s : string) : Buffer := String.list_byte_of_string s.

Definition frame_record (timestampMs flags : Z) (data : Buffer)
    (stateDelta : option Buffer) : Buffer :=
  le_bytes 8 timestampMs ++ le_bytes 1 flags
  ++ le_bytes 4 (Buf.length data) ++ data
  ++ match stateDelta with
     | Some s => le_bytes 4 (Buf.length s) ++ s
     | None => []
     end.

Definition header (magic : Buffer) (version : Z)
    (capabilitiesOffset capabilitiesLen : Z)
    (initialStateOffset initialStateLen framesOffset : Z) : Buffer :=
  magic ++ le_bytes 2 version ++ le_bytes 2 0
  ++ le_bytes 4 1 ++ le_bytes 4 2048 ++ le_bytes 4 512 ++ le_bytes 4 64
  ++ le_bytes 8 1700000000000
  ++ le_bytes 8 capabilitiesOffset ++ le_bytes 4 capabilitiesLen
  ++ le_bytes 8 initialStateOffset ++ le_bytes 4 initialStateLen
  ++ le_bytes 8 framesOffset
  ++ replicate 192 x00%byte.

Definition footer (frameCount durationMs : Z) (padding : Buffer) : Buffer :=
  MRR_FOOTER_MAGIC ++ le_bytes 8 0 ++ le_bytes 4 0
  ++ le_bytes 4 frameCount ++ le_bytes 8 durationMs ++ padding.

Definition zeros4 : Buffer := replicate 4 x00%byte.

(** Four frames at 0, 100, 250 and 250 ms; the second carries a state
    delta. *)
Definition four_frames : Buffer :=
  frame_record 0 0 (text "spoke0") None
  ++ frame_record 100 1 (text "spoke1") (Some (text "{}"))
  ++ frame_record 250 0 (text "spoke2") None
  ++ frame_record 250 0 (text "spoke3") None.

(** header | capabilities | initial state | frames | footer *)
Definition recording : Buffer :=
  header MRR_MAGIC 1 256 2 258 2 260
  ++ text "{}" ++ text "{}" ++ four_frames ++ footer 4 250 zeros4.

(** The same with one byte of the header magic changed. *)
Definition bad_magic : Buffer :=
  header [x4d; x52; x52; x32]%byte 1 256 2 258 2 260
  ++ text "{}" ++ text "{}" ++ four_frames ++ footer 4 250 zeros4.

(** The same with version 2. *)
Definition version_2 : Buffer :=
  header MRR_MAGIC 2 256 2 258 2 260
  ++ text "{}" ++ text "{}" ++ four_frames ++ footer 4 250 zeros4.

(** A file whose header places the capabilities in the last two bytes
    of the file and gives them a length of 100; the last two bytes of
    the footer, which no field uses, hold the text of an empty
    object. *)
Definition overrun_accepted : Buffer :=
  header MRR_MAGIC 1 372 100 258 2 260
  ++ text "{}" ++ text "{}" ++ four_frames
  ++ footer 4 250 (text "  {}").

(** A file whose header places the capabilities past the end of the
    file. *)
Definition overrun_empty : Buffer :=
  header MRR_MAGIC 1 5000 2 258 2 260
  ++ text "{}" ++ text "{}" ++ four_frames ++ footer 4 250 zeros4.

(** A record whose data length (9) asks for more than the two bytes
    that follow. *)
Definition short_data : Buffer :=
  le_bytes 8 1000 ++ le_bytes 1 0 ++ le_bytes 4 9 ++ text "AB".

(** A record whose state length (9) asks for more than the two bytes
    that follow. *)
Definition short_state : Buffer :=
  le_bytes 8 1000 ++ le_bytes 1 1 ++ le_bytes 4 2 ++ text "AB"
  ++ le_bytes 4 9 ++ text "{}".

(** A record with the state flag whose data length (9) asks for more
    than the two bytes that follow. *)
Definition short_data_flagged : Buffer :=
  le_bytes 8 1000 ++ le_bytes 1 1 ++ le_bytes 4 9 ++ text "AB".

(** A file whose footer counts no frame. *)
Definition empty_recording : Buffer :=
  header MRR_MAGIC 1 256 2 258 2 260
  ++ text "{}" ++ text "{}" ++ footer 0 0 zeros4.

(** [recording] cut short by its last byte. *)
Definition cut_short : Buffer := take 373 recording.

(** The player that has loaded [recording], and a host with a stream
    manager and no pending timeout. *)
Definition player : MrrPlayer.t :=
  match MrrPlayer.load (MrrPlayer.new "demo.mrr") recording with
  | Ok p => p
  | Throw _ => MrrPlayer.new "demo.mrr"
  end.

Definition app : App.t := App.mk ∅ 0 (Some []) "Loaded: demo.mrr".

(** The player that has loaded [empty_recording]. *)
Definition empty_player : MrrPlayer.t :=
  match MrrPlayer.load (MrrPlayer.new "empty.mrr") empty_recording with
  | Ok p => p
  | Throw _ => MrrPlayer.new "empty.mrr"
  end.

End Sample.

(** ** The reader in use *)

(** The states of a reader of the file [data]: after [load], and after
    any calls of [readFrame], [rewind] and [frames] that return. *)
Inductive reader_reachable (data : Buffer) : MrrReader.t → Prop :=
  | reader_loaded r :
      MrrReader.load data = Ok r → reader_reachable data r
  | reader_read r o r' :
      reader_reachable data r → MrrReader.readFrame r = Ok (o, r') →
      reader_reachable data r'
  | reader_rewound r :
      reader_reachable data r → reader_reachable data (MrrReader.rewind r)
  | reader_iterated r fs r' :
      reader_reachable data r → MrrReader.frames r = Ok (fs, r') →
      reader_reachable data r'.

(** [k] timeouts coming due one after the other, with the handles from
    [h] on. *)
Definition fires (h : nat) (k : nat) : list Event := Fire <$> seq h k.

(** ** The radar provider and the routes of the plugin *)

Module RadarProvider.

(** [getRadars]: [player && player.radarId ? [player.radarId] : []] *)
Definition getRadars (player : option MrrPlayer.t) : list string :=
  match player with
  | Some p =>
      match MrrPlayer.radarId p with
      | Some id => if String.eqb id "" then [] else [id]
      | None => []
      end
  | None => []
  end.

End RadarProvider.

Module Plugin.

(** The variable [player] of the plugin, [null] being [None], and the
    host. *)
Record t : Type := mk {
  player : option MrrPlayer.t;
  app : App.t
}.

Inductive Response : Type :=
  | OkTrue                         (* res.json({ ok: true }) *)
  | BadRequest (error : string)    (* res.status(400).json({ error }) *)
  | StatusJson (s : StatusResponse).

(** What a handler leaves: the state, and the response it has sent or the
    exception that has ended it. *)
Definition Outcome : Type := t * (Response + JsError).

(** [router.post('/playback/play', ...)] *)
Definition post_play (s : t) : Outcome :=
  match player s with
  | None => (s, inl (BadRequest "No recording loaded"))
  | Some p =>
      let '(p, app, c) := MrrPlayer.play p (app s) in
      match c with
      | Thrown e => (mk (Some p) app, inr e)
      | Returned =>
          (mk (Some p)
              (App.setPluginStatus ("Playing: " +:+ MrrPlayer.filename p) app),
           inl OkTrue)
      end
  end.

(** [router.post('/playback/pause', ...)] *)
Definition post_pause (s : t) : Outcome :=
  match player s with
  | None => (s, inl (BadRequest "No recording loaded"))
  | Some p =>
      let '(p, app) := MrrPlayer.pause p (app s) in
      (mk (Some p)
          (App.setPluginStatus ("Paused: " +:+ MrrPlayer.filename p) app),
       inl OkTrue)
  end.

(** [router.post('/playback/stop', ...)] *)
Definition post_stop (s : t) : Outcome :=
  match player s with
  | None => (s, inl (BadRequest "No recording loaded"))
  | Some p =>
      let '(p, app) := MrrPlayer.stop p (app s) in
      (mk None (App.setPluginStatus "Ready - No recording loaded" app),
       inl OkTrue)
  end.

(** [router.get('/playback/status', ...)] *)
Definition get_status (s : t) : Outcome :=
  (s, inl (StatusJson (status_route (player s)))).

(** [router.put('/playback/settings', ...)]; [loopPlayback] is [Some b]
    when the body of the request has a boolean [loopPlayback], and [None]
    otherwise. *)
Definition put_settings (loopPlayback : option bool) (s : t) : Outcome :=
  match player s with
  | None => (s, inl (BadRequest "No recording loaded"))
  | Some p =>
      match loopPlayback with
      | Some b => (mk (Some (MrrPlayer.set_loop p b)) (app s), inl OkTrue)
      | None => (s, inl OkTrue)
      end
  end.

(** [plugin.stop], but for the calls of the radar API of the host. *)
Definition stop (s : t) : t :=
  match player s with
  | Some p =>
      let '(p, app) := MrrPlayer.stop p (app s) in
      mk None (App.setPluginStatus "Stopped" app)
  | None => mk None (App.setPluginStatus "Stopped" (app s))
  end.

End Plugin.


(** * Properties *)

(** Closed comparisons and equations, by evaluation. *)
Ltac decide_Z := vm_compute; first [reflexivity | discriminate | lia].

(** ** Buffer reads *)

Lemma byte_val_range b : 0 <= byte_val b < 256.
Proof.
  unfold byte_val. pose proof (Byte.to_N_bounded b). lia.
Qed.

Lemma le_value_nonneg bs : 0 <= Buf.le_value bs.
Proof.
  induction bs as [|b bs IH]; simpl; [lia|].
  pose proof (byte_val_range b). lia.
Qed.

Lemma window_length buf i n :
  0 <= i -> 0 <= n -> i + n <= Buf.length buf ->
  Buf.length (Buf.window buf i n) = n.
Proof.
  unfold Buf.length, Buf.window. intros Hi Hn Hlen.
  rewrite length_take, length_drop. lia.
Qed.

Lemma window_all buf i n :
  0 <= i -> Buf.length buf <= i + n ->
  Buf.window buf i n = drop (Z.to_nat i) buf.
Proof.
  unfold Buf.length, Buf.window. intros Hi Hlen.
  apply take_ge. rewrite length_drop. lia.
Qed.

Lemma readUIntLE_ok size buf offset :
  0 <= offset -> offset + size <= Buf.length buf ->
  Buf.readUIntLE size buf offset = Ok (Buf.le_value (Buf.window buf offset size)).
Proof.
  intros Ho Hs. unfold Buf.readUIntLE.
  destruct (Z.leb_spec 0 offset); [|lia].
  destruct (Z.leb_spec (offset + size) (Buf.length buf)); [|lia].
  reflexivity.
Qed.

Lemma readUIntLE_throw size buf offset :
  offset < 0 \/ Buf.length buf < offset + size ->
  Buf.readUIntLE size buf offset = Throw RangeError.
Proof.
  intros H. unfold Buf.readUIntLE.
  destruct (Z.leb_spec 0 offset); [|reflexivity].
  destruct (Z.leb_spec (offset + size) (Buf.length buf)); [lia|].
  reflexivity.
Qed.

(** [subarray] on a range that lies in the buffer, and on one that runs
    past its end. *)
Lemma subarray_inside buf start n :
  0 <= start -> 0 <= n -> start + n <= Buf.length buf ->
  Buf.subarray buf start (Some (start + n)) = Buf.window buf start n.
Proof.
  intros Hs Hn Hlen. unfold Buf.subarray, Buf.relative.
  destruct (Z.ltb_spec start 0); [lia|].
  destruct (Z.ltb_spec (start + n) 0); [lia|].
  f_equal; lia.
Qed.

Lemma subarray_clamped buf start n :
  0 <= start -> 0 <= n -> Buf.length buf <= start + n ->
  Buf.subarray buf start (Some (start + n)) = drop (Z.to_nat start) buf.
Proof.
  intros Hs Hn Hlen. unfold Buf.subarray, Buf.relative.
  destruct (Z.ltb_spec start 0); [lia|].
  destruct (Z.ltb_spec (start + n) 0); [lia|].
  destruct (Z.le_gt_cases start (Buf.length buf)).
  - rewrite window_all by lia. f_equal. lia.
  - unfold Buf.window. rewrite !drop_ge by (unfold Buf.length in *; lia).
    by rewrite take_nil.
Qed.

Lemma subarray_tail buf start :
  0 <= start <= Buf.length buf ->
  Buf.subarray buf start None = drop (Z.to_nat start) buf.
Proof.
  intros Hs. unfold Buf.subarray, Buf.relative.
  destruct (Z.ltb_spec start 0); [lia|].
  rewrite window_all by lia. f_equal. lia.
Qed.

Lemma equals_spec a b : Buf.equals a b = true <-> a = b.
Proof. unfold Buf.equals. apply bool_decide_eq_true. Qed.

Lemma Number_of_BigInt_exact n : n < 2 ^ 53 -> Number_of_BigInt n = n.
Proof.
  intros H. unfold Number_of_BigInt, round_double.
  destruct (Z.ltb_spec n (2 ^ 53)); [reflexivity | lia].
Qed.

Lemma round_double_nonneg n : 0 <= n -> 0 <= round_double n.
Proof.
  intros Hn. unfold round_double.
  destruct (n <? 2 ^ 53); [done|].
  assert (0 <= 2 ^ (Z.log2 n - 52)) by (apply Z.pow_nonneg; lia).
  assert (0 <= n / 2 ^ (Z.log2 n - 52)) by (by apply Z_div_nonneg_nonneg).
  repeat case_match; nia.
Qed.

Lemma has_state_flag flags :
  negb (Z.land flags FRAME_FLAG_HAS_STATE =? 0) = Z.testbit flags 0.
Proof.
  unfold FRAME_FLAG_HAS_STATE. change 1 with (Z.ones 1).
  rewrite Z.land_ones by lia. change (2 ^ 1) with 2.
  rewrite <- Z.bit0_mod. by destruct (Z.testbit flags 0).
Qed.

Lemma bind_Ok {A B} (a : A) (f : A -> result B) : Ok a ≫= f = f a.
Proof. reflexivity. Qed.

Lemma bind_Throw {A B} e (f : A -> result B) : Throw e ≫= f = Throw e.
Proof. reflexivity. Qed.

Lemma readU8_ok buf offset :
  0 <= offset -> offset + 1 <= Buf.length buf ->
  Buf.readUInt8 buf offset = Ok (Buf.le_value (Buf.window buf offset 1)).
Proof. apply readUIntLE_ok. Qed.

Lemma readU16_ok buf offset :
  0 <= offset -> offset + 2 <= Buf.length buf ->
  readU16 buf offset = Ok (Buf.le_value (Buf.window buf offset 2)).
Proof. apply readUIntLE_ok. Qed.

Lemma readU32_ok buf offset :
  0 <= offset -> offset + 4 <= Buf.length buf ->
  readU32 buf offset = Ok (Buf.le_value (Buf.window buf offset 4)).
Proof. apply readUIntLE_ok. Qed.

Lemma readU64_ok buf offset :
  0 <= offset -> offset + 8 <= Buf.length buf ->
  readU64 buf offset
  = Ok (Number_of_BigInt (Buf.le_value (Buf.window buf offset 8))).
Proof.
  intros. unfold readU64, Buf.readBigUInt64LE. by rewrite readUIntLE_ok.
Qed.

Lemma readU32_throw buf offset :
  offset < 0 \/ Buf.length buf < offset + 4 ->
  readU32 buf offset = Throw RangeError.
Proof. apply readUIntLE_throw. Qed.

(** ** The header *)

Lemma first_four_bytes buf :
  4 <= Buf.length buf -> Buf.subarray buf 0 (Some 4) = take 4 buf.
Proof.
  intros H. by apply (subarray_inside buf 0 4).
Qed.

Lemma header_too_small buf :
  Buf.length buf < HEADER_SIZE ->
  MrrHeader.fromBuffer buf
  = Throw (Error (BufferTooSmallForHeader (Buf.length buf))).
Proof.
  intros H. unfold MrrHeader.fromBuffer.
  by destruct (Z.ltb_spec (Buf.length buf) HEADER_SIZE); [|lia].
Qed.

Lemma header_bad_magic buf :
  HEADER_SIZE <= Buf.length buf -> take 4 buf ≠ MRR_MAGIC ->
  MrrHeader.fromBuffer buf = Throw (Error BadMagicBytes).
Proof.
  intros Hlen Hmagic. unfold MrrHeader.fromBuffer, HEADER_SIZE in *.
  destruct (Z.ltb_spec (Buf.length buf) 256); [lia|].
  rewrite first_four_bytes by lia.
  destruct (Buf.equals (take 4 buf) MRR_MAGIC) eqn:E; [|reflexivity].
  by apply equals_spec in E.
Qed.

Lemma header_bad_version buf :
  HEADER_SIZE <= Buf.length buf -> take 4 buf = MRR_MAGIC ->
  MRR_VERSION < Buf.le_value (Buf.window buf 4 2) ->
  MrrHeader.fromBuffer buf
  = Throw (Error (UnsupportedMrrVersion (Buf.le_value (Buf.window buf 4 2)))).
Proof.
  intros Hlen Hmagic Hver. unfold MrrHeader.fromBuffer, HEADER_SIZE in *.
  destruct (Z.ltb_spec (Buf.length buf) 256); [lia|].
  rewrite first_four_bytes, Hmagic by lia.
  change (negb (Buf.equals MRR_MAGIC MRR_MAGIC)) with false. cbv iota.
  rewrite (readU16_ok buf 4), bind_Ok by lia.
  by destruct (Z.ltb_spec MRR_VERSION (Buf.le_value (Buf.window buf 4 2))); [|lia].
Qed.

Lemma load_header_throws data e :
  MrrHeader.fromBuffer data = Throw e -> MrrReader.load data = Throw e.
Proof. intros H. unfold MrrReader.load. by rewrite H. Qed.

(** C9.  A buffer whose first four bytes are not the header magic is
    never decoded: [MrrHeader.fromBuffer], and [load] with it, throws an
    error of the malformed-container class (the size check comes first,
    so a buffer shorter than a header is refused as too small, a longer
    one for its magic bytes).  A buffer that holds a header with the right
    magic and a version above [MRR_VERSION] is refused with the
    unsupported-version error; a buffer too short to hold a header is
    refused as too small before its version is looked at. *)
Theorem header_magic_and_version_checked (buf : Buffer) :
  (take 4 buf ≠ MRR_MAGIC ->
   ∃ e, MrrHeader.fromBuffer buf = Throw e
        ∧ MrrReader.load buf = Throw e
        ∧ error_kind e = Some MalformedContainer
        ∧ e = if Buf.length buf <? HEADER_SIZE
              then Error (BufferTooSmallForHeader (Buf.length buf))
              else Error BadMagicBytes)
  ∧ (HEADER_SIZE <= Buf.length buf -> take 4 buf = MRR_MAGIC ->
     MRR_VERSION < Buf.le_value (Buf.window buf 4 2) ->
     ∃ e, MrrHeader.fromBuffer buf = Throw e
          ∧ MrrReader.load buf = Throw e
          ∧ error_kind e = Some UnsupportedVersion
          ∧ e = Error (UnsupportedMrrVersion (Buf.le_value (Buf.window buf 4 2))))
  ∧ (Buf.length buf < HEADER_SIZE ->
     MrrHeader.fromBuffer buf
     = Throw (Error (BufferTooSmallForHeader (Buf.length buf)))).
Proof.
  split; [|split; [|apply header_too_small]].
  - intros Hmagic.
    destruct (Z.ltb_spec (Buf.length buf) HEADER_SIZE) as [Hlen|Hlen].
    + eexists. split; [by apply header_too_small|].
      split; [by apply load_header_throws, header_too_small|done].
    + eexists. split; [by apply header_bad_magic|].
      split; [by apply load_header_throws, header_bad_magic|done].
  - intros Hlen Hmagic Hver.
    eexists. split; [by apply header_bad_version|].
    split; [by apply load_header_throws, header_bad_version|done].
Qed.

Lemma header_magic_and_version_checked_witness :
  (∃ e, MrrHeader.fromBuffer Sample.bad_magic = Throw e
        ∧ MrrReader.load Sample.bad_magic = Throw e
        ∧ error_kind e = Some MalformedContainer
        ∧ e = Error BadMagicBytes)
  ∧ (∃ e, MrrHeader.fromBuffer Sample.version_2 = Throw e
          ∧ MrrReader.load Sample.version_2 = Throw e
          ∧ error_kind e = Some UnsupportedVersion
          ∧ e = Error (UnsupportedMrrVersion 2)).
Proof.
  split.
  - apply (header_magic_and_version_checked Sample.bad_magic).
    vm_compute. discriminate.
  - apply (header_magic_and_version_checked Sample.version_2).
    + vm_compute. discriminate.
    + reflexivity.
    + reflexivity.
Defined.

(** ** Frame records *)

(** Once the thirteen bytes of the fixed fields lie in the buffer, the
    decoder reads them where the layout puts them. *)
Lemma fromBuffer_fixed_fields buf offset :
  0 <= offset -> offset + 13 <= Buf.length buf ->
  MrrFrame.fromBuffer buf offset
  = let timestampMs := Number_of_BigInt (FrameRecord.timestamp buf offset) in
    let flags := FrameRecord.flags buf offset in
    let dataLen := FrameRecord.dataLen buf offset in
    let data := Buf.subarray buf (offset + 13) (Some (offset + 13 + dataLen)) in
    if FrameRecord.hasState buf offset
    then
      stateLen ← readU32 buf (offset + 13 + dataLen);
      Ok (MrrFrame.mk timestampMs flags data
            (Some (Buf.subarray buf (offset + 13 + dataLen + 4)
                     (Some (offset + 13 + dataLen + 4 + stateLen)))),
          offset + 13 + dataLen + 4 + stateLen)
    else Ok (MrrFrame.mk timestampMs flags data None, offset + 13 + dataLen).
Proof.
  intros Ho Hlen. unfold MrrFrame.fromBuffer. cbv zeta.
  rewrite readU64_ok, bind_Ok by lia.
  rewrite readU8_ok, bind_Ok by lia.
  rewrite readU32_ok, bind_Ok by lia.
  rewrite has_state_flag.
  unfold FrameRecord.hasState, FrameRecord.flags, FrameRecord.dataLen,
    FrameRecord.timestamp.
  replace (offset + 8 + 1) with (offset + 9) by lia.
  replace (offset + 9 + 4) with (offset + 13) by lia.
  reflexivity.
Qed.

Lemma dataLen_nonneg buf offset : 0 <= FrameRecord.dataLen buf offset.
Proof. apply le_value_nonneg. Qed.

Lemma stateLen_nonneg buf offset : 0 <= FrameRecord.stateLen buf offset.
Proof. apply le_value_nonneg. Qed.

(** A complete record is decoded into the frame it holds, and the cursor
    is moved past it. *)
Lemma fromBuffer_complete buf offset :
  FrameRecord.complete buf offset ->
  MrrFrame.fromBuffer buf offset
  = Ok (FrameRecord.frame buf offset, offset + FrameRecord.size buf offset).
Proof.
  intros (Ho & Hfixed & Hsize).
  rewrite fromBuffer_fixed_fields by done. cbv zeta.
  pose proof (dataLen_nonneg buf offset) as Hd.
  pose proof (stateLen_nonneg buf offset) as Hs.
  unfold FrameRecord.frame, FrameRecord.size in *.
  destruct (FrameRecord.hasState buf offset).
  - rewrite readU32_ok, bind_Ok by lia.
    fold (FrameRecord.stateLen buf offset).
    rewrite !subarray_inside by lia. do 2 f_equal. lia.
  - rewrite subarray_inside by lia. do 2 f_equal. lia.
Qed.

(** C3.  When the whole record lies in the buffer, [MrrFrame.fromBuffer]
    reads, in this order from [offset] on, the 8-byte little-endian
    timestamp (as a Number: the integer itself below 2^53), the flags
    byte, the 4-byte little-endian data length and exactly that many data
    bytes; it reads the 4-byte state length and exactly that many bytes of
    state delta if and only if bit 0 of the flags is set, and leaves
    [stateDelta] null otherwise; the cursor it returns is [offset] plus
    the size of all it has read. *)
Theorem frame_record_read (buf : Buffer) (offset : Z) :
  FrameRecord.complete buf offset ->
  let ts := Buf.le_value (Buf.window buf offset 8) in
  let flags := Buf.le_value (Buf.window buf (offset + 8) 1) in
  let dataLen := Buf.le_value (Buf.window buf (offset + 9) 4) in
  let stateLen := Buf.le_value (Buf.window buf (offset + 13 + dataLen) 4) in
  ∃ frame cursor,
    MrrFrame.fromBuffer buf offset = Ok (frame, cursor)
    ∧ MrrFrame.timestampMs frame = Number_of_BigInt ts
    ∧ (ts < 2 ^ 53 -> MrrFrame.timestampMs frame = ts)
    ∧ MrrFrame.flags frame = flags
    ∧ MrrFrame.data frame = Buf.window buf (offset + 13) dataLen
    ∧ Buf.length (MrrFrame.data frame) = dataLen
    ∧ (is_Some (MrrFrame.stateDelta frame) <-> Z.testbit flags 0 = true)
    ∧ (if Z.testbit flags 0
       then
         MrrFrame.stateDelta frame
         = Some (Buf.window buf (offset + 13 + dataLen + 4) stateLen)
         ∧ Buf.length (Buf.window buf (offset + 13 + dataLen + 4) stateLen)
           = stateLen
         ∧ cursor = offset + (8 + 1 + 4 + dataLen + 4 + stateLen)
       else
         MrrFrame.stateDelta frame = None
         ∧ cursor = offset + (8 + 1 + 4 + dataLen)).
Proof.
  intros Hcomplete. cbv zeta.
  rewrite fromBuffer_complete by done.
  destruct Hcomplete as (Ho & Hfixed & Hsize).
  pose proof (dataLen_nonneg buf offset) as Hd.
  pose proof (stateLen_nonneg buf offset) as Hs.
  unfold FrameRecord.frame, FrameRecord.size, FrameRecord.hasState,
    FrameRecord.flags, FrameRecord.timestamp in *.
  fold (FrameRecord.dataLen buf offset) in *.
  fold (FrameRecord.stateLen buf offset) in *.
  destruct (Z.testbit _ 0) eqn:Hbit;
    (eexists _, _; split; [reflexivity|]; cbn;
     split; [done|]; split; [apply Number_of_BigInt_exact|];
     split; [done|]; split; [done|];
     split; [apply window_length; lia|]).
  - split; [split; eauto|]. split; [done|].
    split; [apply window_length; lia|lia].
  - split; [split; [by intros [? ?]|done]|]. split; [done|lia].
Qed.

Lemma frame_record_read_witness :
  ∃ frame cursor,
    MrrFrame.fromBuffer Sample.recording 279 = Ok (frame, cursor)
    ∧ MrrFrame.timestampMs frame = 100
    ∧ MrrFrame.flags frame = 1
    ∧ MrrFrame.data frame = Sample.text "spoke1"
    ∧ MrrFrame.stateDelta frame = Some (Sample.text "{}")
    ∧ cursor = 279 + (8 + 1 + 4 + 6 + 4 + 2).
Proof.
  destruct (frame_record_read Sample.recording 279)
    as (frame & cursor & Hread & Hts & _ & Hflags & Hdata & _ & _ & Hstate).
  - vm_compute. repeat split; discriminate.
  - exists frame, cursor. vm_compute in Hstate.
    destruct Hstate as (Hstate & _ & Hcursor).
    repeat split; assumption.
Defined.

(** [subarray] clamps: on a range that starts in or after the buffer it
    gives the bytes of the range that the buffer has. *)
Lemma subarray_window buf start n :
  0 <= start -> 0 <= n ->
  Buf.subarray buf start (Some (start + n)) = Buf.window buf start n.
Proof.
  intros Hs Hn.
  destruct (Z.le_gt_cases (start + n) (Buf.length buf)).
  - by apply subarray_inside.
  - rewrite subarray_clamped, window_all by lia. done.
Qed.

Lemma window_short_length buf i n :
  0 <= i -> 0 <= n ->
  Buf.length (Buf.window buf i n) = Z.min n (Z.max 0 (Buf.length buf - i)).
Proof.
  unfold Buf.length, Buf.window. intros Hi Hn.
  rewrite length_take, length_drop. lia.
Qed.

(** C1, as the code has it.  Where a length overruns the buffer, with
    the thirteen bytes of the fixed fields in the buffer:
    - a data length beyond the end, without the state flag, gives a frame
      whose data are the bytes that remain, and a cursor past the end;
    - with the state flag, a state-length field that does not lie in the
      buffer (as after a data length beyond the end) throws the RangeError
      of the [Buffer] read;
    - a state length beyond the end gives a frame whose state delta is
      the bytes that remain, and a cursor past the end. *)
Theorem frame_length_overrun (buf : Buffer) (offset : Z) :
  0 <= offset -> offset + 13 <= Buf.length buf ->
  let ts := Number_of_BigInt (FrameRecord.timestamp buf offset) in
  let flags := FrameRecord.flags buf offset in
  let dataLen := FrameRecord.dataLen buf offset in
  let stateLen := FrameRecord.stateLen buf offset in
  (FrameRecord.hasState buf offset = false ->
   Buf.length buf < offset + 13 + dataLen ->
   MrrFrame.fromBuffer buf offset
   = Ok (MrrFrame.mk ts flags (drop (Z.to_nat (offset + 13)) buf) None,
         offset + 13 + dataLen))
  ∧ (FrameRecord.hasState buf offset = true ->
     Buf.length buf < offset + 13 + dataLen + 4 ->
     MrrFrame.fromBuffer buf offset = Throw RangeError)
  ∧ (FrameRecord.hasState buf offset = true ->
     offset + 13 + dataLen + 4 <= Buf.length buf ->
     Buf.length buf < offset + 13 + dataLen + 4 + stateLen ->
     MrrFrame.fromBuffer buf offset
     = Ok (MrrFrame.mk ts flags (Buf.window buf (offset + 13) dataLen)
             (Some (drop (Z.to_nat (offset + 13 + dataLen + 4)) buf)),
           offset + 13 + dataLen + 4 + stateLen)).
Proof.
  intros Ho Hfixed. cbv zeta.
  rewrite fromBuffer_fixed_fields by done. cbv zeta.
  pose proof (dataLen_nonneg buf offset) as Hd.
  pose proof (stateLen_nonneg buf offset) as Hs.
  split; [|split].
  - intros -> Hover. by rewrite subarray_clamped by lia.
  - intros -> Hover. by rewrite readU32_throw by lia.
  - intros -> Hin Hover. rewrite readU32_ok, bind_Ok by lia.
    fold (FrameRecord.stateLen buf offset).
    by rewrite subarray_inside, subarray_clamped by lia.
Qed.

Lemma frame_length_overrun_witness :
  MrrFrame.fromBuffer Sample.short_data 0
  = Ok (MrrFrame.mk 1000 0 (Sample.text "AB") None, 22)
  ∧ MrrFrame.fromBuffer Sample.short_data_flagged 0 = Throw RangeError
  ∧ MrrFrame.fromBuffer Sample.short_state 0
    = Ok (MrrFrame.mk 1000 1 (Sample.text "AB") (Some (Sample.text "{}")), 28).
Proof.
  split; [|split].
  - destruct (frame_length_overrun Sample.short_data 0) as (H & _ & _);
      [decide_Z .. | apply H; decide_Z].
  - destruct (frame_length_overrun Sample.short_data_flagged 0) as (_ & H & _);
      [decide_Z .. | apply H; decide_Z].
  - destruct (frame_length_overrun Sample.short_state 0) as (_ & _ & H);
      [decide_Z .. | apply H; decide_Z].
Defined.

(** The claim that a length beyond the end of the buffer makes decoding
    fail does not hold: the record of [Sample.short_data] declares nine
    bytes of data where two remain, and is decoded into a frame with those
    two bytes. *)
Lemma truncated_frame_not_rejected :
  FrameRecord.dataLen Sample.short_data 0 = 9
  ∧ Buf.length Sample.short_data - (0 + 13) = 2
  ∧ MrrFrame.fromBuffer Sample.short_data 0
    = Ok (MrrFrame.mk 1000 0 (Sample.text "AB") None, 22)
  ∧ ¬ ∃ e, MrrFrame.fromBuffer Sample.short_data 0 = Throw e.
Proof.
  repeat split; try reflexivity.
  intros [e He]. vm_compute in He. discriminate.
Qed.

(** ** Loading *)

(** No exception of the reader is of the out-of-range class. *)
Lemma no_out_of_range_error e : error_kind e ≠ Some OffsetOutOfRange.
Proof. by destruct e as [[]| | | |]. Qed.

Lemma header_ok_length buf h :
  MrrHeader.fromBuffer buf = Ok h -> HEADER_SIZE <= Buf.length buf.
Proof.
  unfold MrrHeader.fromBuffer.
  destruct (Z.ltb_spec (Buf.length buf) HEADER_SIZE); [discriminate|done].
Qed.

Lemma toString_Ok buf :
  Buf.length buf <= Buf.MAX_STRING_LENGTH -> Buf.toString buf = Ok buf.
Proof.
  intros H. unfold Buf.toString.
  by destruct (Z.ltb_spec Buf.MAX_STRING_LENGTH (Buf.length buf)); [lia|].
Qed.

Lemma toString_Throw buf :
  Buf.MAX_STRING_LENGTH < Buf.length buf ->
  Buf.toString buf = Throw ErrStringTooLong.
Proof.
  intros H. unfold Buf.toString.
  by destruct (Z.ltb_spec Buf.MAX_STRING_LENGTH (Buf.length buf)); [|lia].
Qed.

(** [JSON.parse(buf.toString('utf8'))]: the three ways it ends. *)
Lemma decode_parse_cases buf :
  (Buf.MAX_STRING_LENGTH < Buf.length buf
   ∧ Buf.toString buf ≫= JSON.parse = Throw ErrStringTooLong)
  ∨ (Buf.length buf <= Buf.MAX_STRING_LENGTH ∧ JSON.valid buf = false
     ∧ Buf.toString buf ≫= JSON.parse = Throw SyntaxError)
  ∨ (Buf.length buf <= Buf.MAX_STRING_LENGTH ∧ JSON.valid buf = true
     ∧ Buf.toString buf ≫= JSON.parse = Ok buf).
Proof.
  destruct (Z.lt_ge_cases Buf.MAX_STRING_LENGTH (Buf.length buf)) as [Hlong|Hshort].
  - left. split; [done|]. by rewrite toString_Throw.
  - right. rewrite toString_Ok by lia. cbn. unfold JSON.parse.
    destruct (JSON.valid buf); [right|left]; (split; [lia|done]).
Qed.

Lemma decode_parse_empty : Buf.toString [] ≫= JSON.parse = Throw SyntaxError.
Proof.
  destruct (decode_parse_cases []) as [[Hlong _]|[(_ & _ & H)|(_ & Hvalid & _)]];
    [|done|discriminate Hvalid].
  vm_compute in Hlong. discriminate Hlong.
Qed.

Lemma window_outside buf i n :
  Buf.length buf <= i -> Buf.window buf i n = [].
Proof.
  intros H. unfold Buf.window, Buf.length in *.
  rewrite drop_ge by lia. apply take_nil.
Qed.

(** The fields of a header that was accepted are non-negative. *)
Lemma header_offsets_nonneg buf h :
  MrrHeader.fromBuffer buf = Ok h ->
  0 <= MrrHeader.capabilitiesOffset h ∧ 0 <= MrrHeader.capabilitiesLen h
  ∧ 0 <= MrrHeader.initialStateOffset h ∧ 0 <= MrrHeader.initialStateLen h.
Proof.
  intros H. pose proof (header_ok_length _ _ H) as Hlen.
  unfold MrrHeader.fromBuffer, HEADER_SIZE in *.
  destruct (Z.ltb_spec (Buf.length buf) 256); [lia|].
  destruct (negb _); [discriminate|].
  rewrite (readU16_ok buf 4), bind_Ok in H by lia.
  destruct (MRR_VERSION <? _); [discriminate|].
  rewrite (readU16_ok buf 6), (readU32_ok buf 8), (readU32_ok buf 12),
    (readU32_ok buf 16), (readU32_ok buf 20), (readU64_ok buf 24),
    (readU64_ok buf 32), (readU32_ok buf 40), (readU64_ok buf 44),
    (readU32_ok buf 52), (readU64_ok buf 56) in H by lia.
  injection H as <-. cbn.
  repeat split;
    first [apply le_value_nonneg | apply round_double_nonneg, le_value_nonneg].
Qed.

(** C2, as the code has it.  Once header and footer are accepted, [load]
    checks no offset: [subarray] clamps the capabilities slice and the
    initial-state slice to the buffer, and what remains of each is decoded
    as text and parsed.  So [load] fails with the Error of code
    'ERR_STRING_TOO_LONG' of [toString] when what remains of a slice is
    longer than the longest string, and with the SyntaxError of
    [JSON.parse] when what remains of a slice is not a JSON text, as is
    always the case for a slice that starts at or past the end of the
    buffer, nothing of which remains; it fails with no other error, and
    succeeds when both clamped slices are JSON texts that are not longer
    than the longest string. *)
Theorem load_clamps_slices (data : Buffer) (h : MrrHeader.t) (f : MrrFooter.t) :
  MrrHeader.fromBuffer data = Ok h ->
  MrrFooter.fromBuffer (drop (Z.to_nat (Buf.length data - FOOTER_SIZE)) data) = Ok f ->
  let capBuf :=
    take (Z.to_nat (MrrHeader.capabilitiesLen h))
      (drop (Z.to_nat (MrrHeader.capabilitiesOffset h)) data) in
  let stateBuf :=
    take (Z.to_nat (MrrHeader.initialStateLen h))
      (drop (Z.to_nat (MrrHeader.initialStateOffset h)) data) in
  MrrReader.load data
  = (capabilities ← Buf.toString capBuf ≫= JSON.parse;
     initialState ← Buf.toString stateBuf ≫= JSON.parse;
     Ok (MrrReader.mk data h f capabilities initialState
           (MrrHeader.framesOffset h) 0))
  ∧ Buf.length capBuf
    = Z.min (MrrHeader.capabilitiesLen h)
        (Z.max 0 (Buf.length data - MrrHeader.capabilitiesOffset h))
  ∧ Buf.length stateBuf
    = Z.min (MrrHeader.initialStateLen h)
        (Z.max 0 (Buf.length data - MrrHeader.initialStateOffset h))
  ∧ (Buf.length data <= MrrHeader.capabilitiesOffset h ->
     MrrReader.load data = Throw SyntaxError)
  ∧ (Buf.length data <= MrrHeader.initialStateOffset h ->
     MrrReader.load data
     = Throw (if Buf.MAX_STRING_LENGTH <? Buf.length capBuf
              then ErrStringTooLong else SyntaxError))
  ∧ (Buf.MAX_STRING_LENGTH < Buf.length capBuf ->
     MrrReader.load data = Throw ErrStringTooLong)
  ∧ (∀ e, MrrReader.load data = Throw e ->
       (e = SyntaxError ∧ error_kind e = Some InvalidPayload
        ∧ (Buf.length capBuf <= Buf.MAX_STRING_LENGTH
           ∧ JSON.valid capBuf = false
           ∨ Buf.length stateBuf <= Buf.MAX_STRING_LENGTH
             ∧ JSON.valid stateBuf = false))
       ∨ (e = ErrStringTooLong ∧ error_kind e = None
          ∧ (Buf.MAX_STRING_LENGTH < Buf.length capBuf
             ∨ Buf.MAX_STRING_LENGTH < Buf.length stateBuf)))
  ∧ (Buf.length capBuf <= Buf.MAX_STRING_LENGTH ->
     Buf.length stateBuf <= Buf.MAX_STRING_LENGTH ->
     JSON.valid capBuf = true -> JSON.valid stateBuf = true ->
     MrrReader.load data
     = Ok (MrrReader.mk data h f capBuf stateBuf (MrrHeader.framesOffset h) 0)).
Proof.
  intros Hh Hf. cbv zeta.
  pose proof (header_ok_length _ _ Hh) as Hlen. unfold HEADER_SIZE in Hlen.
  destruct (header_offsets_nonneg _ _ Hh) as (Hco & Hcl & Hso & Hsl).
  fold (Buf.window data (MrrHeader.capabilitiesOffset h) (MrrHeader.capabilitiesLen h)).
  fold (Buf.window data (MrrHeader.initialStateOffset h) (MrrHeader.initialStateLen h)).
  set (capBuf := Buf.window data (MrrHeader.capabilitiesOffset h)
                   (MrrHeader.capabilitiesLen h)).
  set (stateBuf := Buf.window data (MrrHeader.initialStateOffset h)
                     (MrrHeader.initialStateLen h)).
  assert (Hload : MrrReader.load data
    = (capabilities ← Buf.toString capBuf ≫= JSON.parse;
       initialState ← Buf.toString stateBuf ≫= JSON.parse;
       Ok (MrrReader.mk data h f capabilities initialState
             (MrrHeader.framesOffset h) 0))).
  { unfold MrrReader.load. cbv zeta. rewrite Hh, bind_Ok.
    rewrite subarray_tail by (unfold FOOTER_SIZE; lia).
    rewrite Hf, bind_Ok. by rewrite !subarray_window by done. }
  split; [done|].
  split; [by apply window_short_length|].
  split; [by apply window_short_length|].
  rewrite Hload. clear Hload.
  split; [|split; [|split; [|split]]].
  - intros Hc. unfold capBuf.
    rewrite (window_outside _ (MrrHeader.capabilitiesOffset h)) by done.
    by rewrite decode_parse_empty.
  - intros Hs. unfold stateBuf.
    rewrite (window_outside _ (MrrHeader.initialStateOffset h)) by done.
    rewrite decode_parse_empty.
    destruct (decode_parse_cases capBuf)
      as [[Hlong ->]|[(Hshort & _ & ->)|(Hshort & _ & ->)]].
    + by destruct (Z.ltb_spec Buf.MAX_STRING_LENGTH (Buf.length capBuf)); [|lia].
    + by destruct (Z.ltb_spec Buf.MAX_STRING_LENGTH (Buf.length capBuf)); [lia|].
    + by destruct (Z.ltb_spec Buf.MAX_STRING_LENGTH (Buf.length capBuf)); [lia|].
  - intros Hlong. by rewrite (toString_Throw capBuf).
  - intros e He.
    destruct (decode_parse_cases capBuf)
      as [[Hlong Hc]|[(Hshort & Hvalid & Hc)|(Hshort & Hvalid & Hc)]];
      rewrite Hc in He.
    + injection He as <-. right. by do 2 (split; [done|]); left.
    + injection He as <-. left. by do 2 (split; [done|]); left.
    + rewrite bind_Ok in He.
      destruct (decode_parse_cases stateBuf)
        as [[Hlong' Hs]|[(Hshort' & Hvalid' & Hs)|(Hshort' & Hvalid' & Hs)]];
        rewrite Hs in He; [| |discriminate He].
      * injection He as <-. right. by do 2 (split; [done|]); right.
      * injection He as <-. left. by do 2 (split; [done|]); right.
  - intros Hc Hs Hvc Hvs.
    rewrite (toString_Ok capBuf), (toString_Ok stateBuf) by done. cbn.
    unfold JSON.parse. by rewrite Hvc, Hvs.
Qed.

Lemma load_clamps_slices_witness :
  MrrReader.load Sample.overrun_empty = Throw SyntaxError.
Proof.
  destruct (load_clamps_slices Sample.overrun_empty
              (MrrHeader.mk 1 0 1 2048 512 64 1700000000000 5000 2 258 2 260)
              (MrrFooter.mk 0 0 4 250)) as (_ & _ & _ & H & _).
  - decide_Z.
  - decide_Z.
  - apply H. decide_Z.
Defined.

(** The claim that a slice beyond the bounds of the buffer makes [load]
    fail with an out-of-range error does not hold: the header of
    [Sample.overrun_accepted] gives the capabilities offset 372 and length
    100 in a file of 374 bytes, and [load] accepts the file, with the two
    bytes that remain of the slice as its capabilities. *)
Lemma out_of_range_slice_accepted :
  (∃ h, MrrHeader.fromBuffer Sample.overrun_accepted = Ok h
        ∧ MrrHeader.capabilitiesOffset h = 372
        ∧ MrrHeader.capabilitiesLen h = 100)
  ∧ Buf.length Sample.overrun_accepted = 374
  ∧ (∃ r, MrrReader.load Sample.overrun_accepted = Ok r
          ∧ MrrReader.capabilities r = Sample.text "{}")
  ∧ ¬ ∃ e, MrrReader.load Sample.overrun_accepted = Throw e.
Proof.
  split; [eexists; split; [decide_Z | split; reflexivity]|].
  split; [reflexivity|].
  split; [eexists; split; [decide_Z | reflexivity]|].
  intros [e He]. vm_compute in He. discriminate.
Qed.

(** ** Sequential decode *)

Lemma footer_frameCount_nonneg buf f :
  MrrFooter.fromBuffer buf = Ok f -> 0 <= MrrFooter.frameCount f.
Proof.
  unfold MrrFooter.fromBuffer, FOOTER_SIZE.
  destruct (Z.ltb_spec (Buf.length buf) 32); [discriminate|].
  destruct (negb _); [discriminate|].
  rewrite (readU64_ok buf 4), (readU32_ok buf 12), (readU32_ok buf 16),
    (readU64_ok buf 20) by lia.
  intros Hf. injection Hf as <-. cbn. apply le_value_nonneg.
Qed.

Lemma load_fields data r :
  MrrReader.load data = Ok r ->
  MrrReader.buffer r = data
  ∧ MrrReader.currentFrame r = 0
  ∧ MrrReader.currentOffset r = MrrHeader.framesOffset (MrrReader.header r)
  ∧ 0 <= MrrFooter.frameCount (MrrReader.footer r).
Proof.
  unfold MrrReader.load. cbv zeta.
  destruct (MrrHeader.fromBuffer data) as [h|]; [|discriminate].
  rewrite bind_Ok.
  destruct (MrrFooter.fromBuffer _) as [f|] eqn:Hf; [|discriminate].
  rewrite bind_Ok.
  destruct (Buf.toString (Buf.subarray data (MrrHeader.capabilitiesOffset h) _)
            ≫= JSON.parse) as [c|]; [|discriminate].
  rewrite bind_Ok.
  destruct (Buf.toString _ ≫= JSON.parse) as [s|]; [|discriminate].
  rewrite bind_Ok.
  unfold mret, result_ret. intros [= <-]. cbn.
  repeat split. by eapply footer_frameCount_nonneg.
Qed.

Lemma readFrame_null r :
  remaining r = O -> MrrReader.readFrame r = Ok (None, r).
Proof.
  unfold remaining, MrrReader.readFrame. intros H.
  by destruct (Z.leb_spec (MrrFooter.frameCount (MrrReader.footer r))
                 (MrrReader.currentFrame r)); [|lia].
Qed.

Lemma readFrame_some r n :
  remaining r = S n ->
  MrrReader.readFrame r
  = '(frame, bytesRead) ← MrrFrame.fromBuffer (MrrReader.buffer r)
                             (MrrReader.currentOffset r);
    Ok (Some frame,
        MrrReader.set_cursor r bytesRead (MrrReader.currentFrame r + 1)).
Proof.
  unfold remaining, MrrReader.readFrame. intros H.
  by destruct (Z.leb_spec (MrrFooter.frameCount (MrrReader.footer r))
                 (MrrReader.currentFrame r)); [lia|].
Qed.

Lemma remaining_set_cursor r n offset :
  remaining r = S n ->
  remaining (MrrReader.set_cursor r offset (MrrReader.currentFrame r + 1)) = n.
Proof. unfold remaining. cbn. lia. Qed.

(** The loop of [frames] ends: one call of [readFrame] for each frame
    still to read, and a last one that returns null. *)
Lemma frames_loop_enough fuel r :
  (remaining r < fuel)%nat -> is_Some (MrrReader.frames_loop fuel r).
Proof.
  revert r. induction fuel as [|fuel IH]; intros r Hfuel; [lia|].
  cbn [MrrReader.frames_loop].
  destruct (remaining r) as [|n] eqn:Hrem.
  - rewrite readFrame_null by done. eauto.
  - rewrite (readFrame_some r n) by done.
    destruct (MrrFrame.fromBuffer _ _) as [[frame next]|e]; [|cbn; eauto].
    rewrite bind_Ok.
    destruct (IH (MrrReader.set_cursor r next (MrrReader.currentFrame r + 1)))
      as [res Hres].
    { rewrite (remaining_set_cursor r n) by done. lia. }
    rewrite Hres. destruct res as [[rest r'']|e]; eauto.
Qed.

(** More fuel does not change what the loop gives. *)
Lemma frames_loop_more fuel fuel' r res :
  MrrReader.frames_loop fuel r = Some res -> (fuel <= fuel')%nat ->
  MrrReader.frames_loop fuel' r = Some res.
Proof.
  revert fuel' r res. induction fuel as [|fuel IH]; intros fuel' r res;
    [discriminate|].
  intros Hloop Hle. destruct fuel' as [|fuel']; [lia|].
  cbn [MrrReader.frames_loop] in *.
  destruct (MrrReader.readFrame r) as [[[frame|] r1]|e]; [|done..].
  destruct (MrrReader.frames_loop fuel r1) as [res1|] eqn:Hrest; [|discriminate].
  by rewrite (IH fuel' r1 res1) by (done || lia).
Qed.

(** [frames()] returns what the loop gives, whatever fuel it is given
    beyond the number of frames the footer counts. *)
Lemma frames_ends r :
  ∀ fuel, (Z.to_nat (MrrFooter.frameCount (MrrReader.footer r)) < fuel)%nat ->
          MrrReader.frames_loop fuel (MrrReader.rewind r)
          = Some (MrrReader.frames r).
Proof.
  intros fuel Hfuel. unfold MrrReader.frames. cbv zeta.
  change (MrrReader.footer (MrrReader.rewind r)) with (MrrReader.footer r).
  destruct (frames_loop_enough
              (S (Z.to_nat (MrrFooter.frameCount (MrrReader.footer r))))
              (MrrReader.rewind r)) as [res Hres].
  { unfold remaining. cbn. lia. }
  rewrite Hres. apply (frames_loop_more _ _ _ _ Hres). lia.
Qed.

(** When it ends without an exception, it has yielded every frame that was
    still to read. *)
Lemma frames_loop_count fuel r fs r' :
  MrrReader.frames_loop fuel r = Some (Ok (fs, r')) ->
  length fs = remaining r.
Proof.
  revert r fs. induction fuel as [|fuel IH]; intros r fs; [discriminate|].
  cbn [MrrReader.frames_loop].
  destruct (remaining r) as [|n] eqn:Hrem.
  - rewrite readFrame_null by done. by intros [= <- <-].
  - rewrite (readFrame_some r n) by done.
    destruct (MrrFrame.fromBuffer _ _) as [[frame next]|e]; [|discriminate].
    rewrite bind_Ok.
    destruct (MrrReader.frames_loop fuel _) as [[[rest r'']|e]|] eqn:Hloop;
      try discriminate.
    intros [= <- <-]. cbn. f_equal.
    rewrite (IH _ _ Hloop). by apply remaining_set_cursor.
Qed.

(** On complete records laid back to back no read is out of range, and
    the loop yields the frames the records hold. *)
Lemma frames_loop_chain fuel r :
  (remaining r < fuel)%nat ->
  FrameRecord.chain (MrrReader.buffer r) (remaining r) (MrrReader.currentOffset r) ->
  ∃ r', MrrReader.frames_loop fuel r
        = Some (Ok (FrameRecord.frames (MrrReader.buffer r) (remaining r)
                      (MrrReader.currentOffset r), r')).
Proof.
  revert r. induction fuel as [|fuel IH]; intros r Hfuel Hchain; [lia|].
  cbn [MrrReader.frames_loop].
  destruct (remaining r) as [|n] eqn:Hrem.
  - rewrite readFrame_null by done. eauto.
  - rewrite (readFrame_some r n) by done.
    destruct Hchain as [Hcomplete Hchain].
    rewrite fromBuffer_complete, bind_Ok by done.
    destruct (IH (MrrReader.set_cursor r
                    (MrrReader.currentOffset r
                     + FrameRecord.size (MrrReader.buffer r) (MrrReader.currentOffset r))
                    (MrrReader.currentFrame r + 1)))
      as (r'' & Hrest).
    { rewrite (remaining_set_cursor r n) by done. lia. }
    { by rewrite (remaining_set_cursor r n) by done. }
    rewrite Hrest, (remaining_set_cursor r n) by done. eauto.
Qed.

(** C5.  For a well-formed file, sequential decode (the loop of
    [frames()], which calls [readFrame] until it returns null) ends
    without an exception and yields the frames of the records, and their
    number is the [frameCount] of the metadata, which is that of the
    footer; the player that loads the file holds as many frames as it
    reports. *)
Theorem frame_count_matches (data : Buffer) :
  well_formed data ->
  ∃ r fs r',
    MrrReader.load data = Ok r
    ∧ MrrReader.frames r = Ok (fs, r')
    ∧ Z.of_nat (length fs) = MrrReader.meta_frameCount (MrrReader.getMetadata r)
    ∧ MrrReader.meta_frameCount (MrrReader.getMetadata r)
      = MrrFooter.frameCount (MrrReader.footer r)
    ∧ fs = FrameRecord.frames data (length fs)
             (MrrHeader.framesOffset (MrrReader.header r))
    ∧ ∀ filename, ∃ p,
        MrrPlayer.load (MrrPlayer.new filename) data = Ok p
        ∧ MrrPlayer.frames p = fs
        ∧ Z.of_nat (length (MrrPlayer.frames p)) = MrrPlayer.frameCount p.
Proof.
  intros (r & Hload & Hchain).
  destruct (load_fields _ _ Hload) as (Hbuf & Hframe & Hoffset & Hcount).
  assert (Hrem : remaining (MrrReader.rewind r)
                 = Z.to_nat (MrrFooter.frameCount (MrrReader.footer r)))
    by (unfold remaining; cbn; f_equal; lia).
  destruct (frames_loop_chain
              (S (Z.to_nat (MrrFooter.frameCount (MrrReader.footer r))))
              (MrrReader.rewind r)) as (r' & Hloop).
  { rewrite Hrem. lia. }
  { rewrite Hrem. cbn. by rewrite Hbuf. }
  rewrite Hrem in Hloop. cbn [MrrReader.rewind MrrReader.set_cursor
    MrrReader.buffer MrrReader.currentOffset] in Hloop. rewrite Hbuf in Hloop.
  set (fs := FrameRecord.frames data _ _) in Hloop.
  assert (Hframes : MrrReader.frames r = Ok (fs, r')).
  { unfold MrrReader.frames. cbv zeta.
    change (MrrReader.footer (MrrReader.rewind r)) with (MrrReader.footer r).
    by rewrite Hloop. }
  assert (Hlen : length fs = Z.to_nat (MrrFooter.frameCount (MrrReader.footer r))).
  { by rewrite (frames_loop_count _ _ _ _ Hloop). }
  exists r, fs, r'. split; [done|]. split; [done|].
  split; [cbn; lia|]. split; [done|]. split; [by rewrite Hlen|].
  intros filename. eexists. split.
  - unfold MrrPlayer.load. rewrite Hload, bind_Ok. cbv zeta.
    rewrite Hframes, bind_Ok. reflexivity.
  - split; [done|]. cbn. lia.
Qed.

Lemma frame_count_matches_witness :
  ∃ r fs r',
    MrrReader.load Sample.recording = Ok r
    ∧ MrrReader.frames r = Ok (fs, r')
    ∧ Z.of_nat (length fs) = MrrReader.meta_frameCount (MrrReader.getMetadata r)
    ∧ MrrReader.meta_frameCount (MrrReader.getMetadata r)
      = MrrFooter.frameCount (MrrReader.footer r)
    ∧ fs = FrameRecord.frames Sample.recording (length fs)
             (MrrHeader.framesOffset (MrrReader.header r))
    ∧ ∀ filename, ∃ p,
        MrrPlayer.load (MrrPlayer.new filename) Sample.recording = Ok p
        ∧ MrrPlayer.frames p = fs
        ∧ Z.of_nat (length (MrrPlayer.frames p)) = MrrPlayer.frameCount p.
Proof.
  apply (frame_count_matches Sample.recording).
  eexists. split; [vm_compute; reflexivity|].
  vm_compute. repeat split; discriminate.
Defined.

(** ** The scheduler *)

Import MrrPlayer.

Lemma schedule_not_playing depth p app :
  playing p = false ->
  scheduleNextFrame_rec (S depth) p app = (p, app, Returned).
Proof. intros H. cbn. by rewrite H. Qed.

(** With no frame to deliver and looping on, the function calls itself
    until the stack is used up. *)
Lemma schedule_empty_loop depth p app :
  playing p = true -> loop p = true -> frames p = [] ->
  scheduleNextFrame_rec depth (set_position p 0 0) app
  = (set_position p 0 0, app, Thrown RangeError).
Proof.
  intros Hplaying Hloop Hframes.
  induction depth as [|depth IH]; [reflexivity|].
  cbn. rewrite Hplaying, Hloop, Hframes. cbn. exact IH.
Qed.

(** Delivery of the frame at the current index. *)
Lemma schedule_deliver depth p app frame :
  playing p = true -> frames p !! currentFrame p = Some frame ->
  scheduleNextFrame_rec (S depth) p app
  = let app1 := App.emitData (streamId p) (MrrFrame.data frame) app in
    let p1 := set_position p (S (currentFrame p)) (MrrFrame.timestampMs frame) in
    match frames p !! S (currentFrame p) with
    | Some nextFrame =>
        let deltaMs := Number_sub (MrrFrame.timestampMs nextFrame)
                                  (MrrFrame.timestampMs frame) in
        (set_playbackTimer p1 (Some (App.nextHandle app1)),
         (App.setTimeout NextFrame (Z.max 1 deltaMs) app1).2, Returned)
    | None =>
        if loop p
        then (set_playbackTimer p1 (Some (App.nextHandle app1)),
              (App.setTimeout LoopRestart 100 app1).2, Returned)
        else (set_playing p1 false,
              App.setPluginStatus ("Finished: " +:+ filename p) app1, Returned)
    end.
Proof.
  intros Hplaying Hframe. cbn -[Nat.ltb Nat.leb].
  rewrite Hplaying, Hframe. cbn -[Nat.ltb Nat.leb].
  pose proof (lookup_lt_Some _ _ _ Hframe) as Hlt.
  destruct (Nat.leb_spec (length (frames p)) (currentFrame p)); [lia|].
  destruct (frames p !! S (currentFrame p)) as [nextFrame|] eqn:Hnext.
  - pose proof (lookup_lt_Some _ _ _ Hnext).
    by destruct (Nat.ltb_spec (S (currentFrame p)) (length (frames p))); [|lia].
  - apply lookup_ge_None in Hnext.
    by destruct (Nat.ltb_spec (S (currentFrame p)) (length (frames p))); [lia|].
Qed.

(** Past the last frame. *)
Lemma schedule_end depth p app :
  playing p = true -> (length (frames p) <= currentFrame p)%nat ->
  scheduleNextFrame_rec (S depth) p app
  = if loop p
    then scheduleNextFrame_rec depth (set_position p 0 0) app
    else (set_playing p false,
          App.setPluginStatus ("Finished: " +:+ filename p) app, Returned).
Proof.
  intros Hplaying Hend. cbn -[Nat.ltb Nat.leb].
  rewrite Hplaying. cbn -[Nat.ltb Nat.leb].
  by destruct (Nat.leb_spec (length (frames p)) (currentFrame p)); [|lia].
Qed.

(** The current index is past the last frame, or has a frame. *)
Lemma frame_at p :
  (length (frames p) <= currentFrame p)%nat
  ∨ ∃ frame, frames p !! currentFrame p = Some frame.
Proof.
  destruct (frames p !! currentFrame p) eqn:E; [eauto|].
  left. by apply lookup_ge_None.
Qed.

(** Two nested calls are all the function uses, unless it throws. *)
Lemma scheduleNextFrame_rec_depth depth p app :
  (2 <= depth)%nat ->
  scheduleNextFrame_rec depth p app = scheduleNextFrame p app.
Proof.
  intros Hdepth. unfold scheduleNextFrame.
  destruct depth as [|[|depth]]; [lia..|].
  destruct (playing p) eqn:Hplaying;
    [|by rewrite (schedule_not_playing (S depth)), (schedule_not_playing 1)].
  destruct (frame_at p) as [Hend|[frame Hframe]].
  - rewrite (schedule_end (S depth)), (schedule_end 1) by done.
    destruct (loop p) eqn:Hloop; [|done].
    destruct (frame_at (set_position p 0 0)) as [Hend0|[frame Hframe]].
    + cbn in Hend0. assert (frames p = []) as Hnil
        by (destruct (frames p); [done|cbn in Hend0; lia]).
      by rewrite !schedule_empty_loop.
    + by rewrite (schedule_deliver depth _ _ frame),
        (schedule_deliver 0 _ _ frame).
  - by rewrite (schedule_deliver (S depth) _ _ frame),
      (schedule_deliver 1 _ _ frame).
Qed.

Lemma emitted_emitData streamId data app :
  App.emitted (App.emitData streamId data app)
  = App.emitted app ++ App.delivery streamId data app.
Proof.
  unfold App.emitted, App.emitData, App.delivery.
  destruct (App.binaryStreamManager app) eqn:E; cbn; [done|].
  by rewrite E.
Qed.

Lemma Number_sub_exact a b :
  Z.abs (a - b) < 2 ^ 53 -> Number_sub a b = a - b.
Proof.
  intros H. unfold Number_sub, round_double.
  destruct (Z.ltb_spec (Z.abs (a - b)) (2 ^ 53)); [|lia].
  destruct (Z.sgn_spec (a - b)) as [[? ->]|[[? ->]|[? ->]]]; lia.
Qed.

Lemma Number_sub_nonpos a b : a <= b -> Number_sub a b <= 0.
Proof.
  intros H. unfold Number_sub.
  pose proof (round_double_nonneg (Z.abs (a - b)) (Z.abs_nonneg _)).
  destruct (Z.sgn_spec (a - b)) as [[? ->]|[[? ->]|[? ->]]]; lia.
Qed.

(** C4.  While playing, with a frame at the current index and a frame
    after it, [scheduleNextFrame] hands the current frame to the sink,
    takes its timestamp as the position, moves the index on, and arms one
    timeout, for the next delivery, with the delay
    max(1, next.timestampMs - current.timestampMs) (the subtraction of the
    two Numbers: the exact difference for timestamps below 2^53); the
    delay is at least 1, and is 1 when the next timestamp is not later
    than the current one.  When that timeout fires, the next frame is
    delivered. *)
Theorem next_delivery_delay (p : MrrPlayer.t) (app : App.t)
    (frame nextFrame : MrrFrame.t) :
  playing p = true ->
  frames p !! currentFrame p = Some frame ->
  frames p !! S (currentFrame p) = Some nextFrame ->
  let deltaMs :=
    Number_sub (MrrFrame.timestampMs nextFrame) (MrrFrame.timestampMs frame) in
  let ms := Z.max 1 deltaMs in
  ∃ p' app' h,
    scheduleNextFrame p app = (p', app', Returned)
    ∧ App.emitted app'
      = App.emitted app ++ App.delivery (streamId p) (MrrFrame.data frame) app
    ∧ positionMs p' = MrrFrame.timestampMs frame
    ∧ currentFrame p' = S (currentFrame p)
    ∧ playing p' = true
    ∧ h = App.nextHandle app
    ∧ playbackTimer p' = Some h
    ∧ App.timers app' = <[h := mkTimeout ms NextFrame]> (App.timers app)
    ∧ 1 <= ms
    ∧ (Z.abs (MrrFrame.timestampMs nextFrame - MrrFrame.timestampMs frame) < 2 ^ 53 ->
       ms = Z.max 1 (MrrFrame.timestampMs nextFrame - MrrFrame.timestampMs frame))
    ∧ (MrrFrame.timestampMs nextFrame <= MrrFrame.timestampMs frame -> ms = 1)
    ∧ App.emitted (step (p', app') (Fire h)).2
      = App.emitted app'
        ++ App.delivery (streamId p) (MrrFrame.data nextFrame) app
    ∧ positionMs (step (p', app') (Fire h)).1 = MrrFrame.timestampMs nextFrame.
Proof.
  intros Hplaying Hframe Hnext. cbv zeta. unfold scheduleNextFrame.
  rewrite (schedule_deliver 1 p app frame), Hnext by done. cbv zeta.
  eexists _, _, _. split; [reflexivity|].
  split; [cbn; apply emitted_emitData|].
  do 2 (split; [reflexivity|]).
  split; [exact Hplaying|].
  split; [reflexivity|].
  split; [by destruct app as [? ? [?|] ?]|].
  split; [by destruct app as [? ? [?|] ?]|].
  split; [lia|].
  split; [by intros H; rewrite Number_sub_exact|].
  split; [intros H; apply Number_sub_nonpos in H; lia|].
  set (p1 := set_playbackTimer _ _). set (app1 := (App.setTimeout _ _ _).2).
  assert (Hfire : step (p1, app1) (Fire (App.nextHandle app))
                  = (scheduleNextFrame p1 (App.clearTimeout (App.nextHandle app) app1)).1).
  { cbn -[scheduleNextFrame].
    replace (App.nextHandle (App.emitData _ _ app)) with (App.nextHandle app)
      by (by destruct app as [? ? [?|] ?]).
    by rewrite lookup_insert_eq. }
  replace (App.nextHandle (App.emitData (streamId p) (MrrFrame.data frame) app))
    with (App.nextHandle app) by (by destruct app as [? ? [?|] ?]).
  rewrite Hfire. unfold scheduleNextFrame.
  rewrite (schedule_deliver 1 p1 _ nextFrame) by done. cbv zeta.
  change (streamId p1) with (streamId p).
  split.
  - transitivity (App.emitted (App.emitData (streamId p) (MrrFrame.data nextFrame)
                                (App.clearTimeout (App.nextHandle app) app1))).
    { by repeat case_match. }
    rewrite emitted_emitData. f_equal.
    unfold App.delivery, app1. by destruct app as [? ? [?|] ?].
  - by repeat case_match.
Qed.

Lemma next_delivery_delay_witness :
  ∃ p' app' h,
    scheduleNextFrame
      (set_position (set_playing Sample.player true) 2 250) Sample.app
    = (p', app', Returned)
    ∧ playbackTimer p' = Some h
    ∧ App.timers app' = <[h := mkTimeout 1 NextFrame]> ∅
    ∧ positionMs p' = 250
    ∧ currentFrame p' = 3%nat.
Proof.
  destruct (next_delivery_delay
              (set_position (set_playing Sample.player true) 2 250) Sample.app
              (MrrFrame.mk 250 0 (Sample.text "spoke2") None)
              (MrrFrame.mk 250 0 (Sample.text "spoke3") None))
    as (p' & app' & h & Hrun & _ & Hpos & Hframe & _ & _ & Htimer & Htimers
        & _ & _ & Hone & _); [reflexivity..|].
  exists p', app', h. rewrite Hone in Htimers by (cbn; lia).
  repeat split; assumption.
Defined.

(** C6, as the code has it.  When the end of the sequence is reached
    while playing with looping off (the last frame has just been
    delivered, or the index is already past it), [scheduleNextFrame]
    clears the playing flag and arms no timeout; the position stays at the
    end (the index is the number of frames, the position the timestamp of
    the last frame delivered), and the plugin status of the host is set to
    'Finished: <filename>'.  [getStatus] has no state of its own for this:
    it reports 'paused', or 'loaded' for a recording without frames. *)
Theorem end_of_sequence_without_loop (p : MrrPlayer.t) (app : App.t) :
  playing p = true -> loop p = false ->
  (length (frames p) <= S (currentFrame p))%nat ->
  ∃ p' app',
    scheduleNextFrame p app = (p', app', Returned)
    ∧ playing p' = false
    ∧ currentFrame p' = Nat.max (currentFrame p) (length (frames p))
    ∧ positionMs p'
      = match frames p !! currentFrame p with
        | Some last => MrrFrame.timestampMs last
        | None => positionMs p
        end
    ∧ App.timers app' = App.timers app
    ∧ App.pluginStatus app' = "Finished: " +:+ filename p
    ∧ state (getStatus p')
      = (if (0 <? currentFrame p')%nat then "paused" else "loaded")
    ∧ (frames p ≠ [] -> state (getStatus p') = "paused").
Proof.
  intros Hplaying Hloop Hlast. unfold scheduleNextFrame.
  destruct (frame_at p) as [Hend|[frame Hframe]].
  - rewrite schedule_end, Hloop by done.
    eexists _, _. split; [reflexivity|]. cbn -[Nat.ltb].
    rewrite (lookup_ge_None_2 _ _ Hend).
    split; [done|]. split; [lia|]. do 3 (split; [done|]). split; [done|].
    intros Hne. destruct (frames p) eqn:E; [done|]. cbn in Hend.
    by destruct (Nat.ltb_spec 0 (currentFrame p)); [|lia].
  - rewrite (schedule_deliver 1 p app frame), Hloop by done. cbv zeta.
    pose proof (lookup_lt_Some _ _ _ Hframe) as Hlt.
    rewrite (lookup_ge_None_2 (frames p) (S (currentFrame p))) by lia.
    eexists _, _. split; [reflexivity|]. cbn -[Nat.ltb]. rewrite Hframe.
    split; [done|]. split; [lia|]. split; [done|].
    split; [by destruct app as [? ? [?|] ?]|]. split; [done|]. done.
Qed.

Lemma end_of_sequence_without_loop_witness :
  ∃ p' app',
    scheduleNextFrame
      (set_position (set_loop (set_playing Sample.player true) false) 3 250)
      Sample.app
    = (p', app', Returned)
    ∧ playing p' = false
    ∧ currentFrame p' = 4%nat
    ∧ positionMs p' = 250
    ∧ App.timers app' = ∅
    ∧ App.pluginStatus app' = "Finished: demo.mrr"
    ∧ state (getStatus p') = "paused".
Proof.
  destruct (end_of_sequence_without_loop
              (set_position (set_loop (set_playing Sample.player true) false) 3 250)
              Sample.app)
    as (p' & app' & Hrun & Hplaying & Hframe & Hpos & Htimers & Hstatus & _ & Hstate);
    [reflexivity | reflexivity | vm_compute; lia |].
  exists p', app'. repeat split; try assumption.
  by apply Hstate.
Defined.

(** The claim that the status then shows a finished state, apart from
    paused and loaded, does not hold: the recording of four frames,
    played to its end with looping off, is reported as 'paused'. *)
Lemma finished_reported_as_paused :
  MrrPlayer.load (MrrPlayer.new "demo.mrr") Sample.recording = Ok Sample.player
  ∧ let s := run_events (Sample.player, Sample.app)
               [SetLoop false; Play; Fire 0; Fire 1; Fire 2] in
    playing s.1 = false
    ∧ currentFrame s.1 = 4%nat
    ∧ positionMs s.1 = 250
    ∧ length (App.emitted s.2) = 4%nat
    ∧ App.timers s.2 = ∅
    ∧ App.pluginStatus s.2 = "Finished: demo.mrr"
    ∧ state (getStatus s.1) = "paused".
Proof.
  split; [vm_compute; reflexivity|].
  vm_compute. repeat split.
Qed.

(** ** One pending timeout *)

Lemma timers_emitData streamId data app :
  App.timers (App.emitData streamId data app) = App.timers app.
Proof. by destruct app as [? ? [?|] ?]. Qed.

Lemma nextHandle_emitData streamId data app :
  App.nextHandle (App.emitData streamId data app) = App.nextHandle app.
Proof. by destruct app as [? ? [?|] ?]. Qed.

Lemma one_pending_none p app : App.timers app = ∅ -> one_pending (p, app).
Proof. intros H h [t Ht]. cbn in Ht. by rewrite H, lookup_empty in Ht. Qed.

Lemma one_pending_single p app h t :
  App.timers app = <[h := t]> ∅ -> playing p = true ->
  playbackTimer p = Some h -> one_pending (p, app).
Proof.
  intros Htimers Hplaying Htimer h' [t' Ht']. cbn in *.
  rewrite Htimers in Ht'. apply lookup_insert_Some in Ht'.
  destruct Ht' as [[-> _]|[_ Ht']]; [done|by rewrite lookup_empty in Ht'].
Qed.

(** What [scheduleNextFrame] keeps. *)
Lemma schedule_keeps depth p app :
  loop (scheduleNextFrame_rec depth p app).1.1 = loop p
  ∧ frames (scheduleNextFrame_rec depth p app).1.1 = frames p
  ∧ filename (scheduleNextFrame_rec depth p app).1.1 = filename p.
Proof.
  revert p. induction depth as [|depth IH]; intros p; [done|].
  destruct (playing p) eqn:Hplaying; [|by rewrite schedule_not_playing].
  destruct (frame_at p) as [Hend|[frame Hframe]].
  - rewrite schedule_end by done. destruct (loop p) eqn:Hloop; [|done].
    destruct (IH (set_position p 0 0)) as (-> & -> & ->). done.
  - rewrite (schedule_deliver _ _ _ frame) by done. cbv zeta.
    by repeat case_match.
Qed.

(** Called while no timeout is pending, [scheduleNextFrame] leaves at most
    the one it arms. *)
Lemma schedule_from_none depth p app :
  App.timers app = ∅ -> one_pending (scheduleNextFrame_rec depth p app).1.
Proof.
  revert p. induction depth as [|depth IH]; intros p Hnone;
    [by apply one_pending_none|].
  destruct (playing p) eqn:Hplaying;
    [|rewrite schedule_not_playing by done; by apply one_pending_none].
  destruct (frame_at p) as [Hend|[frame Hframe]].
  - rewrite schedule_end by done. destruct (loop p) eqn:Hloop.
    + by apply IH.
    + by apply one_pending_none.
  - rewrite (schedule_deliver _ _ _ frame) by done. cbv zeta.
    destruct (frames p !! S (currentFrame p)); [|destruct (loop p)].
    + eapply one_pending_single; [|done|done].
      cbn. by rewrite timers_emitData, Hnone.
    + eapply one_pending_single; [|done|done].
      cbn. by rewrite timers_emitData, Hnone.
    + apply one_pending_none. cbn. by rewrite timers_emitData.
Qed.

Lemma one_pending_not_playing p app :
  one_pending (p, app) -> playing p = false -> App.timers app = ∅.
Proof.
  intros Hone Hplaying. apply map_empty. intros h.
  destruct (App.timers app !! h) eqn:E; [|done].
  destruct (Hone h) as [Hp _]; [by eexists|]. cbn in Hp. congruence.
Qed.

Lemma one_pending_cleared p app h :
  one_pending (p, app) -> playbackTimer p = Some h ->
  delete h (App.timers app) = ∅.
Proof.
  intros Hone Htimer. apply map_empty. intros h'.
  destruct (decide (h = h')) as [->|Hne]; [apply lookup_delete_eq|].
  rewrite lookup_delete_ne by done.
  destruct (App.timers app !! h') eqn:E; [|done].
  destruct (Hone h') as [_ Hh]; [by eexists|]. cbn in Hh. congruence.
Qed.

(** [pause] leaves no timeout pending. *)
Lemma pause_clears p app :
  one_pending (p, app) ->
  App.timers (pause p app).2 = ∅ ∧ playing (pause p app).1 = false.
Proof.
  intros Hone. unfold pause. cbn.
  destruct (playbackTimer p) as [h|] eqn:Htimer; cbn.
  - split; [by eapply one_pending_cleared|done].
  - split; [|done]. apply map_empty. intros h.
    destruct (App.timers app !! h) eqn:E; [|done].
    destruct (Hone h) as [_ Hh]; [by eexists|]. cbn in Hh. congruence.
Qed.

Lemma one_pending_step s ev : one_pending s -> one_pending (step s ev).
Proof.
  destruct s as [p app]. intros Hone. destruct ev as [| | |b|h]; cbn.
  - unfold play. destruct (playing p) eqn:Hplaying; [done|].
    apply schedule_from_none. by eapply one_pending_not_playing.
  - apply one_pending_none. by apply pause_clears.
  - unfold stop. destruct (pause p app) as [p1 app1] eqn:Hpause.
    apply one_pending_none.
    change app1 with (p1, app1).2. rewrite <- Hpause. by apply pause_clears.
  - done.
  - destruct (App.timers app !! h) as [timeout|] eqn:Hpending; [|done].
    destruct (Hone h) as [_ Hh]; [by eexists|]. cbn in Hh.
    destruct (callback timeout); apply schedule_from_none; cbn;
      by eapply one_pending_cleared.
Qed.

Lemma reachable_one_pending s : reachable s -> one_pending s.
Proof.
  induction 1 as [filename data p app _ Hnone|s ev _ IH].
  - by apply one_pending_none.
  - by apply one_pending_step.
Qed.

Lemma reachable_run_events s evs : reachable s -> reachable (run_events s evs).
Proof.
  revert s. induction evs as [|ev evs IH]; intros s Hs; [done|].
  cbn. apply IH. by constructor.
Qed.

Lemma sample_reachable evs :
  reachable (run_events (Sample.player, Sample.app) evs).
Proof.
  apply reachable_run_events.
  apply (reachable_loaded "demo.mrr" Sample.recording); [|done].
  vm_compute. reflexivity.
Qed.

(** ** Stop and pause *)

(** While the player is not playing and no timeout is pending, nothing but
    [play] changes that, and no frame is delivered. *)
Lemma quiet_step p app ev :
  playing p = false -> App.timers app = ∅ -> ev ≠ Play ->
  playing (step (p, app) ev).1 = false
  ∧ App.timers (step (p, app) ev).2 = ∅
  ∧ App.emitted (step (p, app) ev).2 = App.emitted app.
Proof.
  intros Hplaying Hnone Hev. destruct ev as [| | |b|h]; [done|..]; cbn.
  - unfold pause. cbn. destruct (playbackTimer p); cbn; [|done].
    by rewrite Hnone, delete_empty.
  - unfold stop, pause. cbn. destruct (playbackTimer p); cbn; [|done].
    by rewrite Hnone, delete_empty.
  - done.
  - by rewrite Hnone, lookup_empty.
Qed.

Lemma quiet_run p app evs :
  playing p = false -> App.timers app = ∅ -> Forall (λ ev, ev ≠ Play) evs ->
  playing (run_events (p, app) evs).1 = false
  ∧ App.timers (run_events (p, app) evs).2 = ∅
  ∧ App.emitted (run_events (p, app) evs).2 = App.emitted app.
Proof.
  revert p app. induction evs as [|ev evs IH]; intros p app Hplaying Hnone Hevs;
    [done|].
  apply Forall_cons in Hevs as [Hev Hevs].
  destruct (quiet_step p app ev) as (Hp & Ht & He); [done..|].
  cbn [run_events foldl]. destruct (step (p, app) ev) as [p1 app1].
  destruct (IH p1 app1) as (Hp' & Ht' & He'); [done..|].
  unfold run_events in *. rewrite He'. done.
Qed.

Lemma fire_none p app h : App.timers app = ∅ -> step (p, app) (Fire h) = (p, app).
Proof. intros H. cbn. by rewrite H, lookup_empty. Qed.

Lemma emitted_pause p app : App.emitted (pause p app).2 = App.emitted app.
Proof. unfold pause. cbn. by destruct (playbackTimer p). Qed.

(** C7.  Whatever state the player is in (playing, paused, at its end or
    just loaded: any state a session can reach), [stop] leaves no timeout
    pending, so that no delivery is scheduled any more, and the status then
    reports frame 0 and position 0 ms, not playing. *)
Theorem stop_resets_position (s : Session) :
  reachable s ->
  let s' := stop s.1 s.2 in
  App.timers s'.2 = ∅
  ∧ (∀ h, step s' (Fire h) = s')
  ∧ playing s'.1 = false
  ∧ currentFrame s'.1 = 0%nat
  ∧ positionMs s'.1 = 0
  ∧ frame (getStatus s'.1) = 0%nat
  ∧ status_positionMs (getStatus s'.1) = 0
  ∧ state (getStatus s'.1) = "loaded"
  ∧ App.emitted s'.2 = App.emitted s.2.
Proof.
  intros Hreach. destruct s as [p app]. cbv zeta. cbn [fst snd].
  pose proof (reachable_one_pending _ Hreach) as Hone.
  destruct (pause_clears p app Hone) as [Hnone Hplaying].
  pose proof (emitted_pause p app) as Hemitted.
  unfold stop. destruct (pause p app) as [p1 app1]. cbn in *.
  split; [done|]. split; [by intros h; rewrite Hnone, lookup_empty|].
  split; [done|]. do 4 (split; [done|]). split; [by rewrite Hplaying|done].
Qed.

Lemma stop_resets_position_witness :
  let s := run_events (Sample.player, Sample.app) [Play; Fire 0; Fire 1] in
  let s' := stop s.1 s.2 in
  (currentFrame s.1 = 3%nat ∧ positionMs s.1 = 250 ∧ is_Some (App.timers s.2 !! 2%nat))
  ∧ App.timers s'.2 = ∅
  ∧ frame (getStatus s'.1) = 0%nat
  ∧ status_positionMs (getStatus s'.1) = 0.
Proof.
  cbv zeta. split.
  - vm_compute. repeat split. by eexists.
  - destruct (stop_resets_position
                (run_events (Sample.player, Sample.app) [Play; Fire 0; Fire 1]))
      as (Hnone & _ & _ & _ & _ & Hframe & Hpos & _).
    + apply sample_reachable.
    + repeat split; assumption.
Defined.

(** C8.  [pause] cancels the outstanding timeout before it returns: in
    any state a session can reach, no timeout is pending afterwards, so
    that a timeout coming due (the cancelled one or any other) runs
    nothing; and whatever follows, short of a call of [play], delivers no
    further frame.  [play] then resumes with the frame at the index kept. *)
Theorem pause_cancels_delivery (s : Session) (evs : list Event) :
  reachable s ->
  Forall (λ ev, ev ≠ Play) evs ->
  let s1 := pause s.1 s.2 in
  App.timers s1.2 = ∅
  ∧ (∀ h, step s1 (Fire h) = s1)
  ∧ playing s1.1 = false
  ∧ App.emitted s1.2 = App.emitted s.2
  ∧ App.emitted (run_events s1 evs).2 = App.emitted s1.2
  ∧ App.timers (run_events s1 evs).2 = ∅
  ∧ (∀ next, frames s1.1 !! currentFrame s1.1 = Some next ->
       App.emitted (step s1 Play).2
       = App.emitted s1.2
         ++ App.delivery (streamId s1.1) (MrrFrame.data next) s1.2).
Proof.
  intros Hreach Hevs. destruct s as [p app]. cbv zeta. cbn [fst snd].
  pose proof (reachable_one_pending _ Hreach) as Hone.
  destruct (pause_clears p app Hone) as [Hnone Hplaying].
  pose proof (emitted_pause p app) as Hemitted.
  destruct (pause p app) as [p1 app1]. cbn [fst snd] in *.
  destruct (quiet_run p1 app1 evs) as (_ & Hnone' & Hemitted'); [done..|].
  split; [done|]. split; [by intros h; apply fire_none|].
  do 4 (split; [done|]).
  intros next Hnext. cbn [step]. unfold play. rewrite Hplaying.
  unfold scheduleNextFrame.
  rewrite (schedule_deliver 1 (set_playing p1 true) app1 next) by done.
  cbv zeta. change (streamId (set_playing p1 true)) with (streamId p1).
  transitivity (App.emitted (App.emitData (streamId p1) (MrrFrame.data next) app1));
    [|apply emitted_emitData].
  by repeat case_match.
Qed.

Lemma pause_cancels_delivery_witness :
  let s := run_events (Sample.player, Sample.app) [Play; Fire 0] in
  let s1 := pause s.1 s.2 in
  (is_Some (App.timers s.2 !! 1%nat) ∧ length (App.emitted s.2) = 2%nat)
  ∧ App.timers s1.2 = ∅
  ∧ App.emitted (run_events s1 [Fire 1; SetLoop false; Fire 1; Pause]).2
    = App.emitted s.2.
Proof.
  cbv zeta. split.
  - vm_compute. split; [by eexists|done].
  - destruct (pause_cancels_delivery
                (run_events (Sample.player, Sample.app) [Play; Fire 0])
                [Fire 1; SetLoop false; Fire 1; Pause])
      as (Hnone & _ & _ & Hsame & Hquiet & _).
    + apply sample_reachable.
    + repeat constructor; discriminate.
    + split; [assumption|]. by rewrite Hquiet.
Defined.

(** ** Looping *)

Lemma loop_step s ev :
  (∀ b, ev ≠ SetLoop b) -> loop (step s ev).1 = loop s.1.
Proof.
  destruct s as [p app]. intros Hev. destruct ev as [| | |b|h]; cbn.
  - unfold play. destruct (playing p); [done|].
    apply (schedule_keeps 2 (set_playing p true) app).
  - unfold pause. cbn. by destruct (playbackTimer p).
  - unfold stop, pause. cbn. by destruct (playbackTimer p).
  - by destruct (Hev b).
  - destruct (App.timers app !! h) as [timeout|]; [|done].
    destruct (callback timeout); cbn.
    + apply (schedule_keeps 2 p).
    + apply (schedule_keeps 2 (set_position p 0 0)).
Qed.

Lemma loop_run s evs :
  Forall (λ ev, ∀ b, ev ≠ SetLoop b) evs -> loop (run_events s evs).1 = loop s.1.
Proof.
  revert s. induction evs as [|ev evs IH]; intros s Hevs; [done|].
  apply Forall_cons in Hevs as [Hev Hevs]. cbn.
  unfold run_events in IH. rewrite IH by done. by apply loop_step.
Qed.

Lemma load_keeps_loop p data p' :
  MrrPlayer.load p data = Ok p' -> loop p' = loop p.
Proof.
  unfold MrrPlayer.load.
  destruct (MrrReader.load data) as [r|]; [|discriminate]. rewrite bind_Ok.
  cbv zeta. destruct (MrrReader.frames r) as [[fs r']|]; [|discriminate].
  rewrite bind_Ok. unfold mret, result_ret. by intros [= <-].
Qed.

Lemma load_keeps_playback p data p' :
  MrrPlayer.load p data = Ok p' ->
  playing p' = playing p ∧ currentFrame p' = currentFrame p
  ∧ positionMs p' = positionMs p ∧ playbackTimer p' = playbackTimer p.
Proof.
  unfold MrrPlayer.load.
  destruct (MrrReader.load data) as [r|]; [|discriminate]. rewrite bind_Ok.
  cbv zeta. destruct (MrrReader.frames r) as [[fs r']|]; [|discriminate].
  rewrite bind_Ok. unfold mret, result_ret. by intros [= <-].
Qed.

Lemma delivery_emitData sid d sid' d' app :
  App.delivery sid d (App.emitData sid' d' app) = App.delivery sid d app.
Proof. by destruct app as [? ? [?|] ?]. Qed.

(** How [play] ends. *)
Lemma play_cases p app :
  (playing p = false ∧ loop p = true ∧ frames p = []
   ∧ play p app = (set_position (set_playing p true) 0 0, app, Thrown RangeError))
  ∨ ((playing p = true ∨ loop p = false ∨ frames p ≠ [])
     ∧ (play p app).2 = Returned).
Proof.
  unfold play. destruct (playing p) eqn:Hplaying; [right; split; [by left|done]|].
  unfold scheduleNextFrame.
  destruct (frame_at (set_playing p true)) as [Hend|[frame Hframe]].
  - rewrite schedule_end by done.
    change (loop (set_playing p true)) with (loop p).
    destruct (loop p) eqn:Hloop; [|right; split; [right; by left|done]].
    destruct (frames p) as [|first rest] eqn:Hframes.
    + left. do 3 (split; [done|]). by apply schedule_empty_loop.
    + right. split; [by do 2 right|].
      rewrite (schedule_deliver 0 _ _ first) by (cbn; rewrite ?Hframes; done).
      cbv zeta. by repeat case_match.
  - right. assert (frames p ≠ []) as Hne.
    { intros Hnil. cbn in Hframe. by rewrite Hnil in Hframe. }
    split; [by do 2 right|].
    rewrite (schedule_deliver 1 _ _ frame) by done.
    cbv zeta. by repeat case_match.
Qed.

(** The index after [m + 1] steps around a cycle of [n]. *)
Lemma succ_mod (m n : nat) :
  n ≠ 0%nat ->
  (S m mod n = if S (m mod n) =? n then 0 else S (m mod n))%nat.
Proof.
  intros Hn. pose proof (Nat.mod_upper_bound m n Hn) as Hlt.
  pose proof (Nat.div_mod_eq m n) as Hm.
  destruct (Nat.eqb_spec (S (m mod n)) n) as [Heq|Hne]; symmetry.
  - apply (Nat.mod_unique _ _ (S (m / n))); lia.
  - apply (Nat.mod_unique _ _ (m / n)); lia.
Qed.

Lemma omap_singleton {A B} (g : A → option B) (x : A) (y : B) :
  g x = Some y -> omap g [x] = [y].
Proof. intros H. cbn. by rewrite H. Qed.

(** With looping on, the delivery of a frame always arms a timeout: for
    the next frame, or for the restart after the last one. *)
Lemma schedule_deliver_loop depth p app f :
  playing p = true -> loop p = true -> frames p !! currentFrame p = Some f ->
  let r := scheduleNextFrame_rec (S depth) p app in
  r.2 = Returned
  ∧ frames r.1.1 = frames p ∧ streamId r.1.1 = streamId p
  ∧ loop r.1.1 = true ∧ playing r.1.1 = true
  ∧ currentFrame r.1.1 = S (currentFrame p)
  ∧ positionMs r.1.1 = MrrFrame.timestampMs f
  ∧ playbackTimer r.1.1 = Some (App.nextHandle app)
  ∧ App.emitted r.1.2
    = App.emitted app ++ App.delivery (streamId p) (MrrFrame.data f) app
  ∧ (∀ sid d, App.delivery sid d r.1.2 = App.delivery sid d app)
  ∧ App.nextHandle r.1.2 = S (App.nextHandle app)
  ∧ ∃ ms,
      App.timers r.1.2
      = <[App.nextHandle app :=
            mkTimeout ms
              (if (S (currentFrame p) <? length (frames p))%nat
               then NextFrame else LoopRestart)]> (App.timers app)
      ∧ ((length (frames p) <= S (currentFrame p))%nat -> ms = 100).
Proof.
  intros Hplaying Hloop Hf. cbv zeta.
  rewrite (schedule_deliver _ _ _ f), Hloop by done. cbv zeta.
  rewrite <- emitted_emitData.
  destruct (frames p !! S (currentFrame p)) as [next|] eqn:Hnext.
  - pose proof (lookup_lt_Some _ _ _ Hnext) as Hlt.
    destruct (Nat.ltb_spec (S (currentFrame p)) (length (frames p))); [|lia].
    cbn [fst snd]. do 4 (split; [done|]). split; [exact Hplaying|].
    do 2 (split; [done|]).
    split; [cbn; by rewrite nextHandle_emitData|]. split; [done|].
    split; [intros; apply delivery_emitData|].
    split; [cbn; by rewrite nextHandle_emitData|].
    eexists. split; [cbn; by rewrite nextHandle_emitData, timers_emitData|].
    intros. lia.
  - apply lookup_ge_None in Hnext.
    destruct (Nat.ltb_spec (S (currentFrame p)) (length (frames p))); [lia|].
    cbn [fst snd]. do 4 (split; [done|]). split; [exact Hplaying|].
    do 2 (split; [done|]).
    split; [cbn; by rewrite nextHandle_emitData|]. split; [done|].
    split; [intros; apply delivery_emitData|].
    split; [cbn; by rewrite nextHandle_emitData|].
    exists 100. split; [cbn; by rewrite nextHandle_emitData, timers_emitData|].
    done.
Qed.

(** Playback left alone with looping on, from any index up to the end:
    [play], and then the first [k] timeouts as they come due.  Every one
    of them delivers a frame, and after the last frame comes the first. *)
Lemma cycle_run p app k :
  playing p = false -> loop p = true -> frames p ≠ [] ->
  (currentFrame p <= length (frames p))%nat ->
  let n := length (frames p) in
  let s := run_events (p, app) (Play :: fires (App.nextHandle app) k) in
  frames s.1 = frames p ∧ streamId s.1 = streamId p
  ∧ loop s.1 = true ∧ playing s.1 = true
  ∧ currentFrame s.1 = S ((currentFrame p + k) mod n)
  ∧ (∀ sid d, App.delivery sid d s.2 = App.delivery sid d app)
  ∧ App.emitted s.2
    = App.emitted app
      ++ (omap (λ j, frames p !! ((currentFrame p + j) mod n)%nat) (seq 0 (S k))
            ≫= λ f, App.delivery (streamId p) (MrrFrame.data f) app)
  ∧ App.nextHandle s.2 = (App.nextHandle app + S k)%nat
  ∧ ∃ ms,
      App.timers s.2 !! (App.nextHandle app + k)%nat
      = Some (mkTimeout ms
                (if (S ((currentFrame p + k) mod n) <? n)%nat
                 then NextFrame else LoopRestart))
      ∧ ((n <= S ((currentFrame p + k) mod n))%nat -> ms = 100).
Proof.
  intros Hplaying Hloop Hne Hle. cbv zeta.
  assert (Hn : length (frames p) ≠ 0%nat) by (by destruct (frames p)).
  induction k as [|k IH].
  - cbn [fires seq fmap list_fmap run_events foldl step]. unfold play.
    rewrite Hplaying. unfold scheduleNextFrame. rewrite !Nat.add_0_r.
    destruct (frame_at (set_playing p true)) as [Hend|[f Hf]].
    + cbn in Hend. assert (currentFrame p = length (frames p)) as Hc by lia.
      destruct (lookup_lt_is_Some_2 (frames p) 0) as [f Hf]; [lia|].
      rewrite schedule_end by done.
      change (loop (set_playing p true)) with (loop p). rewrite Hloop.
      destruct (schedule_deliver_loop 0 (set_position (set_playing p true) 0 0)
                  app f)
        as (_ & Hframes & Hsid & Hloop' & Hplaying' & Hcurrent & _ & _
            & Hemitted & Hdelivery & Hhandle & ms & Htimers & Hms); [done..|].
      cbn [frames streamId currentFrame set_position set_playing] in *.
      rewrite Hc, Nat.Div0.mod_same.
      do 4 (split; [done|]). split; [done|]. split; [done|].
      split.
      { rewrite Hemitted. change (seq 0 1) with [0%nat].
        rewrite (omap_singleton _ 0%nat f)
          by (by rewrite Nat.add_0_r, Nat.Div0.mod_same).
        cbn. by rewrite app_nil_r. }
      split; [lia|]. exists ms. rewrite Htimers, lookup_insert_eq. done.
    + cbn in Hf. pose proof (lookup_lt_Some _ _ _ Hf) as Hlt.
      destruct (schedule_deliver_loop 1 (set_playing p true) app f)
        as (_ & Hframes & Hsid & Hloop' & Hplaying' & Hcurrent & _ & _
            & Hemitted & Hdelivery & Hhandle & ms & Htimers & Hms); [done..|].
      cbn [frames streamId currentFrame set_position set_playing] in *.
      rewrite Nat.mod_small by done.
      do 4 (split; [done|]). split; [done|]. split; [done|].
      split.
      { rewrite Hemitted. change (seq 0 1) with [0%nat].
        rewrite (omap_singleton _ 0%nat f)
          by (by rewrite Nat.add_0_r, Nat.mod_small).
        cbn. by rewrite app_nil_r. }
      split; [lia|]. exists ms. rewrite Htimers, lookup_insert_eq. done.
  - destruct IH as (Hframes & Hsid & Hloop' & Hplaying' & Hcurrent & Hdelivery
                    & Hemitted & Hhandle & ms & Htimer & _).
    replace (Play :: fires (App.nextHandle app) (S k))
      with ((Play :: fires (App.nextHandle app) k)
              ++ [Fire (App.nextHandle app + k)%nat])
      by (unfold fires; by rewrite seq_S, fmap_app).
    unfold run_events in *. rewrite foldl_app.
    destruct (foldl step (p, app) (Play :: fires (App.nextHandle app) k))
      as [p1 app1]. cbn [fst snd] in *.
    cbn [foldl step]. rewrite Htimer. cbn [callback].
    pose proof (Nat.mod_upper_bound (currentFrame p + k) _ Hn) as Hi.
    pose proof (succ_mod (currentFrame p + k) _ Hn) as Hsucc.
    rewrite <- Nat.add_succ_r in Hsucc.
    set (i := ((currentFrame p + k) mod length (frames p))%nat) in *.
    set (i' := ((currentFrame p + S k) mod length (frames p))%nat) in *.
    assert (Hstep : ∃ f p0,
      frames p !! i' = Some f
      ∧ playing p0 = true ∧ loop p0 = true ∧ frames p0 = frames p
      ∧ streamId p0 = streamId p ∧ currentFrame p0 = i'
      ∧ run (if (S i <? length (frames p))%nat then NextFrame else LoopRestart)
          p1 (App.clearTimeout (App.nextHandle app + k) app1)
        = scheduleNextFrame_rec 2 p0
            (App.clearTimeout (App.nextHandle app + k) app1)).
    { destruct (Nat.ltb_spec (S i) (length (frames p))) as [Hlt|Hge].
      - destruct (Nat.eqb_spec (S i) (length (frames p))); [lia|].
        destruct (lookup_lt_is_Some_2 (frames p) i') as [f Hf]; [lia|].
        exists f, p1. split_and!; try done; congruence.
      - destruct (Nat.eqb_spec (S i) (length (frames p))); [|lia].
        destruct (lookup_lt_is_Some_2 (frames p) i') as [f Hf]; [lia|].
        exists f, (set_position p1 0 0). split_and!; try done; cbn; congruence. }
    destruct Hstep as (f & p0 & Hf & Hplaying0 & Hloop0 & Hframes0 & Hsid0
                       & Hcurrent0 & ->).
    destruct (schedule_deliver_loop 1 p0
                (App.clearTimeout (App.nextHandle app + k) app1) f)
      as (_ & Hframes2 & Hsid2 & Hloop2 & Hplaying2 & Hcurrent2 & _ & _
          & Hemitted2 & Hdelivery2 & Hhandle2 & ms2 & Htimers2 & Hms2);
      [done|done|by rewrite Hframes0, Hcurrent0|].
    rewrite Hframes0, Hcurrent0, Hsid0 in *.
    split; [done|]. split; [done|]. do 2 (split; [done|]). split; [done|].
    split; [intros sid d; rewrite Hdelivery2; apply Hdelivery|].
    split.
    { rewrite Hemitted2.
      change (App.emitted (App.clearTimeout _ app1)) with (App.emitted app1).
      change (App.delivery (streamId p) (MrrFrame.data f)
                (App.clearTimeout (App.nextHandle app + k) app1))
        with (App.delivery (streamId p) (MrrFrame.data f) app1).
      rewrite Hemitted, Hdelivery.
      rewrite (seq_S (S k)), omap_app, bind_app, <- app_assoc.
      change (0 + S k)%nat with (S k).
      rewrite (omap_singleton _ (S k) f) by done.
      cbn. by rewrite app_nil_r. }
    split; [rewrite Hhandle2; cbn; lia|].
    exists ms2. rewrite Htimers2. cbn [App.nextHandle App.clearTimeout].
    rewrite Hhandle.
    replace (App.nextHandle app + S k)%nat
      with (S (App.nextHandle app + k)) by lia.
    by rewrite lookup_insert_eq.
Qed.

(** C10.  A player is constructed with looping on, and [load] leaves the
    flag alone: after a load that succeeds the status reports
    [loopPlayback] true, and it keeps doing so whatever happens short of an
    assignment to the flag.  With the flag on, a recording that has at
    least one frame is played round and round.  The delivery of the last
    frame arms a timeout of 100 ms whose callback goes back to index 0 and
    delivers the first frame again; when the index is already past the
    last frame (as for [play] after a pause at the end) the first frame is
    delivered at once; and so the playback of a loaded player, left alone,
    never ends: [play] and every timeout after it deliver a frame, the
    frame after the last one being the first.  The status route answers
    [loopPlayback] true, too, when no player is loaded.

    A recording without frames is the case the code misses.  Such a file
    loads (its footer counts no frame) and looping is on; but
    [scheduleNextFrame], which finds the index at the end, goes back to
    index 0 and calls itself, finds the index at the end again, without
    end: [play] is left by the RangeError of the exhausted call stack, no
    frame delivered and no timeout armed. *)
Theorem looping_on_by_default :
  (∀ filename, loop (MrrPlayer.new filename) = true)
  ∧ (∀ filename data p,
       MrrPlayer.load (MrrPlayer.new filename) data = Ok p ->
       loop p = true ∧ loopPlayback (getStatus p) = true)
  ∧ (∀ filename data p app evs,
       MrrPlayer.load (MrrPlayer.new filename) data = Ok p ->
       Forall (λ ev, ∀ b, ev ≠ SetLoop b) evs ->
       loopPlayback (getStatus (run_events (p, app) evs).1) = true)
  ∧ (∀ p app last first,
       playing p = true -> loop p = true ->
       frames p !! currentFrame p = Some last ->
       length (frames p) = S (currentFrame p) ->
       frames p !! 0%nat = Some first ->
       ∃ p1 app1 h,
         scheduleNextFrame p app = (p1, app1, Returned)
         ∧ playing p1 = true
         ∧ playbackTimer p1 = Some h
         ∧ App.timers app1 = <[h := mkTimeout 100 LoopRestart]> (App.timers app)
         ∧ currentFrame (step (p1, app1) (Fire h)).1 = 1%nat
         ∧ positionMs (step (p1, app1) (Fire h)).1 = MrrFrame.timestampMs first
         ∧ playing (step (p1, app1) (Fire h)).1 = true
         ∧ App.emitted (step (p1, app1) (Fire h)).2
           = App.emitted app1
             ++ App.delivery (streamId p) (MrrFrame.data first) app)
  ∧ (∀ p app first,
       playing p = true -> loop p = true ->
       (length (frames p) <= currentFrame p)%nat ->
       frames p !! 0%nat = Some first ->
       ∃ p1 app1 h t,
         scheduleNextFrame p app = (p1, app1, Returned)
         ∧ playing p1 = true
         ∧ currentFrame p1 = 1%nat
         ∧ positionMs p1 = MrrFrame.timestampMs first
         ∧ App.emitted app1
           = App.emitted app
             ++ App.delivery (streamId p) (MrrFrame.data first) app
         ∧ playbackTimer p1 = Some h
         ∧ App.timers app1 = <[h := t]> (App.timers app))
  ∧ (∀ filename data p app k,
       MrrPlayer.load (MrrPlayer.new filename) data = Ok p ->
       frames p ≠ [] ->
       let n := length (frames p) in
       let s := run_events (p, app) (Play :: fires (App.nextHandle app) k) in
       playing s.1 = true
       ∧ loopPlayback (getStatus s.1) = true
       ∧ currentFrame s.1 = S (k mod n)
       ∧ App.emitted s.2
         = App.emitted app
           ++ (omap (λ j, frames p !! (j mod n)%nat) (seq 0 (S k))
                 ≫= λ f, App.delivery (streamId p) (MrrFrame.data f) app)
       ∧ ∃ ms,
           App.timers s.2 !! (App.nextHandle app + k)%nat
           = Some (mkTimeout ms
                     (if (S (k mod n) <? n)%nat then NextFrame else LoopRestart)))
  ∧ status_route None = NoPlayer "idle" true
  ∧ (∀ p app,
       playing p = false -> loop p = true -> frames p = [] ->
       play p app
       = (set_position (set_playing p true) 0 0, app, Thrown RangeError))
  ∧ (∃ p,
       MrrPlayer.load (MrrPlayer.new "empty.mrr") Sample.empty_recording = Ok p
       ∧ loop p = true ∧ frames p = [] ∧ frameCount p = 0
       ∧ (play p Sample.app).2 = Thrown RangeError
       ∧ App.emitted (play p Sample.app).1.2 = []
       ∧ App.timers (play p Sample.app).1.2 = ∅).
Proof.
  split; [done|].
  split; [intros filename data p Hload; cbn;
          by rewrite (load_keeps_loop _ _ _ Hload)|].
  split.
  { intros filename data p app evs Hload Hevs. cbn.
    rewrite loop_run by done. cbn. by rewrite (load_keeps_loop _ _ _ Hload). }
  split.
  { intros p app last first Hplaying Hloop Hlast Hlen Hfirst.
    unfold scheduleNextFrame.
    rewrite (schedule_deliver 1 p app last), Hloop by done. cbv zeta.
    rewrite (lookup_ge_None_2 (frames p) (S (currentFrame p))) by lia.
    rewrite nextHandle_emitData.
    set (p1 := set_playbackTimer _ _). set (app1 := (App.setTimeout _ _ _).2).
    exists p1, app1, (App.nextHandle app).
    split; [done|]. split; [exact Hplaying|]. split; [done|].
    split; [cbn; by rewrite nextHandle_emitData, timers_emitData|].
    assert (Hfire : step (p1, app1) (Fire (App.nextHandle app))
                    = (scheduleNextFrame (set_position p1 0 0)
                         (App.clearTimeout (App.nextHandle app) app1)).1).
    { cbn -[scheduleNextFrame]. rewrite nextHandle_emitData.
      by rewrite lookup_insert_eq. }
    rewrite Hfire. unfold scheduleNextFrame.
    rewrite (schedule_deliver 1 (set_position p1 0 0) _ first) by done.
    cbv zeta. change (streamId (set_position p1 0 0)) with (streamId p).
    change (loop (set_position p1 0 0)) with (loop p). rewrite Hloop.
    split; [by repeat case_match|]. split; [by repeat case_match|].
    split; [repeat case_match; exact Hplaying|].
    transitivity (App.emitted (App.emitData (streamId p) (MrrFrame.data first)
                                 (App.clearTimeout (App.nextHandle app) app1))).
    { by repeat case_match. }
    rewrite emitted_emitData. f_equal.
    unfold App.delivery, app1. by destruct app as [? ? [?|] ?]. }
  split.
  { intros p app first Hplaying Hloop Hend Hfirst.
    unfold scheduleNextFrame. rewrite schedule_end, Hloop by done.
    destruct (schedule_deliver_loop 0 (set_position p 0 0) app first)
      as (Hreturned & _ & _ & _ & Hplaying' & Hcurrent & Hposition & Htimer
          & Hemitted & _ & _ & ms & Htimers & _); [done..|].
    destruct (scheduleNextFrame_rec 1 (set_position p 0 0) app)
      as [[p1 app1] c]. cbn [fst snd] in *. subst c.
    exists p1, app1, (App.nextHandle app). eexists.
    split; [done|]. do 5 (split; [done|]). exact Htimers. }
  split.
  { intros filename data p app k Hload Hne. cbv zeta.
    destruct (load_keeps_playback _ _ _ Hload) as (Hplaying & Hcurrent & _).
    pose proof (load_keeps_loop _ _ _ Hload) as Hloop.
    cbn in Hplaying, Hcurrent, Hloop.
    destruct (cycle_run p app k Hplaying Hloop Hne)
      as (_ & _ & Hloop' & Hplaying' & Hcurrent' & _ & Hemitted & _
          & ms & Htimer & _); [lia|].
    rewrite Hcurrent in Hcurrent', Hemitted, Htimer.
    split; [done|]. split; [done|]. split; [exact Hcurrent'|].
    split; [exact Hemitted|]. exists ms. exact Htimer. }
  split; [done|].
  split.
  { intros p app Hplaying Hloop Hframes.
    destruct (play_cases p app) as [(_ & _ & _ & Hplay)|[[H|[H|H]] _]];
      [done|congruence..]. }
  eexists. split; [vm_compute; reflexivity|].
  repeat split.
Qed.

Lemma looping_on_by_default_witness :
  loopPlayback (getStatus Sample.player) = true
  ∧ loopPlayback
      (getStatus (run_events (Sample.player, Sample.app)
                    [Play; Fire 0; Pause; Play; Fire 2]).1) = true
  ∧ (∃ p1 app1 h,
       scheduleNextFrame (set_position (set_playing Sample.player true) 3 250)
         Sample.app = (p1, app1, Returned)
       ∧ App.timers app1 = <[h := mkTimeout 100 LoopRestart]> ∅
       ∧ currentFrame (step (p1, app1) (Fire h)).1 = 1%nat
       ∧ positionMs (step (p1, app1) (Fire h)).1 = 0)
  ∧ (∃ p1 app1,
       scheduleNextFrame (set_position (set_playing Sample.player true) 4 250)
         Sample.app = (p1, app1, Returned)
       ∧ currentFrame p1 = 1%nat)
  ∧ currentFrame
      (run_events (Sample.player, Sample.app) (Play :: fires 0 9)).1 = 2%nat
  ∧ (play Sample.empty_player Sample.app).2 = Thrown RangeError.
Proof.
  destruct looping_on_by_default
    as (_ & Hload & Hrun & Hwrap & Hrestart & Hcycle & _ & Hempty & _).
  split; [|split; [|split; [|split; [|split]]]].
  - apply (Hload "demo.mrr" Sample.recording). vm_compute. reflexivity.
  - apply (Hrun "demo.mrr" Sample.recording).
    + vm_compute. reflexivity.
    + repeat constructor; discriminate.
  - destruct (Hwrap (set_position (set_playing Sample.player true) 3 250)
                Sample.app
                (MrrFrame.mk 250 0 (Sample.text "spoke3") None)
                (MrrFrame.mk 0 0 (Sample.text "spoke0") None))
      as (p1 & app1 & h & H1 & _ & _ & H2 & H3 & H4 & _); [reflexivity..|].
    exists p1, app1, h. repeat split; assumption.
  - destruct (Hrestart (set_position (set_playing Sample.player true) 4 250)
                Sample.app
                (MrrFrame.mk 0 0 (Sample.text "spoke0") None))
      as (p1 & app1 & h & t & H1 & _ & H2 & _);
      [reflexivity|reflexivity|vm_compute; lia|reflexivity|].
    exists p1, app1. split; assumption.
  - destruct (Hcycle "demo.mrr" Sample.recording Sample.player Sample.app 9%nat)
      as (_ & _ & Hcurrent & _); [vm_compute; reflexivity|discriminate|].
    exact Hcurrent.
  - rewrite (Hempty Sample.empty_player Sample.app); reflexivity.
Defined.

(** The recording of four frames at 0, 100, 250 and 250 ms, played with
    looping on: the timeouts follow each other with delays of 100, 150, 1
    and, before the restart, 100 ms, and the restart delivers the first
    frame again. *)
Example sample_playback :
  let after evs := run_events (Sample.player, Sample.app) evs in
  App.timers (after [Play]).2 = {[ 0%nat := mkTimeout 100 NextFrame ]}
  ∧ App.timers (after [Play; Fire 0]).2 = {[ 1%nat := mkTimeout 150 NextFrame ]}
  ∧ App.timers (after [Play; Fire 0; Fire 1]).2
    = {[ 2%nat := mkTimeout 1 NextFrame ]}
  ∧ App.timers (after [Play; Fire 0; Fire 1; Fire 2]).2
    = {[ 3%nat := mkTimeout 100 LoopRestart ]}
  ∧ App.timers (after [Play; Fire 0; Fire 1; Fire 2; Fire 3]).2
    = {[ 4%nat := mkTimeout 100 NextFrame ]}
  ∧ snd <$> App.emitted (after [Play; Fire 0; Fire 1; Fire 2; Fire 3]).2
    = Sample.text <$> ["spoke0"; "spoke1"; "spoke2"; "spoke3"; "spoke0"]
  ∧ getStatus (after [Play; Fire 0; Fire 1; Fire 2]).1
    = mkStatus "playing" (Some "playback-demo") "demo.mrr" 250 250 4 4 true.
Proof. vm_compute. repeat split. Qed.

(** * Further properties of the reader *)

(** ** Header and footer *)

Lemma window_take buf m i n :
  0 <= i -> 0 <= n -> i + n <= Z.of_nat m ->
  Buf.window (take m buf) i n = Buf.window buf i n.
Proof.
  intros Hi Hn Hm. unfold Buf.window.
  replace m with (Z.to_nat i + (m - Z.to_nat i))%nat at 1 by lia.
  rewrite <- take_drop_commute, take_take. f_equal. lia.
Qed.

Lemma le_value_bound bs : Buf.le_value bs < 256 ^ Buf.length bs.
Proof.
  unfold Buf.length.
  induction bs as [|b bs IH]; [simpl; lia|].
  cbn [Buf.le_value List.length]. rewrite Nat2Z.inj_succ, Z.pow_succ_r by lia.
  pose proof (byte_val_range b). lia.
Qed.

Lemma equals_refl a : Buf.equals a a = true.
Proof. by apply equals_spec. Qed.

(** The header that [MrrHeader.fromBuffer] reads from a buffer it
    accepts. *)
Lemma header_read buf :
  HEADER_SIZE <= Buf.length buf -> take 4 buf = MRR_MAGIC ->
  Buf.le_value (Buf.window buf 4 2) <= MRR_VERSION ->
  MrrHeader.fromBuffer buf
  = Ok (MrrHeader.mk
          (Buf.le_value (Buf.window buf 4 2))
          (Buf.le_value (Buf.window buf 6 2))
          (Buf.le_value (Buf.window buf 8 4))
          (Buf.le_value (Buf.window buf 12 4))
          (Buf.le_value (Buf.window buf 16 4))
          (Buf.le_value (Buf.window buf 20 4))
          (Number_of_BigInt (Buf.le_value (Buf.window buf 24 8)))
          (Number_of_BigInt (Buf.le_value (Buf.window buf 32 8)))
          (Buf.le_value (Buf.window buf 40 4))
          (Number_of_BigInt (Buf.le_value (Buf.window buf 44 8)))
          (Buf.le_value (Buf.window buf 52 4))
          (Number_of_BigInt (Buf.le_value (Buf.window buf 56 8)))).
Proof.
  intros Hlen Hmagic Hver. unfold MrrHeader.fromBuffer, HEADER_SIZE in *.
  destruct (Z.ltb_spec (Buf.length buf) 256); [lia|].
  rewrite first_four_bytes, Hmagic, equals_refl by lia. cbv iota. cbn [negb].
  rewrite (readU16_ok buf 4), bind_Ok by lia.
  destruct (Z.ltb_spec MRR_VERSION (Buf.le_value (Buf.window buf 4 2))); [lia|].
  by rewrite (readU16_ok buf 6), (readU32_ok buf 8), (readU32_ok buf 12),
    (readU32_ok buf 16), (readU32_ok buf 20), (readU64_ok buf 24),
    (readU64_ok buf 32), (readU32_ok buf 40), (readU64_ok buf 44),
    (readU32_ok buf 52), (readU64_ok buf 56) by lia.
Qed.

(** The three ways a header is refused, and the one way it is accepted. *)
Lemma header_cases buf :
  (Buf.length buf < HEADER_SIZE
   ∧ MrrHeader.fromBuffer buf
     = Throw (Error (BufferTooSmallForHeader (Buf.length buf))))
  ∨ (HEADER_SIZE <= Buf.length buf ∧ take 4 buf ≠ MRR_MAGIC
     ∧ MrrHeader.fromBuffer buf = Throw (Error BadMagicBytes))
  ∨ (HEADER_SIZE <= Buf.length buf ∧ take 4 buf = MRR_MAGIC
     ∧ MRR_VERSION < Buf.le_value (Buf.window buf 4 2)
     ∧ MrrHeader.fromBuffer buf
       = Throw (Error (UnsupportedMrrVersion (Buf.le_value (Buf.window buf 4 2)))))
  ∨ (HEADER_SIZE <= Buf.length buf ∧ take 4 buf = MRR_MAGIC
     ∧ Buf.le_value (Buf.window buf 4 2) <= MRR_VERSION
     ∧ ∃ h, MrrHeader.fromBuffer buf = Ok h).
Proof.
  destruct (Z.lt_ge_cases (Buf.length buf) HEADER_SIZE) as [Hlen|Hlen];
    [left; split; [done|by apply header_too_small]|right].
  destruct (decide (take 4 buf = MRR_MAGIC)) as [Hmagic|Hmagic];
    [right|left; split; [done|split; [done|by apply header_bad_magic]]].
  destruct (Z.lt_ge_cases MRR_VERSION (Buf.le_value (Buf.window buf 4 2)))
    as [Hver|Hver].
  - left. do 3 (split; [done|]). by apply header_bad_version.
  - right. do 3 (split; [done|]). eexists. by apply header_read.
Qed.

(** X1.  [MrrHeader.fromBuffer] accepts a buffer exactly when it has at
    least 256 bytes, starts with the magic bytes and has a version of at
    most 1 (version 0 included); the header it then returns holds the
    little-endian fields at the offsets 4, 6, 8, 12, 16, 20, 24, 32, 40,
    44, 52 and 56, the 64-bit ones converted by [Number].  It never throws
    anything but its own three errors: no read of a field is out of
    range. *)
Theorem header_accepted_iff (buf : Buffer) :
  ((∃ h, MrrHeader.fromBuffer buf = Ok h)
   <-> HEADER_SIZE <= Buf.length buf ∧ take 4 buf = MRR_MAGIC
       ∧ Buf.le_value (Buf.window buf 4 2) <= MRR_VERSION)
  ∧ (∀ h, MrrHeader.fromBuffer buf = Ok h ->
       MrrHeader.version h = Buf.le_value (Buf.window buf 4 2)
       ∧ MrrHeader.flags h = Buf.le_value (Buf.window buf 6 2)
       ∧ MrrHeader.radarBrand h = Buf.le_value (Buf.window buf 8 4)
       ∧ MrrHeader.spokesPerRev h = Buf.le_value (Buf.window buf 12 4)
       ∧ MrrHeader.maxSpokeLen h = Buf.le_value (Buf.window buf 16 4)
       ∧ MrrHeader.pixelValues h = Buf.le_value (Buf.window buf 20 4)
       ∧ MrrHeader.startTimeMs h
         = Number_of_BigInt (Buf.le_value (Buf.window buf 24 8))
       ∧ MrrHeader.capabilitiesOffset h
         = Number_of_BigInt (Buf.le_value (Buf.window buf 32 8))
       ∧ MrrHeader.capabilitiesLen h = Buf.le_value (Buf.window buf 40 4)
       ∧ MrrHeader.initialStateOffset h
         = Number_of_BigInt (Buf.le_value (Buf.window buf 44 8))
       ∧ MrrHeader.initialStateLen h = Buf.le_value (Buf.window buf 52 4)
       ∧ MrrHeader.framesOffset h
         = Number_of_BigInt (Buf.le_value (Buf.window buf 56 8)))
  ∧ (∀ e, MrrHeader.fromBuffer buf = Throw e -> ∃ msg, e = Error msg).
Proof.
  destruct (header_cases buf)
    as [[Hlen He]|[(Hlen & Hmagic & He)|[(Hlen & Hmagic & Hver & He)
        |(Hlen & Hmagic & Hver & h & Hh)]]].
  - rewrite He. split; [split; [by intros [? ?]|lia]|].
    split; [done|]. intros e [= <-]. eauto.
  - rewrite He. split; [split; [by intros [? ?]|tauto]|].
    split; [done|]. intros e [= <-]. eauto.
  - rewrite He. split; [split; [by intros [? ?]|lia]|].
    split; [done|]. intros e [= <-]. eauto.
  - split; [split; eauto|]. split; [|by rewrite Hh].
    intros h' Hh'. rewrite header_read in Hh' by done.
    injection Hh' as <-. cbn. repeat split.
Qed.

(** X2.  [MrrHeader.fromBuffer] looks at the first 64 bytes only: two
    buffers of at least 256 bytes that agree on them are decoded, or
    refused, alike, whatever the remaining 192 bytes of the header and the
    bytes after it hold. *)
Theorem header_ignores_padding (a b : Buffer) :
  HEADER_SIZE <= Buf.length a -> HEADER_SIZE <= Buf.length b ->
  take 64 a = take 64 b ->
  MrrHeader.fromBuffer a = MrrHeader.fromBuffer b.
Proof.
  intros Ha Hb Hab.
  assert (Hw : ∀ i n, 0 <= i -> 0 <= n -> i + n <= 64 ->
                      Buf.window a i n = Buf.window b i n).
  { intros i n Hi Hn Hin.
    rewrite <- (window_take a 64), <- (window_take b 64) by lia.
    by rewrite Hab. }
  assert (H4 : take 4 a = take 4 b).
  { transitivity (take 4 (take 64 a)); [by rewrite take_take|].
    rewrite Hab. by rewrite take_take. }
  destruct (header_cases a)
    as [[Hlen _]|[(_ & Hmagic & ->)|[(_ & Hmagic & Hver & ->)
        |(_ & Hmagic & Hver & _)]]].
  - lia.
  - symmetry. apply header_bad_magic; [done|by rewrite <- H4].
  - rewrite (Hw 4 2) in * by lia. symmetry.
    apply header_bad_version; [done|by rewrite <- H4|done].
  - rewrite (header_read a), (header_read b);
      [|done|by rewrite <- H4|by rewrite <- (Hw 4 2) by lia|done..].
    by rewrite !(Hw _ _) by lia.
Qed.

Lemma header_ignores_padding_witness :
  MrrHeader.fromBuffer (take 64 Sample.recording ++ replicate 500 xff%byte)
  = MrrHeader.fromBuffer Sample.recording.
Proof.
  apply header_ignores_padding; [decide_Z..|reflexivity].
Defined.

Lemma header_accepted_iff_witness :
  ∃ h, MrrHeader.fromBuffer Sample.recording = Ok h
       ∧ MrrHeader.version h = 1
       ∧ MrrHeader.initialStateOffset h = 258
       ∧ MrrHeader.framesOffset h = 260.
Proof.
  destruct (header_accepted_iff Sample.recording) as ([_ Haccept] & Hfields & _).
  destruct Haccept as [h Hh]; [split; [decide_Z|split; decide_Z]|].
  destruct (Hfields h Hh)
    as (Hv & _ & _ & _ & _ & _ & _ & _ & _ & Hs & _ & Hf).
  exists h. repeat split; assumption.
Defined.

Lemma footer_too_small buf :
  Buf.length buf < FOOTER_SIZE ->
  MrrFooter.fromBuffer buf
  = Throw (Error (BufferTooSmallForFooter (Buf.length buf))).
Proof.
  intros H. unfold MrrFooter.fromBuffer.
  by destruct (Z.ltb_spec (Buf.length buf) FOOTER_SIZE); [|lia].
Qed.

Lemma footer_bad_magic buf :
  FOOTER_SIZE <= Buf.length buf -> take 4 buf ≠ MRR_FOOTER_MAGIC ->
  MrrFooter.fromBuffer buf = Throw (Error BadFooterMagicBytes).
Proof.
  intros Hlen Hmagic. unfold MrrFooter.fromBuffer, FOOTER_SIZE in *.
  destruct (Z.ltb_spec (Buf.length buf) 32); [lia|].
  rewrite first_four_bytes by lia.
  destruct (Buf.equals (take 4 buf) MRR_FOOTER_MAGIC) eqn:E; [|reflexivity].
  by apply equals_spec in E.
Qed.

Lemma footer_read buf :
  FOOTER_SIZE <= Buf.length buf -> take 4 buf = MRR_FOOTER_MAGIC ->
  MrrFooter.fromBuffer buf
  = Ok (MrrFooter.mk
          (Number_of_BigInt (Buf.le_value (Buf.window buf 4 8)))
          (Buf.le_value (Buf.window buf 12 4))
          (Buf.le_value (Buf.window buf 16 4))
          (Number_of_BigInt (Buf.le_value (Buf.window buf 20 8)))).
Proof.
  intros Hlen Hmagic. unfold MrrFooter.fromBuffer, FOOTER_SIZE in *.
  destruct (Z.ltb_spec (Buf.length buf) 32); [lia|].
  rewrite first_four_bytes, Hmagic, equals_refl by lia. cbv iota. cbn [negb].
  by rewrite (readU64_ok buf 4), (readU32_ok buf 12), (readU32_ok buf 16),
    (readU64_ok buf 20) by lia.
Qed.

(** X3.  [MrrFooter.fromBuffer] accepts a buffer exactly when it has at
    least 32 bytes and starts with the footer magic; the footer holds the
    little-endian fields at the offsets 4, 12, 16 and 20, and nothing of
    the buffer from byte 28 on is looked at.  A buffer it refuses gets one
    of its two errors, for the size first and for the magic bytes
    second. *)
Theorem footer_accepted_iff (buf : Buffer) :
  ((∃ f, MrrFooter.fromBuffer buf = Ok f)
   <-> FOOTER_SIZE <= Buf.length buf ∧ take 4 buf = MRR_FOOTER_MAGIC)
  ∧ (∀ f, MrrFooter.fromBuffer buf = Ok f ->
       MrrFooter.indexOffset f
       = Number_of_BigInt (Buf.le_value (Buf.window buf 4 8))
       ∧ MrrFooter.indexCount f = Buf.le_value (Buf.window buf 12 4)
       ∧ MrrFooter.frameCount f = Buf.le_value (Buf.window buf 16 4)
       ∧ MrrFooter.durationMs f
         = Number_of_BigInt (Buf.le_value (Buf.window buf 20 8))
       ∧ 0 <= MrrFooter.frameCount f < 2 ^ 32
       ∧ ∀ other, FOOTER_SIZE <= Buf.length other ->
                  take 28 other = take 28 buf ->
                  MrrFooter.fromBuffer other = Ok f)
  ∧ (∀ e, MrrFooter.fromBuffer buf = Throw e ->
       e = (if Buf.length buf <? FOOTER_SIZE
            then Error (BufferTooSmallForFooter (Buf.length buf))
            else Error BadFooterMagicBytes)).
Proof.
  destruct (Z.ltb_spec (Buf.length buf) FOOTER_SIZE) as [Hlen|Hlen].
  { rewrite footer_too_small by done.
    split; [split; [by intros [? ?]|lia]|]. split; [done|]. by intros e [= <-]. }
  destruct (decide (take 4 buf = MRR_FOOTER_MAGIC)) as [Hmagic|Hmagic].
  2:{ rewrite footer_bad_magic by done.
      split; [split; [by intros [? ?]|tauto]|]. split; [done|].
      by intros e [= <-]. }
  rewrite footer_read by done.
  split; [split; eauto|]. split; [|done].
  intros f [= <-]. cbn. do 4 (split; [done|]). split.
  - split; [apply le_value_nonneg|].
    pose proof (le_value_bound (Buf.window buf 16 4)) as Hb.
    rewrite window_length in Hb by (unfold FOOTER_SIZE in *; lia). exact Hb.
  - intros other Hother Htake.
    assert (Hw : ∀ i n, 0 <= i -> 0 <= n -> i + n <= 28 ->
                        Buf.window other i n = Buf.window buf i n).
    { intros i n Hi Hn Hin.
      rewrite <- (window_take other 28), <- (window_take buf 28) by lia.
      by rewrite Htake. }
    rewrite footer_read; [by rewrite !Hw by lia|done|].
    transitivity (take 4 (take 28 other)); [by rewrite take_take|].
    rewrite Htake, take_take. done.
Qed.

Lemma footer_accepted_iff_witness :
  ∃ f, MrrFooter.fromBuffer (drop 342 Sample.recording) = Ok f
       ∧ MrrFooter.frameCount f = 4
       ∧ MrrFooter.durationMs f = 250.
Proof.
  destruct (footer_accepted_iff (drop 342 Sample.recording))
    as ([_ Haccept] & Hfields & _).
  destruct Haccept as [f Hf]; [split; decide_Z|].
  destruct (Hfields f Hf) as (_ & _ & Hc & Hd & _).
  exists f. repeat split; assumption.
Defined.

(** ** What [load] checks, and in which order *)

(** [load] once the header is accepted. *)
Lemma load_after_header data h :
  MrrHeader.fromBuffer data = Ok h ->
  MrrReader.load data
  = (footer ← MrrFooter.fromBuffer
                (drop (Z.to_nat (Buf.length data - FOOTER_SIZE)) data);
     capabilities ← Buf.toString
                      (Buf.window data (MrrHeader.capabilitiesOffset h)
                         (MrrHeader.capabilitiesLen h)) ≫= JSON.parse;
     initialState ← Buf.toString
                      (Buf.window data (MrrHeader.initialStateOffset h)
                         (MrrHeader.initialStateLen h)) ≫= JSON.parse;
     Ok (MrrReader.mk data h footer capabilities initialState
           (MrrHeader.framesOffset h) 0)).
Proof.
  intros Hh. pose proof (header_ok_length _ _ Hh) as Hlen.
  destruct (header_offsets_nonneg _ _ Hh) as (Hco & Hcl & Hso & Hsl).
  unfold MrrReader.load, HEADER_SIZE in *. cbv zeta. rewrite Hh, bind_Ok.
  rewrite subarray_tail by (unfold FOOTER_SIZE; lia).
  by rewrite !subarray_window by done.
Qed.

Lemma footer_window_length data :
  HEADER_SIZE <= Buf.length data ->
  Buf.length (drop (Z.to_nat (Buf.length data - FOOTER_SIZE)) data) = FOOTER_SIZE.
Proof.
  unfold Buf.length, HEADER_SIZE, FOOTER_SIZE. rewrite length_drop. lia.
Qed.

(** X4.  Once the header is accepted, [load] looks for the footer in the
    last 32 bytes of the file, before it looks at the capabilities: a file
    whose last 32 bytes do not start with the footer magic, as when its
    end has been cut off, is refused with the error for bad footer magic
    bytes, whatever else it holds. *)
Theorem load_checks_footer (data : Buffer) (h : MrrHeader.t) :
  MrrHeader.fromBuffer data = Ok h ->
  take 4 (drop (Z.to_nat (Buf.length data - FOOTER_SIZE)) data)
  ≠ MRR_FOOTER_MAGIC ->
  MrrReader.load data = Throw (Error BadFooterMagicBytes)
  ∧ ∀ filename, MrrPlayer.load (MrrPlayer.new filename) data
                = Throw (Error BadFooterMagicBytes).
Proof.
  intros Hh Hmagic.
  assert (Hload : MrrReader.load data = Throw (Error BadFooterMagicBytes)).
  { rewrite (load_after_header _ _ Hh).
    rewrite footer_bad_magic; [done| |done].
    rewrite footer_window_length; [done|by eapply header_ok_length]. }
  split; [done|]. intros filename. unfold MrrPlayer.load. by rewrite Hload.
Qed.

Lemma load_checks_footer_witness :
  MrrReader.load Sample.cut_short = Throw (Error BadFooterMagicBytes).
Proof.
  eapply (load_checks_footer Sample.cut_short); [|decide_Z].
  vm_compute. reflexivity.
Defined.

(** X5.  What [load] does with the bytes of the file, once they are read
    and decompressed, ends in one of seven ways, tried in this order: the
    buffer is too small for a header; the header magic is wrong; the
    version is too high; the last 32 bytes do not start with the footer
    magic; for the capabilities and then for the initial state, what the
    buffer holds of the slice is too long to be a string (the Error of
    code 'ERR_STRING_TOO_LONG') or is not a JSON text (SyntaxError); or it
    returns the reader, with the two slices as its documents.  It throws
    nothing else: no RangeError, and never the error for a buffer too
    small for a footer, which a buffer that holds a header cannot be. *)
Theorem load_outcomes (data : Buffer) :
  let footerBuf := drop (Z.to_nat (Buf.length data - FOOTER_SIZE)) data in
  (Buf.length data < HEADER_SIZE
   ∧ MrrReader.load data
     = Throw (Error (BufferTooSmallForHeader (Buf.length data))))
  ∨ (HEADER_SIZE <= Buf.length data ∧ take 4 data ≠ MRR_MAGIC
     ∧ MrrReader.load data = Throw (Error BadMagicBytes))
  ∨ (HEADER_SIZE <= Buf.length data ∧ take 4 data = MRR_MAGIC
     ∧ MRR_VERSION < Buf.le_value (Buf.window data 4 2)
     ∧ MrrReader.load data
       = Throw (Error (UnsupportedMrrVersion
                         (Buf.le_value (Buf.window data 4 2)))))
  ∨ ((∃ h, MrrHeader.fromBuffer data = Ok h)
     ∧ take 4 footerBuf ≠ MRR_FOOTER_MAGIC
     ∧ MrrReader.load data = Throw (Error BadFooterMagicBytes))
  ∨ (∃ h f,
       MrrHeader.fromBuffer data = Ok h
       ∧ MrrFooter.fromBuffer footerBuf = Ok f
       ∧ let capBuf :=
           Buf.window data (MrrHeader.capabilitiesOffset h)
             (MrrHeader.capabilitiesLen h) in
         let stateBuf :=
           Buf.window data (MrrHeader.initialStateOffset h)
             (MrrHeader.initialStateLen h) in
         (Buf.MAX_STRING_LENGTH < Buf.length capBuf
          ∧ MrrReader.load data = Throw ErrStringTooLong)
         ∨ (Buf.length capBuf <= Buf.MAX_STRING_LENGTH
            ∧ JSON.valid capBuf = false
            ∧ MrrReader.load data = Throw SyntaxError)
         ∨ (Buf.length capBuf <= Buf.MAX_STRING_LENGTH
            ∧ JSON.valid capBuf = true
            ∧ Buf.MAX_STRING_LENGTH < Buf.length stateBuf
            ∧ MrrReader.load data = Throw ErrStringTooLong)
         ∨ (Buf.length capBuf <= Buf.MAX_STRING_LENGTH
            ∧ JSON.valid capBuf = true
            ∧ Buf.length stateBuf <= Buf.MAX_STRING_LENGTH
            ∧ JSON.valid stateBuf = false
            ∧ MrrReader.load data = Throw SyntaxError)
         ∨ (Buf.length capBuf <= Buf.MAX_STRING_LENGTH
            ∧ JSON.valid capBuf = true
            ∧ Buf.length stateBuf <= Buf.MAX_STRING_LENGTH
            ∧ JSON.valid stateBuf = true
            ∧ MrrReader.load data
              = Ok (MrrReader.mk data h f capBuf stateBuf
                      (MrrHeader.framesOffset h) 0))).
Proof.
  cbv zeta.
  destruct (header_cases data)
    as [[Hlen He]|[(Hlen & Hmagic & He)|[(Hlen & Hmagic & Hver & He)
        |(Hlen & Hmagic & Hver & h & Hh)]]].
  - left. split; [done|by apply load_header_throws].
  - right; left. do 2 (split; [done|]). by apply load_header_throws.
  - right; right; left. do 3 (split; [done|]). by apply load_header_throws.
  - do 3 right.
    destruct (decide (take 4 (drop (Z.to_nat (Buf.length data - FOOTER_SIZE)) data)
                      = MRR_FOOTER_MAGIC)) as [Hfm|Hfm].
    2:{ left. split; [eauto|]. split; [done|].
        rewrite (load_after_header _ _ Hh), footer_bad_magic; [done| |done].
        by rewrite footer_window_length. }
    right. rewrite (load_after_header _ _ Hh).
    rewrite footer_read; [|by rewrite footer_window_length|done].
    rewrite bind_Ok. eexists h, _. split; [done|]. split; [reflexivity|].
    destruct (decode_parse_cases
                (Buf.window data (MrrHeader.capabilitiesOffset h)
                   (MrrHeader.capabilitiesLen h)))
      as [[Hlong ->]|[(Hshort & Hvalid & ->)|(Hshort & Hvalid & ->)]].
    { by left. }
    { right; left. by do 2 (split; [done|]). }
    rewrite bind_Ok.
    destruct (decode_parse_cases
                (Buf.window data (MrrHeader.initialStateOffset h)
                   (MrrHeader.initialStateLen h)))
      as [[Hlong' ->]|[(Hshort' & Hvalid' & ->)|(Hshort' & Hvalid' & ->)]].
    { do 2 right; left. by do 3 (split; [done|]). }
    { do 3 right; left. by do 4 (split; [done|]). }
    do 4 right. by do 4 (split; [done|]).
Qed.

(** ** Frame records, whole or not *)

Lemma readU64_throw buf offset :
  offset < 0 \/ Buf.length buf < offset + 8 ->
  readU64 buf offset = Throw RangeError.
Proof.
  intros. unfold readU64, Buf.readBigUInt64LE. by rewrite readUIntLE_throw.
Qed.

Lemma fromBuffer_fixed_throw buf offset :
  offset < 0 ∨ Buf.length buf < offset + 13 ->
  MrrFrame.fromBuffer buf offset = Throw RangeError.
Proof.
  intros Hout. unfold MrrFrame.fromBuffer. cbv zeta.
  destruct (Z.lt_ge_cases offset 0); [by rewrite readU64_throw by lia|].
  destruct (Z.lt_ge_cases (Buf.length buf) (offset + 8));
    [by rewrite readU64_throw by lia|].
  rewrite readU64_ok, bind_Ok by lia.
  destruct (Z.lt_ge_cases (Buf.length buf) (offset + 9)).
  { unfold Buf.readUInt8. by rewrite readUIntLE_throw by lia. }
  rewrite readU8_ok, bind_Ok by lia.
  by rewrite readU32_throw by lia.
Qed.

(** X6.  [MrrFrame.fromBuffer] throws exactly when a field of fixed size
    does not lie in the buffer: the thirteen bytes of timestamp, flags and
    data length, or, with the state flag set, the four bytes of the state
    length after the declared data; and what it throws is always the
    RangeError of the [Buffer] read.  A length that runs past the end of
    the buffer is, by itself, no reason for it to throw. *)
Theorem frame_decode_throws_iff (buf : Buffer) (offset : Z) (e : JsError) :
  MrrFrame.fromBuffer buf offset = Throw e
  <-> e = RangeError
      ∧ (offset < 0 ∨ Buf.length buf < offset + 13
         ∨ (FrameRecord.hasState buf offset = true
            ∧ Buf.length buf
              < offset + 13 + FrameRecord.dataLen buf offset + 4)).
Proof.
  pose proof (dataLen_nonneg buf offset) as Hd.
  destruct (Z.lt_ge_cases offset 0) as [Ho|Ho];
    [rewrite fromBuffer_fixed_throw by lia; split;
       [intros [= <-]; split; [done|lia]|by intros [-> _]]|].
  destruct (Z.lt_ge_cases (Buf.length buf) (offset + 13)) as [Hf|Hf];
    [rewrite fromBuffer_fixed_throw by lia; split;
       [intros [= <-]; split; [done|lia]|by intros [-> _]]|].
  rewrite fromBuffer_fixed_fields by lia. cbv zeta.
  destruct (FrameRecord.hasState buf offset).
  - destruct (Z.lt_ge_cases (Buf.length buf)
                (offset + 13 + FrameRecord.dataLen buf offset + 4)) as [Hs|Hs].
    + rewrite readU32_throw by lia. rewrite bind_Throw.
      split; [intros [= <-]; split; [done|]; right; right; done|by intros [-> _]].
    + rewrite readU32_ok, bind_Ok by lia.
      split; [done|]. intros [_ [?|[?|[_ ?]]]]; lia.
  - split; [done|]. intros [_ [?|[?|[? _]]]]; (lia || done).
Qed.

Lemma frame_decode_throws_iff_witness :
  MrrFrame.fromBuffer Sample.short_data_flagged 0 = Throw RangeError.
Proof.
  apply (frame_decode_throws_iff Sample.short_data_flagged 0).
  split; [reflexivity|]. right; right. split; decide_Z.
Defined.

(** X7.  Whenever [MrrFrame.fromBuffer] returns, the thirteen bytes of
    the fixed fields lie in the buffer; the cursor it returns is the
    offset plus the sizes the record declares, whether or not the buffer
    holds that many bytes, and so lies at least 13 bytes further on; the
    data are the declared number of bytes or, when the buffer ends
    earlier, the bytes that remain, and never more than declared; and the
    state delta is there exactly when bit 0 of the flags is set. *)
Theorem frame_decode_returns (buf : Buffer) (offset : Z)
    (frame : MrrFrame.t) (cursor : Z) :
  MrrFrame.fromBuffer buf offset = Ok (frame, cursor) ->
  0 <= offset ∧ offset + 13 <= Buf.length buf
  ∧ cursor = offset + FrameRecord.size buf offset
  ∧ offset + 13 <= cursor
  ∧ MrrFrame.timestampMs frame
    = Number_of_BigInt (FrameRecord.timestamp buf offset)
  ∧ 0 <= MrrFrame.flags frame < 256
  ∧ MrrFrame.data frame
    = Buf.window buf (offset + 13) (FrameRecord.dataLen buf offset)
  ∧ Buf.length (MrrFrame.data frame)
    = Z.min (FrameRecord.dataLen buf offset) (Buf.length buf - (offset + 13))
  ∧ (is_Some (MrrFrame.stateDelta frame)
     <-> Z.testbit (MrrFrame.flags frame) 0 = true)
  ∧ (∀ state, MrrFrame.stateDelta frame = Some state ->
       Buf.length state
       = Z.min (FrameRecord.stateLen buf offset)
           (Z.max 0 (Buf.length buf
                     - (offset + 13 + FrameRecord.dataLen buf offset + 4)))).
Proof.
  intros Hread.
  pose proof (dataLen_nonneg buf offset) as Hd.
  pose proof (stateLen_nonneg buf offset) as Hs.
  destruct (Z.lt_ge_cases offset 0) as [Ho|Ho];
    [by rewrite fromBuffer_fixed_throw in Hread by lia|].
  destruct (Z.lt_ge_cases (Buf.length buf) (offset + 13)) as [Hf|Hf];
    [by rewrite fromBuffer_fixed_throw in Hread by lia|].
  rewrite fromBuffer_fixed_fields in Hread by lia. cbv zeta in Hread.
  assert (Hflags : 0 <= FrameRecord.flags buf offset < 256).
  { unfold FrameRecord.flags. split; [apply le_value_nonneg|].
    pose proof (le_value_bound (Buf.window buf (offset + 8) 1)) as Hb.
    rewrite window_length in Hb by lia. exact Hb. }
  unfold FrameRecord.size.
  unfold FrameRecord.hasState in *.
  destruct (Z.testbit (FrameRecord.flags buf offset) 0) eqn:Hbit.
  - destruct (readU32 buf _) as [stateLen|] eqn:Hlen; [|done].
    rewrite bind_Ok in Hread. injection Hread as <- <-. cbn.
    destruct (Z.lt_ge_cases (Buf.length buf)
                (offset + 13 + FrameRecord.dataLen buf offset + 4)) as [Hx|Hx];
      [by rewrite readU32_throw in Hlen by lia|].
    rewrite readU32_ok in Hlen by lia. injection Hlen as <-.
    fold (FrameRecord.stateLen buf offset).
    rewrite !subarray_window by lia.
    do 2 (split; [done|]). split; [lia|]. split; [lia|].
    do 3 (split; [done|]). split; [rewrite window_short_length by lia; lia|].
    split; [split; eauto|].
    intros state [= <-]. by rewrite window_short_length by lia.
  - injection Hread as <- <-. cbn. rewrite subarray_window by lia.
    do 2 (split; [done|]). split; [lia|]. split; [lia|].
    do 3 (split; [done|]). split; [rewrite window_short_length by lia; lia|].
    split; [split; [by intros [? ?]|cbn in *; congruence]|]. done.
Qed.

Lemma frame_decode_returns_witness :
  ∃ frame cursor,
    MrrFrame.fromBuffer Sample.short_state 0 = Ok (frame, cursor)
    ∧ cursor = 0 + FrameRecord.size Sample.short_state 0
    ∧ Buf.length Sample.short_state < cursor.
Proof.
  destruct (MrrFrame.fromBuffer Sample.short_state 0) as [[frame cursor]|]
    eqn:Hread; [|vm_compute in Hread; discriminate].
  destruct (frame_decode_returns _ _ _ _ Hread) as (_ & _ & Hcursor & _).
  exists frame, cursor. split; [done|]. split; [done|].
  rewrite Hcursor. decide_Z.
Defined.

Lemma window_at (a b c : Buffer) i n :
  i = Buf.length a -> n = Buf.length b -> Buf.window (a ++ b ++ c) i n = b.
Proof.
  intros -> ->. unfold Buf.window, Buf.length. rewrite !Nat2Z.id.
  by rewrite drop_app_length, take_app_length.
Qed.

Lemma length_app_Z (a b : Buffer) :
  Buf.length (a ++ b) = Buf.length a + Buf.length b.
Proof. unfold Buf.length. rewrite length_app. lia. Qed.

(** X8.  Decoding a frame is local to its record: whatever bytes come
    before the offset and after the record, a record made of eight bytes
    of timestamp, a flags byte, four bytes holding the length of the data,
    the data and, if and only if bit 0 of the flags is set, four bytes
    holding the length of the state delta and the state delta, is decoded
    into these very data and state delta, with the cursor at the end of
    the record. *)
Theorem frame_decode_local (pre ts : Buffer) (fl : byte) (len data : Buffer)
    (st : option (Buffer * Buffer)) (rest : Buffer) :
  Buf.length ts = 8 -> Buf.length len = 4 ->
  Buf.le_value len = Buf.length data ->
  (Z.testbit (byte_val fl) 0 = true <-> is_Some st) ->
  (∀ slen state, st = Some (slen, state) ->
     Buf.length slen = 4 ∧ Buf.le_value slen = Buf.length state) ->
  let tail := match st with Some (slen, state) => slen ++ state | None => [] end in
  MrrFrame.fromBuffer (pre ++ ts ++ [fl] ++ len ++ data ++ tail ++ rest)
    (Buf.length pre)
  = Ok (MrrFrame.mk (Number_of_BigInt (Buf.le_value ts)) (byte_val fl) data
          (snd <$> st),
        Buf.length pre + 13 + Buf.length data + Buf.length tail).
Proof.
  intros Hts Hlen Hdata Hflag Hstate tail.
  set (buf := pre ++ ts ++ [fl] ++ len ++ data ++ tail ++ rest).
  set (offset := Buf.length pre).
  assert (Hoff : 0 <= offset) by (unfold offset, Buf.length; lia).
  assert (Htail : 0 <= Buf.length tail) by (unfold Buf.length; lia).
  assert (Hrest : 0 <= Buf.length rest) by (unfold Buf.length; lia).
  assert (Hbuf : Buf.length buf
                 = offset + 13 + Buf.length data + Buf.length tail
                   + Buf.length rest).
  { unfold buf. rewrite !length_app_Z. fold offset.
    change (Buf.length [fl]) with 1. lia. }
  assert (Hdl : 0 <= Buf.length data) by (unfold Buf.length; lia).
  assert (Wts : FrameRecord.timestamp buf offset = Buf.le_value ts).
  { unfold FrameRecord.timestamp, buf. by rewrite window_at. }
  assert (Wfl : FrameRecord.flags buf offset = byte_val fl).
  { unfold FrameRecord.flags, buf. rewrite (app_assoc pre ts).
    rewrite window_at; [cbn; lia|rewrite length_app_Z; fold offset; lia|done]. }
  assert (Wlen : FrameRecord.dataLen buf offset = Buf.length data).
  { unfold FrameRecord.dataLen, buf.
    rewrite (app_assoc pre ts), (app_assoc (pre ++ ts) [fl]).
    rewrite window_at; [done| |done].
    rewrite !length_app_Z. fold offset. change (Buf.length [fl]) with 1. lia. }
  assert (Wdata : Buf.window buf (offset + 13) (Buf.length data) = data).
  { unfold buf.
    rewrite (app_assoc pre ts), (app_assoc (pre ++ ts) [fl]),
      (app_assoc ((pre ++ ts) ++ [fl]) len).
    rewrite window_at; [done| |done].
    rewrite !length_app_Z. fold offset. change (Buf.length [fl]) with 1. lia. }
  rewrite fromBuffer_fixed_fields by lia. cbv zeta.
  unfold FrameRecord.hasState. rewrite Wts, Wfl, Wlen.
  rewrite subarray_inside, Wdata by lia.
  destruct st as [[slen state]|]; cbn [fmap option_fmap option_map snd].
  - destruct (Hstate slen state eq_refl) as [Hsl Hsv].
    replace (Z.testbit (byte_val fl) 0) with true
      by (symmetry; apply Hflag; eauto).
    assert (Hsn : 0 <= Buf.length state) by (unfold Buf.length; lia).
    assert (Htl : Buf.length tail = 4 + Buf.length state).
    { unfold tail. rewrite length_app_Z. lia. }
    assert (Wsl : Buf.window buf (offset + 13 + Buf.length data) 4 = slen).
    { unfold buf, tail.
      rewrite (app_assoc pre ts), (app_assoc (pre ++ ts) [fl]),
        (app_assoc ((pre ++ ts) ++ [fl]) len),
        (app_assoc (((pre ++ ts) ++ [fl]) ++ len) data), <- (app_assoc slen).
      rewrite window_at; [done| |done].
      rewrite !length_app_Z. fold offset. change (Buf.length [fl]) with 1. lia. }
    assert (Wst : Buf.window buf (offset + 13 + Buf.length data + 4)
                    (Buf.length state) = state).
    { unfold buf, tail.
      rewrite (app_assoc pre ts), (app_assoc (pre ++ ts) [fl]),
        (app_assoc ((pre ++ ts) ++ [fl]) len),
        (app_assoc (((pre ++ ts) ++ [fl]) ++ len) data), <- (app_assoc slen),
        (app_assoc ((((pre ++ ts) ++ [fl]) ++ len) ++ data) slen).
      rewrite window_at; [done| |done].
      rewrite !length_app_Z. fold offset. change (Buf.length [fl]) with 1. lia. }
    rewrite readU32_ok, bind_Ok by lia. rewrite Wsl, Hsv.
    rewrite subarray_inside, Wst by lia. do 2 f_equal. lia.
  - destruct (Z.testbit (byte_val fl) 0) eqn:Hbit.
    + destruct Hflag as [Hflag _]. by destruct Hflag.
    + do 2 f_equal. unfold tail. change (Buf.length []) with 0. lia.
Qed.

Lemma frame_decode_local_witness :
  MrrFrame.fromBuffer
    (Sample.text "before" ++ Sample.le_bytes 8 42 ++ [x01%byte]
     ++ Sample.le_bytes 4 3 ++ Sample.text "abc"
     ++ (Sample.le_bytes 4 2 ++ Sample.text "{}") ++ Sample.text "after")
    6
  = Ok (MrrFrame.mk 42 1 (Sample.text "abc") (Some (Sample.text "{}")), 28).
Proof.
  apply (frame_decode_local (Sample.text "before") (Sample.le_bytes 8 42)
           x01%byte (Sample.le_bytes 4 3) (Sample.text "abc")
           (Some (Sample.le_bytes 4 2, Sample.text "{}")) (Sample.text "after"));
    try reflexivity.
  - split; [eauto|reflexivity].
  - intros slen state [= <- <-]. split; reflexivity.
Defined.

(** ** The reader in use *)

(** A call of [readFrame] that returns moves the cursor and nothing else;
    it yields a frame exactly when frames remain, and then counts it. *)
Lemma readFrame_returns r o r' :
  MrrReader.readFrame r = Ok (o, r') ->
  r' = MrrReader.set_cursor r (MrrReader.currentOffset r') (MrrReader.currentFrame r')
  ∧ match o with
    | Some _ =>
        MrrReader.currentFrame r < MrrFooter.frameCount (MrrReader.footer r)
        ∧ MrrReader.currentFrame r' = MrrReader.currentFrame r + 1
    | None =>
        MrrFooter.frameCount (MrrReader.footer r) <= MrrReader.currentFrame r
        ∧ r' = r
    end.
Proof.
  unfold MrrReader.readFrame.
  destruct (Z.leb_spec (MrrFooter.frameCount (MrrReader.footer r))
              (MrrReader.currentFrame r)).
  - intros [= <- <-]. by destruct r.
  - destruct (MrrFrame.fromBuffer _ _) as [[frame cursor]|]; [|done].
    rewrite bind_Ok. unfold mret, result_ret. intros [= <- <-]. cbn. split; [done|lia].
Qed.

(** The loop of [frames] moves the cursor and nothing else, and leaves the
    reader at the end of the frames. *)
Lemma frames_loop_returns fuel r fs r' :
  MrrReader.frames_loop fuel r = Some (Ok (fs, r')) ->
  r' = MrrReader.set_cursor r (MrrReader.currentOffset r') (MrrReader.currentFrame r')
  ∧ MrrReader.currentFrame r'
    = Z.max (MrrReader.currentFrame r) (MrrFooter.frameCount (MrrReader.footer r)).
Proof.
  revert r fs. induction fuel as [|fuel IH]; intros r fs; [done|].
  cbn [MrrReader.frames_loop].
  destruct (MrrReader.readFrame r) as [[[frame|] r1]|] eqn:Hread; [| |done].
  - destruct (readFrame_returns _ _ _ Hread) as (Hr1 & Hlt & Hnext).
    destruct (MrrReader.frames_loop fuel r1) as [[[rest r2]|]|] eqn:Hloop;
      try done.
    intros [= <- <-]. destruct (IH _ _ Hloop) as [Hr2 Hend].
    rewrite Hr1 in Hr2, Hend. cbn in Hr2, Hend. split; [done|].
    rewrite Hend. rewrite Hr1 in Hnext. cbn in Hnext. lia.
  - destruct (readFrame_returns _ _ _ Hread) as (_ & Hle & ->).
    intros [= <- <-]. split; [by destruct r|lia].
Qed.

Lemma frames_returns r fs r' :
  MrrReader.frames r = Ok (fs, r') ->
  r' = MrrReader.set_cursor r (MrrReader.currentOffset r') (MrrReader.currentFrame r')
  ∧ MrrReader.currentFrame r' = Z.max 0 (MrrFooter.frameCount (MrrReader.footer r))
  ∧ length fs = Z.to_nat (MrrFooter.frameCount (MrrReader.footer r)).
Proof.
  intros Hframes.
  pose proof (frames_ends r (S (Z.to_nat (MrrFooter.frameCount (MrrReader.footer r))))
                ltac:(lia)) as Hloop.
  rewrite Hframes in Hloop.
  destruct (frames_loop_returns _ _ _ _ Hloop) as [Hr' Hend].
  split; [by destruct r|]. split; [done|].
  rewrite (frames_loop_count _ _ _ _ Hloop). unfold remaining. cbn. f_equal. lia.
Qed.

(** X9.  Through any use of a loaded reader ([readFrame], [rewind],
    [frames]) only its cursor moves: buffer, header, footer and the two
    documents stay those of [load], and the frame number that
    [getPosition] reports stays between 0 and the total it reports, the
    frame count of the footer. *)
Theorem reader_position_bounds (data : Buffer) (r : MrrReader.t) :
  reader_reachable data r ->
  ∃ r0, MrrReader.load data = Ok r0
        ∧ r = MrrReader.set_cursor r0 (MrrReader.currentOffset r)
                (MrrReader.currentFrame r)
        ∧ MrrReader.buffer r = data
        ∧ MrrReader.totalFrames (MrrReader.getPosition r)
          = MrrFooter.frameCount (MrrReader.footer r0)
        ∧ 0 <= MrrReader.position_frame (MrrReader.getPosition r)
             <= MrrReader.totalFrames (MrrReader.getPosition r).
Proof.
  induction 1 as [r Hload|r o r' _ IH Hread|r _ IH|r fs r' _ IH Hframes].
  - destruct (load_fields _ _ Hload) as (Hbuf & Hframe & _ & Hcount).
    exists r. split; [done|]. split; [by destruct r|]. split; [done|].
    split; [done|]. cbn. lia.
  - destruct IH as (r0 & Hload & Hr & Hbuf & Htotal & Hpos).
    destruct (readFrame_returns _ _ _ Hread) as [Hr' Ho].
    exists r0. split; [done|].
    split; [rewrite Hr', Hr; by destruct r0|].
    split; [by rewrite Hr'|]. split; [by rewrite Hr'|].
    cbn in *. rewrite Hr'. cbn. destruct o as [frame|].
    + destruct Ho as [Hlt Hnext]. lia.
    + destruct Ho as [_ ->]. lia.
  - destruct IH as (r0 & Hload & Hr & Hbuf & Htotal & Hpos).
    exists r0. split; [done|]. split; [rewrite Hr; by destruct r0|].
    split; [done|]. split; [done|]. cbn in *. lia.
  - destruct IH as (r0 & Hload & Hr & Hbuf & Htotal & Hpos).
    destruct (frames_returns _ _ _ Hframes) as (Hr' & Hend & _).
    exists r0. split; [done|].
    split; [rewrite Hr', Hr; by destruct r0|].
    split; [by rewrite Hr'|]. split; [by rewrite Hr'|].
    cbn in *. rewrite Hr'. cbn. lia.
Qed.

Lemma reader_position_bounds_witness :
  ∃ r o1 r1 o2 r2,
    MrrReader.load Sample.recording = Ok r
    ∧ MrrReader.readFrame r = Ok (o1, r1)
    ∧ MrrReader.readFrame r1 = Ok (o2, r2)
    ∧ MrrReader.getPosition r2 = MrrReader.mkPosition 2 4
    ∧ 0 <= MrrReader.position_frame (MrrReader.getPosition r2)
         <= MrrReader.totalFrames (MrrReader.getPosition r2).
Proof.
  destruct (MrrReader.load Sample.recording) as [r|] eqn:Hload;
    [|vm_compute in Hload; discriminate].
  destruct (MrrReader.readFrame r) as [[o1 r1]|] eqn:H1;
    [|vm_compute in Hload; injection Hload as <-; vm_compute in H1; discriminate].
  destruct (MrrReader.readFrame r1) as [[o2 r2]|] eqn:H2.
  2:{ vm_compute in Hload. injection Hload as <-. vm_compute in H1.
      injection H1 as <- <-. vm_compute in H2. discriminate. }
  exists r, o1, r1, o2, r2. do 3 (split; [done|]).
  destruct (reader_position_bounds Sample.recording r2)
    as (r0 & _ & _ & _ & _ & Hpos).
  { eapply reader_read; [|exact H2]. eapply reader_read; [|exact H1].
    by apply reader_loaded. }
  split; [|exact Hpos].
  vm_compute in Hload. injection Hload as <-. vm_compute in H1.
  injection H1 as <- <-. vm_compute in H2. by injection H2 as <- <-.
Defined.

(** X10.  [frames()] always starts over: whatever has been read from a
    loaded reader before, it yields what it yields on the reader just
    loaded, all the frames from the first on; so iterating a second time
    gives the same frames as the first time. *)
Theorem frames_restartable (data : Buffer) (r0 r : MrrReader.t) :
  MrrReader.load data = Ok r0 -> reader_reachable data r ->
  MrrReader.frames r = MrrReader.frames r0
  ∧ ∀ fs r', MrrReader.frames r = Ok (fs, r') ->
             MrrReader.frames r' = Ok (fs, r').
Proof.
  intros Hload Hreach.
  destruct (reader_position_bounds _ _ Hreach) as (r0' & Hload' & Hr & _).
  assert (r0' = r0) as -> by congruence.
  assert (Hsame : ∀ o f, MrrReader.frames (MrrReader.set_cursor r0 o f)
                         = MrrReader.frames r0) by done.
  assert (Heq : MrrReader.frames r = MrrReader.frames r0)
    by (rewrite (f_equal MrrReader.frames Hr); apply Hsame).
  split; [done|].
  intros fs r' Hframes. destruct (frames_returns _ _ _ Hframes) as (Hr' & _).
  rewrite (f_equal MrrReader.frames Hr').
  change (MrrReader.frames r = Ok (fs, r')). done.
Qed.

Lemma frames_restartable_witness :
  ∃ r0 o r, MrrReader.load Sample.recording = Ok r0
            ∧ MrrReader.readFrame r0 = Ok (o, r)
            ∧ MrrReader.currentFrame r = 1
            ∧ MrrReader.frames r = MrrReader.frames r0.
Proof.
  destruct (MrrReader.load Sample.recording) as [r0|] eqn:Hload;
    [|vm_compute in Hload; discriminate].
  destruct (MrrReader.readFrame r0) as [[o r]|] eqn:Hread;
    [|vm_compute in Hload; injection Hload as <-; vm_compute in Hread;
      discriminate].
  exists r0, o, r. do 2 (split; [done|]). split.
  - vm_compute in Hload. injection Hload as <-. vm_compute in Hread.
    by injection Hread as <- <-.
  - eapply (frames_restartable Sample.recording); [done|].
    eapply reader_read; [by apply reader_loaded|exact Hread].
Defined.

(** The player that [load] returns. *)
Lemma player_load_returns data p0 p :
  MrrPlayer.load p0 data = Ok p ->
  ∃ r0 r, MrrReader.load data = Ok r0
          ∧ MrrReader.frames r0 = Ok (MrrPlayer.frames p, r)
          ∧ p = MrrPlayer.mk (MrrPlayer.filename p0) (Some r)
                  (Some ("playback-" +:+ baseName (MrrPlayer.filename p0)))
                  (MrrFooter.durationMs (MrrReader.footer r0))
                  (MrrFooter.frameCount (MrrReader.footer r0))
                  (MrrPlayer.playing p0) (MrrPlayer.loop p0)
                  (MrrPlayer.currentFrame p0) (MrrPlayer.positionMs p0)
                  (MrrPlayer.playbackTimer p0) (MrrPlayer.frames p)
          ∧ Z.of_nat (length (MrrPlayer.frames p))
            = MrrFooter.frameCount (MrrReader.footer r0).
Proof.
  unfold MrrPlayer.load.
  destruct (MrrReader.load data) as [r0|] eqn:Hload; [|done]. rewrite bind_Ok.
  cbv zeta. destruct (MrrReader.frames r0) as [[fs r]|] eqn:Hframes; [|done].
  rewrite bind_Ok. unfold mret, result_ret. intros [= <-]. cbn.
  destruct (load_fields _ _ Hload) as (_ & _ & _ & Hcount).
  destruct (frames_returns _ _ _ Hframes) as (_ & _ & Hlen).
  exists r0, r. do 3 (split; [done|]). lia.
Qed.

(** X11.  Whenever loading returns, for a well-formed file or not, the
    player holds exactly as many frames as the footer counts and as the
    player reports: the loop of [frames()] is driven by the count alone,
    and a frame it cannot read makes it throw.  The reader is then at the
    end: position and total are equal, and [readFrame] returns null. *)
Theorem loaded_frame_count (data : Buffer) (p0 p : MrrPlayer.t) :
  MrrPlayer.load p0 data = Ok p ->
  Z.of_nat (length (MrrPlayer.frames p)) = MrrPlayer.frameCount p
  ∧ MrrPlayer.status_frameCount (MrrPlayer.getStatus p)
    = Z.of_nat (length (MrrPlayer.frames p))
  ∧ ∃ r0 r, MrrReader.load data = Ok r0
            ∧ MrrPlayer.reader p = Some r
            ∧ MrrReader.frames r0 = Ok (MrrPlayer.frames p, r)
            ∧ MrrPlayer.frameCount p = MrrFooter.frameCount (MrrReader.footer r0)
            ∧ MrrPlayer.durationMs p = MrrFooter.durationMs (MrrReader.footer r0)
            ∧ MrrReader.getPosition r
              = MrrReader.mkPosition (MrrPlayer.frameCount p) (MrrPlayer.frameCount p)
            ∧ MrrReader.readFrame r = Ok (None, r).
Proof.
  intros Hload.
  destruct (player_load_returns _ _ _ Hload) as (r0 & r & Hr0 & Hframes & Hp & Hlen).
  destruct (frames_returns _ _ _ Hframes) as (Hr & Hend & _).
  assert (Hfooter : MrrReader.footer r = MrrReader.footer r0) by (by rewrite Hr).
  assert (Hcount : MrrPlayer.frameCount p
                   = MrrFooter.frameCount (MrrReader.footer r0)) by (by rewrite Hp).
  assert (Hduration : MrrPlayer.durationMs p
                      = MrrFooter.durationMs (MrrReader.footer r0)) by (by rewrite Hp).
  assert (Hreader : MrrPlayer.reader p = Some r) by (by rewrite Hp).
  split; [lia|]. split; [cbn; lia|]. exists r0, r. do 5 (split; [done|]).
  rewrite Hcount. split.
  - unfold MrrReader.getPosition. rewrite Hfooter, Hend. f_equal; lia.
  - unfold MrrReader.readFrame. rewrite Hfooter, Hend.
    by destruct (Z.leb_spec (MrrFooter.frameCount (MrrReader.footer r0))
                   (Z.max 0 (MrrFooter.frameCount (MrrReader.footer r0))));
      [|lia].
Qed.

Lemma loaded_frame_count_witness :
  Z.of_nat (length (MrrPlayer.frames Sample.player)) = 4
  ∧ MrrPlayer.frameCount Sample.player = 4.
Proof.
  destruct (loaded_frame_count Sample.recording (MrrPlayer.new "demo.mrr")
              Sample.player) as (Hlen & _); [vm_compute; reflexivity|].
  split; [|reflexivity]. rewrite Hlen. reflexivity.
Defined.

(** * Further properties of the player *)

(** ** One timeout, one frame at a time *)

(** X12.  In every state a session can reach at most one timeout is
    pending; the player holds its handle and is playing; and while the
    player is not playing none is pending. *)
Theorem one_timeout_at_most (s : Session) :
  reachable s ->
  (size (App.timers s.2) <= 1)%nat
  ∧ (∀ h, is_Some (App.timers s.2 !! h) ->
       playbackTimer s.1 = Some h ∧ playing s.1 = true)
  ∧ (playing s.1 = false -> App.timers s.2 = ∅).
Proof.
  intros Hreach. pose proof (reachable_one_pending _ Hreach) as Hone.
  destruct s as [p app]. cbn [fst snd] in *. split; [|split].
  - destruct (decide (size (App.timers app) = 0%nat)) as [->|Hne]; [lia|].
    destruct (map_size_ne_0_lookup_1 _ Hne) as [h Hh].
    destruct (Hone h Hh) as [_ Htimer]. cbn in Htimer.
    pose proof (one_pending_cleared _ _ _ Hone Htimer) as Hcleared.
    apply (f_equal size) in Hcleared.
    rewrite map_size_delete_Some, map_size_empty in Hcleared by done. lia.
  - intros h Hh. by destruct (Hone h Hh).
  - by apply one_pending_not_playing.
Qed.

Lemma one_timeout_at_most_witness :
  size (App.timers (run_events (Sample.player, Sample.app)
                      [Play; Fire 0; Pause; Play; Play; Fire 2]).2) = 1%nat.
Proof.
  destruct (one_timeout_at_most
              (run_events (Sample.player, Sample.app)
                 [Play; Fire 0; Pause; Play; Play; Fire 2]))
    as (Hsize & _); [apply sample_reachable|].
  vm_compute in Hsize |- *. reflexivity.
Defined.

(** What one call of [scheduleNextFrame] hands to the sink: nothing, or
    one frame, the one at the index or, after a restart, the first. *)
Lemma schedule_delivers depth p app :
  App.emitted (scheduleNextFrame_rec depth p app).1.2 = App.emitted app
  ∨ ∃ i f,
      frames p !! i = Some f ∧ (i = currentFrame p ∨ i = 0%nat)
      ∧ App.emitted (scheduleNextFrame_rec depth p app).1.2
        = App.emitted app ++ App.delivery (streamId p) (MrrFrame.data f) app
      ∧ currentFrame (scheduleNextFrame_rec depth p app).1.1 = S i
      ∧ positionMs (scheduleNextFrame_rec depth p app).1.1
        = MrrFrame.timestampMs f.
Proof.
  revert p. induction depth as [|depth IH]; intros p; [by left|].
  destruct (playing p) eqn:Hplaying;
    [|rewrite schedule_not_playing by done; by left].
  destruct (frame_at p) as [Hend|[frame Hframe]].
  - rewrite schedule_end by done. destruct (loop p); [|by left].
    destruct (IH (set_position p 0 0)) as [Hsame|(i & f & Hf & Hi & He & Hc & Hp)];
      [by left|right].
    exists i, f. split; [done|]. split; [right; by destruct Hi|]. done.
  - right. exists (currentFrame p), frame. split; [done|]. split; [by left|].
    rewrite (schedule_deliver _ _ _ frame) by done. cbv zeta.
    rewrite <- emitted_emitData.
    by repeat case_match.
Qed.

(** X13.  An event hands at most one frame to the sink, and never one out
    of place: the frame delivered is the one at the current index or, when
    playback wraps around, the first one; the index then points just past
    it and the position is its timestamp. *)
Theorem one_frame_per_event (s : Session) (ev : Event) :
  App.emitted (step s ev).2 = App.emitted s.2
  ∨ ∃ i f,
      frames s.1 !! i = Some f ∧ (i = currentFrame s.1 ∨ i = 0%nat)
      ∧ App.emitted (step s ev).2
        = App.emitted s.2 ++ App.delivery (streamId s.1) (MrrFrame.data f) s.2
      ∧ currentFrame (step s ev).1 = S i
      ∧ positionMs (step s ev).1 = MrrFrame.timestampMs f.
Proof.
  destruct s as [p app]. destruct ev as [| | |b|h]; cbn [step fst snd].
  - unfold play. destruct (playing p); [by left|].
    apply (schedule_delivers 2 (set_playing p true) app).
  - left. apply emitted_pause.
  - left. unfold stop. pose proof (emitted_pause p app) as He.
    by destruct (pause p app).
  - by left.
  - destruct (App.timers app !! h) as [timeout|]; [|by left].
    destruct (callback timeout); cbn [run].
    + apply (schedule_delivers 2 p (App.clearTimeout h app)).
    + destruct (schedule_delivers 2 (set_position p 0 0) (App.clearTimeout h app))
        as [Hsame|(i & f & Hf & Hi & He & Hc & Hp)]; [by left|right].
      exists i, f. split; [done|]. split; [right; by destruct Hi|]. done.
Qed.

(** ** Position *)







(** ** Playback from start to end *)

(** Playback left alone: [play], and then the first [k] timeouts as they
    come due. *)
Lemma playback_run p app k :
  playing p = false -> (currentFrame p + k < length (frames p))%nat ->
  let s := run_events (p, app) (Play :: fires (App.nextHandle app) k) in
  frames s.1 = frames p
  ∧ streamId s.1 = streamId p
  ∧ currentFrame s.1 = (currentFrame p + S k)%nat
  ∧ (∃ f, frames p !! (currentFrame p + k)%nat = Some f
          ∧ positionMs s.1 = MrrFrame.timestampMs f)
  ∧ (∀ sid d, App.delivery sid d s.2 = App.delivery sid d app)
  ∧ App.emitted s.2
    = App.emitted app
      ++ (take (S k) (drop (currentFrame p) (frames p))
            ≫= λ f, App.delivery (streamId p) (MrrFrame.data f) app)
  ∧ ((currentFrame p + S k < length (frames p))%nat ->
     playing s.1 = true
     ∧ App.nextHandle s.2 = (App.nextHandle app + S k)%nat
     ∧ ∃ ms, App.timers s.2 !! (App.nextHandle app + k)%nat
             = Some (mkTimeout ms NextFrame)).
Proof.
  intros Hplaying. induction k as [|k IH]; intros Hlt; cbv zeta.
  - destruct (lookup_lt_is_Some_2 (frames p) (currentFrame p)) as [f Hf]; [lia|].
    cbn [fires seq fmap list_fmap run_events foldl step]. unfold play.
    rewrite Hplaying. unfold scheduleNextFrame.
    rewrite (schedule_deliver _ _ _ f) by done. cbv zeta.
    change (frames (set_playing p true)) with (frames p).
    change (currentFrame (set_playing p true)) with (currentFrame p).
    change (streamId (set_playing p true)) with (streamId p).
    change (loop (set_playing p true)) with (loop p).
    assert (Hemitted :
      App.emitted app ++ App.delivery (streamId p) (MrrFrame.data f) app
      = App.emitted app
        ++ (take 1 (drop (currentFrame p) (frames p))
              ≫= λ f, App.delivery (streamId p) (MrrFrame.data f) app)).
    { rewrite (drop_S _ f) by done. cbn. by rewrite app_nil_r. }
    rewrite <- Hemitted, <- emitted_emitData. rewrite Nat.add_0_r.
    destruct (frames p !! S (currentFrame p)) as [next|] eqn:Hnext.
    + cbn [fst snd]. split; [done|]. split; [done|]. split; [cbn; lia|].
      split; [by exists f|]. split; [intros; apply delivery_emitData|].
      split; [done|]. intros _. split; [done|].
      cbn. rewrite nextHandle_emitData. split; [lia|].
      eexists. by rewrite Nat.add_0_r, lookup_insert_eq.
    + apply lookup_ge_None in Hnext.
      destruct (loop p); cbn [fst snd];
        (split; [done|]); (split; [done|]); (split; [cbn; lia|]);
        (split; [by exists f|]); (split; [intros; apply delivery_emitData|]);
        (split; [done|]); intros; lia.
  - destruct IH as (Hframes & Hsid & Hcurrent & _ & Hdelivery & Hemitted & Hnext);
      [lia|].
    destruct Hnext as (Hplaying' & Hhandle & ms & Htimer);
      [lia|].
    replace (Play :: fires (App.nextHandle app) (S k))
      with ((Play :: fires (App.nextHandle app) k)
              ++ [Fire (App.nextHandle app + k)%nat])
      by (unfold fires; by rewrite seq_S, fmap_app).
    unfold run_events in *. rewrite foldl_app.
    destruct (foldl step (p, app) (Play :: fires (App.nextHandle app) k))
      as [p1 app1]. cbn [fst snd] in *.
    destruct (lookup_lt_is_Some_2 (frames p) (currentFrame p + S k)) as [f Hf];
      [lia|].
    cbn [foldl step]. rewrite Htimer. cbn [callback run fst snd].
    unfold scheduleNextFrame.
    rewrite (schedule_deliver _ _ _ f)
      by (rewrite ?Hframes, ?Hcurrent; done).
    cbv zeta. rewrite Hframes, Hcurrent, Hsid.
    assert (Hmore :
      App.emitted (App.emitData (streamId p) (MrrFrame.data f)
                     (App.clearTimeout (App.nextHandle app + k) app1))
      = App.emitted app
        ++ (take (S (S k)) (drop (currentFrame p) (frames p))
              ≫= λ f, App.delivery (streamId p) (MrrFrame.data f) app)).
    { rewrite emitted_emitData.
      change (App.emitted (App.clearTimeout _ app1)) with (App.emitted app1).
      change (App.delivery (streamId p) (MrrFrame.data f)
                (App.clearTimeout (App.nextHandle app + k) app1))
        with (App.delivery (streamId p) (MrrFrame.data f) app1).
      rewrite Hemitted, Hdelivery.
      rewrite (take_S_r _ (S k) f) by (by rewrite lookup_drop).
      rewrite bind_app. cbn. by rewrite app_nil_r, <- app_assoc. }
    assert (Hdelivery' : ∀ sid d,
      App.delivery sid d
        (App.emitData (streamId p) (MrrFrame.data f)
           (App.clearTimeout (App.nextHandle app + k) app1))
      = App.delivery sid d app).
    { intros sid d. rewrite delivery_emitData. apply Hdelivery. }
    rewrite <- Hmore.
    destruct (frames p !! S (currentFrame p + S k)) as [next|] eqn:Hnext.
    + cbn [fst snd]. split; [done|]. split; [done|]. split; [cbn; lia|].
      split; [by exists f|]. split; [done|].
      split; [done|]. intros _. split; [done|].
      cbn. rewrite nextHandle_emitData. cbn. rewrite Hhandle. split; [lia|].
      eexists. replace (App.nextHandle app + S k)%nat
        with (S (App.nextHandle app + k)) by lia.
      by rewrite lookup_insert_eq.
    + apply lookup_ge_None in Hnext.
      destruct (loop p1); cbn [fst snd];
        (split; [done|]); (split; [done|]); (split; [cbn; lia|]);
        (split; [by exists f|]); (split; [done|]);
        (split; [done|]); intros; lia.
Qed.

(** X15.  Playback left alone delivers the frames in file order, one per
    timeout and none twice: after [play] from the current index and the
    [k] timeouts that follow, the sink has received the [k + 1] frames from
    that index on, each on the stream of the radar, and the index has moved
    past them. *)
Theorem playback_in_order (p : MrrPlayer.t) (app : App.t) (k : nat) :
  playing p = false -> (currentFrame p + k < length (frames p))%nat ->
  let s := run_events (p, app) (Play :: fires (App.nextHandle app) k) in
  App.emitted s.2
  = App.emitted app
    ++ (take (S k) (drop (currentFrame p) (frames p))
          ≫= λ f, App.delivery (streamId p) (MrrFrame.data f) app)
  ∧ currentFrame s.1 = (currentFrame p + S k)%nat
  ∧ ∃ f, frames p !! (currentFrame p + k)%nat = Some f
         ∧ positionMs s.1 = MrrFrame.timestampMs f.
Proof.
  intros Hplaying Hlt.
  destruct (playback_run p app k Hplaying Hlt)
    as (_ & _ & Hcurrent & Hposition & _ & Hemitted & _).
  done.
Qed.

Lemma playback_in_order_witness :
  snd <$> App.emitted
            (run_events (Sample.player, Sample.app) (Play :: fires 0 3)).2
  = Sample.text <$> ["spoke0"; "spoke1"; "spoke2"; "spoke3"].
Proof.
  destruct (playback_in_order Sample.player Sample.app 3) as (Hemitted & _);
    [reflexivity|vm_compute; lia|].
  change (App.nextHandle Sample.app) with 0%nat in Hemitted.
  rewrite Hemitted. vm_compute. reflexivity.
Defined.

(** ** Play: a recording without frames, and the end of a recording *)

(** X16.  [play] throws in one case only: the recording has no frames,
    the player is not playing and looping is on (as it is by default).
    [scheduleNextFrame] then calls itself without end, so that the call
    ends with a RangeError however deep the stack is.  The player is left
    with its playing flag set and no timeout pending: the status reports
    'playing', and a further [play] returns at once. *)
Theorem play_throws_iff (p : MrrPlayer.t) (app : App.t) (e : JsError) :
  ((play p app).2 = Thrown e
   ↔ playing p = false ∧ loop p = true ∧ frames p = [] ∧ e = RangeError)
  ∧ (playing p = false -> loop p = true -> frames p = [] ->
     (∀ depth,
        (scheduleNextFrame_rec depth (set_playing p true) app).2
        = Thrown RangeError)
     ∧ (play p app).1.2 = app
     ∧ playing (play p app).1.1 = true
     ∧ state (getStatus (play p app).1.1) = "playing"
     ∧ play (play p app).1.1 app = ((play p app).1.1, app, Returned)).
Proof.
  split.
  - destruct (play_cases p app) as [(Hplaying & Hloop & Hframes & ->)|[Hnot ->]].
    + cbn. split; [by intros [= <-]|by intros (_ & _ & _ & ->)].
    + split; [done|]. intros (Hplaying & Hloop & Hframes & _).
      destruct Hnot as [?|[?|?]]; congruence.
  - intros Hplaying Hloop Hframes. split.
    + intros [|depth]; [done|].
      rewrite schedule_end by (cbn; rewrite ?Hframes; cbn; first [done|lia]).
      change (loop (set_playing p true)) with (loop p). rewrite Hloop.
      by rewrite schedule_empty_loop.
    + destruct (play_cases p app) as [(_ & _ & _ & ->)|[Hnot _]];
        [|destruct Hnot as [?|[?|?]]; congruence].
      done.
Qed.

Lemma play_throws_iff_witness :
  (play Sample.empty_player Sample.app).2 = Thrown RangeError.
Proof.
  destruct (play_throws_iff Sample.empty_player Sample.app RangeError)
    as [[_ Hthrows] _].
  apply Hthrows. vm_compute. repeat split.
Defined.

(** X17.  [play] at the end of a recording (the index past the last
    frame, as it is after playback has finished).  With looping off it
    delivers nothing and arms nothing: the player is at once not playing
    again, its index unchanged, and the host is told 'Finished' once more.
    With looping on it starts over without any delay: the first frame is
    delivered before [play] returns. *)
Theorem play_at_end (p : MrrPlayer.t) (app : App.t) :
  playing p = false -> (length (frames p) <= currentFrame p)%nat ->
  (loop p = false ->
   ∃ p' app',
     play p app = (p', app', Returned)
     ∧ playing p' = false
     ∧ currentFrame p' = currentFrame p
     ∧ positionMs p' = positionMs p
     ∧ App.emitted app' = App.emitted app
     ∧ App.timers app' = App.timers app
     ∧ App.pluginStatus app' = "Finished: " +:+ filename p)
  ∧ (loop p = true -> ∀ first, frames p !! 0%nat = Some first ->
     ∃ p' app',
       play p app = (p', app', Returned)
       ∧ currentFrame p' = 1%nat
       ∧ positionMs p' = MrrFrame.timestampMs first
       ∧ App.emitted app'
         = App.emitted app
           ++ App.delivery (streamId p) (MrrFrame.data first) app).
Proof.
  intros Hplaying Hend. unfold play, scheduleNextFrame. rewrite Hplaying.
  rewrite schedule_end by done.
  change (loop (set_playing p true)) with (loop p). split; intros Hloop.
  - rewrite Hloop. by eexists _, _.
  - intros first Hfirst. rewrite Hloop.
    rewrite (schedule_deliver 0 _ _ first) by done. cbv zeta.
    change (streamId (set_position (set_playing p true) 0 0)) with (streamId p).
    rewrite <- emitted_emitData.
    repeat case_match; by eexists _, _.
Qed.

Lemma play_at_end_witness :
  let s := run_events (Sample.player, Sample.app)
             [SetLoop false; Play; Fire 0; Fire 1; Fire 2] in
  App.emitted (play s.1 s.2).1.2 = App.emitted s.2.
Proof.
  cbv zeta.
  destruct (play_at_end
              (run_events (Sample.player, Sample.app)
                 [SetLoop false; Play; Fire 0; Fire 1; Fire 2]).1
              (run_events (Sample.player, Sample.app)
                 [SetLoop false; Play; Fire 0; Fire 1; Fire 2]).2)
    as [Hoff _]; [reflexivity|vm_compute; lia|].
  destruct Hoff as (p' & app' & Hplay & _ & _ & _ & Hemitted & _);
    [reflexivity|].
  rewrite Hplay. exact Hemitted.
Defined.

(** X18.  [stop] and then [play] start the recording over, whatever the
    player was doing: the first frame is delivered, to the stream of the
    radar, and the index and the position are those of a playback that has
    just begun. *)
Theorem stop_play_restarts (s : Session) (first : MrrFrame.t) :
  frames s.1 !! 0%nat = Some first ->
  let s' := run_events s [Stop; Play] in
  App.emitted s'.2
  = App.emitted s.2 ++ App.delivery (streamId s.1) (MrrFrame.data first) s.2
  ∧ currentFrame s'.1 = 1%nat
  ∧ positionMs s'.1 = MrrFrame.timestampMs first
  ∧ frames s'.1 = frames s.1.
Proof.
  destruct s as [p app]. cbn [fst snd]. intros Hfirst. cbv zeta.
  cbn [run_events foldl step]. unfold stop, pause. cbn [playing set_playing].
  assert (Hgo : ∀ p0 app0,
    playing p0 = false -> currentFrame p0 = 0%nat -> frames p0 = frames p ->
    streamId p0 = streamId p ->
    App.emitted app0 = App.emitted app ->
    (∀ sid d, App.delivery sid d app0 = App.delivery sid d app) ->
    App.emitted (play p0 app0).1.2
    = App.emitted app ++ App.delivery (streamId p) (MrrFrame.data first) app
    ∧ currentFrame (play p0 app0).1.1 = 1%nat
    ∧ positionMs (play p0 app0).1.1 = MrrFrame.timestampMs first
    ∧ frames (play p0 app0).1.1 = frames p).
  { intros p0 app0 Hplaying Hcurrent Hframes Hsid Hemitted Hdelivery.
    unfold play, scheduleNextFrame. rewrite Hplaying.
    rewrite (schedule_deliver 1 _ _ first)
      by (cbn; rewrite ?Hcurrent, ?Hframes; done).
    cbv zeta. change (streamId (set_playing p0 true)) with (streamId p0).
    rewrite <- Hsid, <- Hemitted, <- Hdelivery, <- emitted_emitData, <- Hframes.
    cbn [set_playing currentFrame frames]. rewrite Hcurrent.
    by repeat case_match. }
  change (playbackTimer (set_playing p false)) with (playbackTimer p).
  destruct (playbackTimer p); cbn [step]; by apply Hgo.
Qed.

Lemma stop_play_restarts_witness :
  snd <$> App.emitted
            (run_events (Sample.player, Sample.app)
               [Play; Fire 0; Stop; Play]).2
  = Sample.text <$> ["spoke0"; "spoke1"; "spoke0"].
Proof.
  destruct (stop_play_restarts
              (run_events (Sample.player, Sample.app) [Play; Fire 0])
              (MrrFrame.mk 0 0 (Sample.text "spoke0") None))
    as (Hemitted & _); [reflexivity|].
  change (run_events (Sample.player, Sample.app) [Play; Fire 0; Stop; Play])
    with (run_events (run_events (Sample.player, Sample.app) [Play; Fire 0])
            [Stop; Play]).
  rewrite Hemitted. vm_compute. reflexivity.
Defined.

(** X19.  The loop flag is read when the last frame is delivered, not
    when the restart comes due: once the timeout of the restart is
    pending, playback starts over when it fires whatever the flag has
    been set to in between. *)
Theorem restart_ignores_loop_flag (p : MrrPlayer.t) (app : App.t) (h : nat)
    (ms : Z) (b : bool) (first : MrrFrame.t) :
  playing p = true ->
  App.timers app !! h = Some (mkTimeout ms LoopRestart) ->
  frames p !! 0%nat = Some first ->
  let s := run_events (p, app) [SetLoop b; Fire h] in
  App.emitted s.2
  = App.emitted app ++ App.delivery (streamId p) (MrrFrame.data first) app
  ∧ currentFrame s.1 = 1%nat
  ∧ positionMs s.1 = MrrFrame.timestampMs first
  ∧ loop s.1 = b.
Proof.
  intros Hplaying Htimer Hfirst. cbv zeta.
  cbn [run_events foldl step]. rewrite Htimer. cbn [callback run].
  unfold scheduleNextFrame.
  rewrite (schedule_deliver 1 _ _ first) by done. cbv zeta.
  change (streamId (set_position (set_loop p b) 0 0)) with (streamId p).
  change (App.delivery (streamId p) (MrrFrame.data first) app)
    with (App.delivery (streamId p) (MrrFrame.data first)
            (App.clearTimeout h app)).
  change (App.emitted app) with (App.emitted (App.clearTimeout h app)).
  rewrite <- emitted_emitData.
  by repeat case_match.
Qed.

Lemma restart_ignores_loop_flag_witness :
  snd <$> App.emitted
            (run_events (Sample.player, Sample.app)
               [Play; Fire 0; Fire 1; Fire 2; SetLoop false; Fire 3]).2
  = Sample.text <$> ["spoke0"; "spoke1"; "spoke2"; "spoke3"; "spoke0"].
Proof.
  destruct (restart_ignores_loop_flag
              (run_events (Sample.player, Sample.app)
                 [Play; Fire 0; Fire 1; Fire 2]).1
              (run_events (Sample.player, Sample.app)
                 [Play; Fire 0; Fire 1; Fire 2]).2
              3 100 false (MrrFrame.mk 0 0 (Sample.text "spoke0") None))
    as (Hemitted & _); [reflexivity..|].
  refine (eq_trans _ (eq_trans (f_equal (fmap snd) Hemitted) _));
    vm_compute; reflexivity.
Defined.

(** X20.  [pause] and [stop] done twice are [pause] and [stop] done once,
    and [stop] after [pause] is [stop]. *)
Theorem pause_stop_idempotent (s : Session) :
  run_events s [Pause; Pause] = run_events s [Pause]
  ∧ run_events s [Stop; Stop] = run_events s [Stop]
  ∧ run_events s [Pause; Stop] = run_events s [Stop].
Proof.
  destruct s as [p app]. unfold run_events.
  by destruct p as [? ? ? ? ? ? ? ? ? [h|] ?].
Qed.

(** * The routes and the radar provider *)

(** ** The radar id *)

Lemma string_length_app s t :
  String.length (s +:+ t) = (String.length s + String.length t)%nat.
Proof. induction s as [|c s IH]; simpl; [done|by rewrite IH]. Qed.

Lemma substring_all s : String.substring 0 (String.length s) s = s.
Proof. induction s as [|c s IH]; simpl; [done|by rewrite IH]. Qed.

Lemma substring_app_l s t :
  String.substring 0 (String.length s) (s +:+ t) = s.
Proof.
  induction s as [|c s IH]; simpl; [by destruct t|by rewrite IH].
Qed.

Lemma substring_app_r s t n :
  String.substring (String.length s) n (s +:+ t) = String.substring 0 n t.
Proof. induction s as [|c s IH]; simpl; [done|exact IH]. Qed.

Lemma ends_with_app s suffix : ends_with suffix (s +:+ suffix) = true.
Proof.
  unfold ends_with. rewrite string_length_app.
  replace (String.length s + String.length suffix - String.length suffix)%nat
    with (String.length s) by lia.
  rewrite substring_app_r, substring_all, String.eqb_refl.
  by destruct (Nat.leb_spec (String.length suffix)
                 (String.length s + String.length suffix)); [|lia].
Qed.

Lemma strip_suffix s suffix :
  String.substring 0
    (String.length (s +:+ suffix) - String.length suffix) (s +:+ suffix) = s.
Proof.
  rewrite string_length_app.
  replace (String.length s + String.length suffix - String.length suffix)%nat
    with (String.length s) by lia.
  apply substring_app_l.
Qed.

Lemma baseName_mrr_gz s : baseName (s +:+ ".mrr.gz") = s.
Proof.
  unfold baseName. rewrite ends_with_app. apply (strip_suffix s ".mrr.gz").
Qed.

Lemma baseName_mrr s : baseName (s +:+ ".mrr") = s.
Proof.
  unfold baseName.
  assert (ends_with ".mrr.gz" (s +:+ ".mrr") = false) as ->.
  { apply not_true_is_false. unfold ends_with. intros Hends.
    apply andb_prop in Hends as [Hlen Heq].
    apply Nat.leb_le in Hlen. apply String.eqb_eq in Heq.
    rewrite string_length_app in Hlen, Heq. cbn [String.length] in Hlen, Heq.
    apply (f_equal (String.get 6)) in Heq.
    rewrite String.substring_correct1 in Heq by lia.
    replace (6 + (String.length s + 4 - 7))%nat
      with (3 + String.length s)%nat in Heq by lia.
    rewrite <- String.append_correct2 in Heq. discriminate Heq. }
  rewrite ends_with_app. apply (strip_suffix s ".mrr").
Qed.

(** X21.  The radar id is the name of the file without its extension:
    a player of the file [name.mrr], or of [name.mrr.gz], that has loaded
    its recording goes by 'playback-name'; this is the one radar that
    [getRadars] lists, and the frames go to the stream
    'radars/playback-name'.  The two files are not told apart. *)
Theorem radar_id_of_filename (name : string) (data : Buffer)
    (p : MrrPlayer.t) (gz : bool) :
  MrrPlayer.load
    (MrrPlayer.new (name +:+ (if gz then ".mrr.gz" else ".mrr"))) data = Ok p ->
  radarId p = Some ("playback-" +:+ name)
  ∧ RadarProvider.getRadars (Some p) = ["playback-" +:+ name]
  ∧ streamId p = "radars/playback-" +:+ name
  ∧ status_radarId (getStatus p) = Some ("playback-" +:+ name).
Proof.
  intros Hload.
  destruct (player_load_returns _ _ _ Hload) as (r0 & r & _ & _ & Hp & _).
  assert (Hid : radarId p = Some ("playback-" +:+ name)).
  { rewrite Hp. cbn [radarId filename MrrPlayer.new]. do 2 f_equal.
    destruct gz; [apply baseName_mrr_gz|apply baseName_mrr]. }
  split; [done|]. unfold RadarProvider.getRadars, streamId. cbn [getStatus status_radarId].
  rewrite Hid. done.
Qed.

Lemma radar_id_of_filename_witness :
  RadarProvider.getRadars (Some Sample.player) = ["playback-demo"].
Proof.
  destruct (radar_id_of_filename "demo" Sample.recording Sample.player false)
    as (_ & Hradars & _); [vm_compute; reflexivity|].
  exact Hradars.
Defined.

(** ** The routes *)

(** X22.  The play route answers 400 and changes nothing while no
    recording is loaded.  With a player it ends in one of two ways.
    When [play] throws (a recording without frames, not playing, looping
    on) the handler is left by the RangeError: no answer is sent and the
    plugin status stays as it was.  Otherwise it answers ok and sets the
    plugin status to 'Playing: ' and the file name, also when nothing is
    playing afterwards: at the end of a recording with looping off the
    player is not playing when the route has answered. *)
Theorem play_route_outcomes (s : Plugin.t) :
  match Plugin.player s with
  | None =>
      Plugin.post_play s = (s, inl (Plugin.BadRequest "No recording loaded"))
  | Some p =>
      (playing p = false ∧ loop p = true ∧ frames p = []
       ∧ (Plugin.post_play s).2 = inr RangeError
       ∧ App.pluginStatus (Plugin.app (Plugin.post_play s).1)
         = App.pluginStatus (Plugin.app s))
      ∨ ((playing p = true ∨ loop p = false ∨ frames p ≠ [])
         ∧ (Plugin.post_play s).2 = inl Plugin.OkTrue
         ∧ App.pluginStatus (Plugin.app (Plugin.post_play s).1)
           = "Playing: " +:+ filename p
         ∧ (playing p = false -> loop p = false ->
            (length (frames p) <= currentFrame p)%nat ->
            ∃ p', Plugin.player (Plugin.post_play s).1 = Some p'
                  ∧ playing p' = false
                  ∧ currentFrame p' = currentFrame p))
  end.
Proof.
  destruct s as [[p|] app]; [|done]. cbn [Plugin.player Plugin.app].
  unfold Plugin.post_play. cbn [Plugin.player Plugin.app].
  destruct (play_cases p app) as [(Hplaying & Hloop & Hframes & ->)|[Hnot Hreturned]].
  - left. by do 3 (split; [done|]).
  - right. split; [done|].
    assert (Hfilename : filename (play p app).1.1 = filename p).
    { unfold play. destruct (playing p); [done|].
      apply (schedule_keeps 2 (set_playing p true) app). }
    assert (Hend : playing p = false -> loop p = false ->
                   (length (frames p) <= currentFrame p)%nat ->
                   playing (play p app).1.1 = false
                   ∧ currentFrame (play p app).1.1 = currentFrame p).
    { intros Hplaying Hloop Hle. unfold play, scheduleNextFrame.
      rewrite Hplaying, schedule_end by done.
      change (loop (set_playing p true)) with (loop p). by rewrite Hloop. }
    destruct (play p app) as [[p1 app1] c]. cbn [fst snd] in *. subst c.
    cbn. rewrite Hfilename. do 2 (split; [done|]).
    intros Hplaying Hloop Hle. exists p1. split; [done|]. by apply Hend.
Qed.

(** X23.  The stop route unloads the recording.  Whatever the player was
    doing (in any state a session can reach), afterwards no timeout is
    pending, so that no frame is delivered any more, no radar is listed,
    the plugin status is 'Ready - No recording loaded', and the play,
    pause, stop and settings routes answer 400; the status route reports
    'idle' with [loopPlayback] true, whatever the flag of the player was. *)
Theorem stop_route_unloads (p : MrrPlayer.t) (app : App.t) :
  reachable (p, app) ->
  let out := Plugin.post_stop (Plugin.mk (Some p) app) in
  out.2 = inl Plugin.OkTrue
  ∧ Plugin.player out.1 = None
  ∧ App.timers (Plugin.app out.1) = ∅
  ∧ App.emitted (Plugin.app out.1) = App.emitted app
  ∧ App.pluginStatus (Plugin.app out.1) = "Ready - No recording loaded"
  ∧ RadarProvider.getRadars (Plugin.player out.1) = []
  ∧ Plugin.post_play out.1
    = (out.1, inl (Plugin.BadRequest "No recording loaded"))
  ∧ Plugin.post_pause out.1
    = (out.1, inl (Plugin.BadRequest "No recording loaded"))
  ∧ Plugin.post_stop out.1
    = (out.1, inl (Plugin.BadRequest "No recording loaded"))
  ∧ (∀ b, Plugin.put_settings b out.1
          = (out.1, inl (Plugin.BadRequest "No recording loaded")))
  ∧ Plugin.get_status out.1
    = (out.1, inl (Plugin.StatusJson (NoPlayer "idle" true))).
Proof.
  intros Hreach. pose proof (reachable_one_pending _ Hreach) as Hone.
  destruct (pause_clears p app Hone) as [Hnone _].
  pose proof (emitted_pause p app) as Hemitted.
  cbv zeta. unfold Plugin.post_stop. cbn [Plugin.player Plugin.app].
  unfold stop. destruct (pause p app) as [p1 app1]. cbn [fst snd] in *.
  done.
Qed.

Lemma stop_route_unloads_witness :
  let s := run_events (Sample.player, Sample.app) [Play; Fire 0] in
  App.timers (Plugin.app (Plugin.post_stop (Plugin.mk (Some s.1) s.2)).1) = ∅.
Proof.
  cbv zeta.
  destruct (stop_route_unloads
              (run_events (Sample.player, Sample.app) [Play; Fire 0]).1
              (run_events (Sample.player, Sample.app) [Play; Fire 0]).2)
    as (_ & _ & Hnone & _); [apply (sample_reachable [Play; Fire 0])|].
  exact Hnone.
Defined.

(** X24.  [plugin.stop] stops the player and lets go of it: in any state
    a session can reach, no timeout is left pending, nothing is delivered,
    and the plugin status is 'Stopped'; without a player only the status
    is set. *)
Theorem plugin_stop_clears (s : Plugin.t) :
  (∀ p, Plugin.player s = Some p -> reachable (p, Plugin.app s)) ->
  Plugin.player (Plugin.stop s) = None
  ∧ App.pluginStatus (Plugin.app (Plugin.stop s)) = "Stopped"
  ∧ App.emitted (Plugin.app (Plugin.stop s)) = App.emitted (Plugin.app s)
  ∧ (is_Some (Plugin.player s) -> App.timers (Plugin.app (Plugin.stop s)) = ∅)
  ∧ (Plugin.player s = None ->
     App.timers (Plugin.app (Plugin.stop s)) = App.timers (Plugin.app s)).
Proof.
  destruct s as [[p|] app]; cbn [Plugin.player Plugin.app]; intros Hreach.
  - pose proof (reachable_one_pending _ (Hreach p eq_refl)) as Hone.
    destruct (pause_clears p app Hone) as [Hnone _].
    pose proof (emitted_pause p app) as Hemitted.
    unfold Plugin.stop. cbn [Plugin.player Plugin.app].
    unfold stop. destruct (pause p app) as [p1 app1]. cbn [fst snd] in *.
    done.
  - done.
Qed.

Lemma plugin_stop_clears_witness :
  App.timers
    (Plugin.app
       (Plugin.stop
          (Plugin.mk (Some (step (Sample.player, Sample.app) Play).1)
             (step (Sample.player, Sample.app) Play).2))) = ∅.
Proof.
  destruct (plugin_stop_clears
              (Plugin.mk (Some (step (Sample.player, Sample.app) Play).1)
                 (step (Sample.player, Sample.app) Play).2))
    as (_ & _ & _ & Hnone & _).
  - intros p [= <-]. apply (sample_reachable [Play]).
  - apply Hnone. by eexists.
Defined.

Lemma play_route_outcomes_witness :
  (Plugin.post_play (Plugin.mk (Some Sample.empty_player) Sample.app)).2
  = inr RangeError.
Proof.
  destruct (play_route_outcomes (Plugin.mk (Some Sample.empty_player) Sample.app))
    as [(_ & _ & _ & Hthrown & _)|[[Hnot|[Hnot|Hnot]] _]];
    [exact Hthrown|vm_compute in Hnot; try discriminate Hnot..].
  by destruct Hnot.
Defined.
